(** * Fossilize replayer (cli/fossilize_replay.cpp): a shallow embedding

  The development follows the source file top-down: the driver-cache header
  check, the in-place partition [unstable_remove_if], the [ThreadedReplayer]
  state with its enqueue functions, the worker, the deferred resolver and the
  orchestrator loop of [run_normal_process].

  Conventions.
  - [uint32_t] / [unsigned] values are [Z] with the wrap-around at [2^32]
    written out ([u32]); 64-bit hashes and Vulkan handles are [Z], the null
    handle is [0].
  - [std::unordered_map<Hash, T>] is [gmap Z T], [std::unordered_set<Hash>] is
    [gset Z]. A pointer to a map node ([&shader_modules[hash]]) is the key of
    that node; a null pointer is [None].
  - An output pointer ([VkPipeline *], [VkShaderModule *]) is an address into
    the store [output_mem] (the memory owned by the state replayer).
  - Device calls are answered by an oracle indexed by the number of calls made
    so far, so that every behaviour of the driver is covered. *)

From Stdlib Require Import ZArith Lia.
From Stdlib.Strings Require Import Byte.
From stdpp Require Import base tactics option list gmap sets vector strings.

Local Open Scope Z_scope.

(** ** Vulkan constants

  [volk.h] is not part of the sources of the replayer; the constants are the
  values of the Vulkan headers. *)
Module Vk.

Definition VK_NULL_HANDLE : Z := 0.
Definition VK_UUID_SIZE : nat := 16.
Definition VK_PIPELINE_CACHE_HEADER_VERSION_ONE : Z := 1.
Definition VK_PIPELINE_CREATE_ALLOW_DERIVATIVES_BIT : Z := 2.
Definition VK_PIPELINE_CREATE_DERIVATIVE_BIT : Z := 4.

End Vk.
Export Vk.

(** ** Machine integers *)

Definition u32 (x : Z) : Z := x mod 2 ^ 32.

Definition byte_val (b : byte) : Z := Z.of_N (Byte.to_N b).

(** ** [ThreadedReplayer::Options]

    [control_block] is a pointer into shared memory; the block it points to is
    part of the replayer state below ([control_block], [None] for a null
    pointer). The thread callback is not modelled. *)
Module Options.

Record t := mk {
  pipeline_cache : bool;
  on_disk_pipeline_cache_path : string;
  num_threads : Z;
  loop_count : Z;
  start_graphics_index : Z;
  end_graphics_index : Z;
  start_compute_index : Z;
  end_compute_index : Z
}.

(** The default member initialisers, for a machine with [hw] hardware
    threads. *)
Definition default (hw : Z) : t :=
  {| pipeline_cache := false;
     on_disk_pipeline_cache_path := EmptyString;
     num_threads := hw;
     loop_count := 1;
     start_graphics_index := 0;
     end_graphics_index := 2 ^ 32 - 1;
     start_compute_index := 0;
     end_compute_index := 2 ^ 32 - 1 |}.

End Options.

(** ** Driver cache header *)

Module CacheHeader.

(** The fields of [VkPhysicalDeviceProperties] that the replayer reads. *)
Record VkPhysicalDeviceProperties := {
  vendorID : Z;
  deviceID : Z;
  pipelineCacheUUID : vec byte VK_UUID_SIZE
}.

(** [blob[i]] widened to [uint32_t]. The caller has checked the size; outside the
    vector the model reads [0]. *)
Definition blob_at (blob : list byte) (i : nat) : Z :=
  from_option byte_val 0 (blob !! i).

(** The lambda [read_le] of [validate_pipeline_cache_header]. *)
Definition read_le (blob : list byte) (offset : nat) : Z :=
  Z.lor (Z.lor (Z.lor (blob_at blob (offset + 0))
                      (u32 (Z.shiftl (blob_at blob (offset + 1)) 8)))
               (u32 (Z.shiftl (blob_at blob (offset + 2)) 16)))
        (u32 (Z.shiftl (blob_at blob (offset + 3)) 24)).

(** [memcmp]: [0] when the first [n] bytes agree, otherwise the difference of
    the first pair of bytes that differ. *)
Fixpoint memcmp (a b : list byte) (n : nat) {struct n} : Z :=
  match n with
  | O => 0
  | S n' =>
      match a, b with
      | x :: a', y :: b' =>
          if decide (byte_val x = byte_val y) then memcmp a' b' n'
          else byte_val x - byte_val y
      | _, _ => 0
      end
  end.

Definition validate_pipeline_cache_header
    (props : VkPhysicalDeviceProperties) (blob : list byte) : bool :=
  if decide (length blob < 16 + VK_UUID_SIZE)%nat then false
  else
    let length_ := read_le blob 0 in
    if decide (length_ <> 16 + Z.of_nat VK_UUID_SIZE) then false
    else
      let version := read_le blob 4 in
      if decide (version <> VK_PIPELINE_CACHE_HEADER_VERSION_ONE) then false
      else if decide (vendorID props <> read_le blob 8) then false
      else if decide (deviceID props <> read_le blob 12) then false
      else if decide (memcmp (vec_to_list (pipelineCacheUUID props))
                             (drop 16 blob) VK_UUID_SIZE <> 0) then false
      else true.

(** The file system as [fopen(path, "rb")] sees it: [None] when the file
    cannot be opened, otherwise its contents; [fread_complete] tells whether
    [fread] delivers all of them. *)
Record FileSystem := {
  fopen_rb : string -> option (list byte);
  fread_complete : bool
}.

Record VkPipelineCacheCreateInfo := {
  initialDataSize : nat;
  pInitialData : option (list byte)
}.

Definition blank_cache_info : VkPipelineCacheCreateInfo :=
  {| initialDataSize := 0; pInitialData := None |}.

(** The [VkPipelineCacheCreateInfo] that [set_application_info] hands to the
    first [vkCreatePipelineCache] call; [None] when [opts.pipeline_cache] is
    off and no cache is created at all. *)
Definition pipeline_cache_create_info
    (opts : Options.t) (fs : FileSystem)
    (props : VkPhysicalDeviceProperties) : option VkPipelineCacheCreateInfo :=
  if Options.pipeline_cache opts then
    Some
      (if decide (Options.on_disk_pipeline_cache_path opts = EmptyString)
       then blank_cache_info
       else
         match fopen_rb fs (Options.on_disk_pipeline_cache_path opts) with
         | None => blank_cache_info
         | Some contents =>
             let len := length contents in
             if decide (len <> 0%nat) then
               if fread_complete fs then
                 let on_disk_cache := contents in
                 if validate_pipeline_cache_header props on_disk_cache then
                   {| initialDataSize := length on_disk_cache;
                      pInitialData := Some on_disk_cache |}
                 else blank_cache_info
               else blank_cache_info
             else blank_cache_info
         end)
  else None.

(** *** The header as the specification words it *)

(** The little-endian 32-bit unsigned integer stored in the four bytes at
    [offset], when the blob has them. *)
Definition le_u32_at (blob : list byte) (offset : nat) : option Z :=
  match take 4 (drop offset blob) with
  | [b0; b1; b2; b3] =>
      Some (byte_val b0 + 2 ^ 8 * byte_val b1 + 2 ^ 16 * byte_val b2
            + 2 ^ 24 * byte_val b3)
  | _ => None
  end.

Definition header_matches
    (props : VkPhysicalDeviceProperties) (blob : list byte) : Prop :=
  (16 + VK_UUID_SIZE <= length blob)%nat /\
  le_u32_at blob 0 = Some (16 + Z.of_nat VK_UUID_SIZE) /\
  le_u32_at blob 4 = Some VK_PIPELINE_CACHE_HEADER_VERSION_ONE /\
  le_u32_at blob 8 = Some (vendorID props) /\
  le_u32_at blob 12 = Some (deviceID props) /\
  take VK_UUID_SIZE (drop 16 blob) = vec_to_list (pipelineCacheUUID props).

End CacheHeader.

(** ** The in-place partition [unstable_remove_if]

    The iterators [first] and [last] are positions in the vector [v]. *)

(** [std::swap] of the elements that the two iterators point at. *)
Definition swap_at {A} (i j : nat) (v : list A) : list A :=
  match v !! i, v !! j with
  | Some x, Some y => <[i := y]> (<[j := x]> v)
  | _, _ => v
  end.

(** The loop [while (first != last)]. Either branch brings the two iterators
    one step closer, so the recursion is on their distance [dist]: [last] is
    [first + dist]. *)
Fixpoint unstable_remove_if_loop {A} (p : A -> bool) (dist first : nat)
    (v : list A) {struct dist} : nat * list A :=
  match dist with
  | O => (first, v)
  | S dist' =>
      match v !! first with
      | Some x =>
          if p x then
            (* --last, then swap the two elements *)
            let last := (first + dist')%nat in
            unstable_remove_if_loop p dist' first (swap_at first last v)
          else
            (* ++first *)
            unstable_remove_if_loop p dist' (S first) v
      | None => (first, v)
      end
  end.

(** Returns the iterator [mid] and the vector as the call leaves it. *)
Definition unstable_remove_if {A} (first last : nat) (p : A -> bool)
    (v : list A) : nat * list A :=
  unstable_remove_if_loop p (last - first) first v.

(** The elements of the range [[first, last)] of [v]. *)
Definition range_of {A} (first last : nat) (v : list A) : list A :=
  take (last - first) (drop first v).

(** ** Data model of the replayer *)

(** [ResourceTag], in the order of the enumeration (the order of
    [tag_names] in [run_normal_process]). *)
Inductive ResourceTag :=
| RESOURCE_APPLICATION_INFO
| RESOURCE_SAMPLER
| RESOURCE_DESCRIPTOR_SET_LAYOUT
| RESOURCE_PIPELINE_LAYOUT
| RESOURCE_SHADER_MODULE
| RESOURCE_RENDER_PASS
| RESOURCE_GRAPHICS_PIPELINE
| RESOURCE_COMPUTE_PIPELINE
| RESOURCE_COUNT.

#[global] Instance ResourceTag_eq_dec : EqDecision ResourceTag.
Proof. solve_decision. Defined.

(** The fields of the Vulkan create-info structures that the replayer reads.
    [pStages] is the array of [stageCount] stages. *)
Record VkPipelineShaderStageCreateInfo := { module : Z }.

Record VkShaderModuleCreateInfo := { codeSize : Z; pCode : list Z }.

Module VkGraphicsPipelineCreateInfo.
Record t := mk {
  flags : Z;
  pStages : list VkPipelineShaderStageCreateInfo;
  basePipelineHandle : Z
}.
Definition stageCount (ci : t) : Z := Z.of_nat (length (pStages ci)).
End VkGraphicsPipelineCreateInfo.

Module VkComputePipelineCreateInfo.
Record t := mk {
  flags : Z;
  stage : VkPipelineShaderStageCreateInfo;
  basePipelineHandle : Z
}.
End VkComputePipelineCreateInfo.

(** What the template [resolve_derived_pipelines] and the two overloads of
    [enqueue_pipeline] use of either create info. *)
Class PipelineCreateInfo (Info : Type) := {
  flags : Info -> Z;
  basePipelineHandle : Info -> Z;
  with_basePipelineHandle : Z -> Info -> Info
}.

#[global] Instance graphics_create_info_fields :
  PipelineCreateInfo VkGraphicsPipelineCreateInfo.t := {|
  flags := VkGraphicsPipelineCreateInfo.flags;
  basePipelineHandle := VkGraphicsPipelineCreateInfo.basePipelineHandle;
  with_basePipelineHandle h ci :=
    VkGraphicsPipelineCreateInfo.mk
      (VkGraphicsPipelineCreateInfo.flags ci)
      (VkGraphicsPipelineCreateInfo.pStages ci) h
|}.

#[global] Instance compute_create_info_fields :
  PipelineCreateInfo VkComputePipelineCreateInfo.t := {|
  flags := VkComputePipelineCreateInfo.flags;
  basePipelineHandle := VkComputePipelineCreateInfo.basePipelineHandle;
  with_basePipelineHandle h ci :=
    VkComputePipelineCreateInfo.mk
      (VkComputePipelineCreateInfo.flags ci)
      (VkComputePipelineCreateInfo.stage ci) h
|}.

(** [(flags & bit) != 0]. *)
Definition has_flag (fl bit : Z) : bool := bool_decide (Z.land fl bit <> 0).

(** [DeferredGraphicsInfo] and [DeferredComputeInfo]. The create info is held
    by value: the replayer is the only writer of the pointed-to structure. *)
Module DeferredInfo.
Record t (Info : Type) := mk {
  info : Info;
  hash : Z;
  pipeline : Z;
  contributes_to_index : bool
}.
Arguments mk {Info}.
Arguments info {Info}.
Arguments hash {Info}.
Arguments pipeline {Info}.
Arguments contributes_to_index {Info}.
End DeferredInfo.

Abbreviation DeferredGraphicsInfo := (DeferredInfo.t VkGraphicsPipelineCreateInfo.t).
Abbreviation DeferredComputeInfo := (DeferredInfo.t VkComputePipelineCreateInfo.t).

(** The union [create_info] of [PipelineWorkItem]: one pointer, null or
    pointing to a create info of one of three kinds. *)
Inductive CreateInfoPtr :=
| null_create_info
| graphics_create_info (ci : VkGraphicsPipelineCreateInfo.t)
| compute_create_info (ci : VkComputePipelineCreateInfo.t)
| shader_module_create_info (ci : VkShaderModuleCreateInfo).

(** [PipelineWorkItem]. [output] is the address the handle is written to,
    [hash_map_entry] the key of the map node pointed to; [None] is the null
    pointer. *)
Record PipelineWorkItem := {
  hash : Z;
  tag : ResourceTag;
  contributes_to_index : bool;
  create_info : CreateInfoPtr;
  output : option Z;
  hash_map_entry : option Z
}.

(** [PipelineWorkItem work_item = {}]: the default member initialisers. *)
Definition default_work_item : PipelineWorkItem :=
  {| hash := 0; tag := RESOURCE_COUNT; contributes_to_index := true;
     create_info := null_create_info; output := None; hash_map_entry := None |}.

(** Modelled from the spec: the counters of the shared control block
    ([SharedControlBlock], declared in
    fossilize_external_replayer_control_block.hpp) that this file updates;
    each is an atomic 32-bit counter. *)
Record SharedControlBlock := {
  successful_graphics : Z;
  skipped_graphics : Z;
  successful_compute : Z;
  skipped_compute : Z
}.

(** [Hash failed_module_hashes[6]]. *)
Definition FAILED_MODULE_HASHES_SIZE : Z := 6.

(** The replayer, its single worker thread and the memory around them.

    - [graphics_count], [compute_count] and [shader_count] are the locals of
      [worker_thread] (one worker is modelled).
    - [failed_module_hashes] holds the six elements of the array;
      [stores_past_end] records the stores at an index past its end (index
      and value), see [store_failed_module_hash] for where they land.
    - [output_mem] is the memory that the output pointers of the enqueue calls
      point into; [device_calls] counts the create calls made on the device. *)
Record ThreadedReplayer := mkThreadedReplayer {
  opts : Options.t;
  control_block : option SharedControlBlock;
  graphics_pipeline_index : Z;
  compute_pipeline_index : Z;
  samplers : gmap Z Z;
  layouts : gmap Z Z;
  pipeline_layouts : gmap Z Z;
  shader_modules : gmap Z Z;
  render_passes : gmap Z Z;
  compute_pipelines : gmap Z Z;
  graphics_pipelines : gmap Z Z;
  masked_shader_modules : gset Z;
  shader_module_to_hash : gmap Z Z;
  loop_count : Z;
  queued_count : Z;
  completed_count : Z;
  pipeline_work_queue : list PipelineWorkItem;
  potential_graphics_parent : gmap Z DeferredGraphicsInfo;
  potential_compute_parent : gmap Z DeferredComputeInfo;
  derived_graphics : list DeferredGraphicsInfo;
  derived_compute : list DeferredComputeInfo;
  graphics_pipeline_count : Z;
  compute_pipeline_count : Z;
  shader_module_count : Z;
  shutting_down : bool;
  device_was_init : bool;
  failed_module_hashes : list Z;
  stores_past_end : list (Z * Z);
  num_failed_module_hashes : Z;
  thread_current_graphics_index : Z;
  thread_current_compute_index : Z;
  robustness : bool;
  graphics_count : Z;
  compute_count : Z;
  shader_count : Z;
  output_mem : gmap Z Z;
  device_calls : N
}.

(** *** Field updates *)

Definition ThreadedReplayer_eta (r : ThreadedReplayer) : ThreadedReplayer :=
  {| opts := opts r;
     control_block := control_block r;
     graphics_pipeline_index := graphics_pipeline_index r;
     compute_pipeline_index := compute_pipeline_index r;
     samplers := samplers r;
     layouts := layouts r;
     pipeline_layouts := pipeline_layouts r;
     shader_modules := shader_modules r;
     render_passes := render_passes r;
     compute_pipelines := compute_pipelines r;
     graphics_pipelines := graphics_pipelines r;
     masked_shader_modules := masked_shader_modules r;
     shader_module_to_hash := shader_module_to_hash r;
     loop_count := loop_count r;
     queued_count := queued_count r;
     completed_count := completed_count r;
     pipeline_work_queue := pipeline_work_queue r;
     potential_graphics_parent := potential_graphics_parent r;
     potential_compute_parent := potential_compute_parent r;
     derived_graphics := derived_graphics r;
     derived_compute := derived_compute r;
     graphics_pipeline_count := graphics_pipeline_count r;
     compute_pipeline_count := compute_pipeline_count r;
     shader_module_count := shader_module_count r;
     shutting_down := shutting_down r;
     device_was_init := device_was_init r;
     failed_module_hashes := failed_module_hashes r;
     stores_past_end := stores_past_end r;
     num_failed_module_hashes := num_failed_module_hashes r;
     thread_current_graphics_index := thread_current_graphics_index r;
     thread_current_compute_index := thread_current_compute_index r;
     robustness := robustness r;
     graphics_count := graphics_count r;
     compute_count := compute_count r;
     shader_count := shader_count r;
     output_mem := output_mem r;
     device_calls := device_calls r |}.

(** [set proj f r] is [r] with the field [proj] replaced by [f (proj r)]. *)
Class Setter {R T : Type} (proj : R -> T) := set : (T -> T) -> R -> R.
Arguments set {R T} proj {Setter} _ _.

Ltac make_setter eta proj :=
  let f := fresh "f" in
  let r := fresh "r" in
  unfold Setter; intros f r;
  let e := eval cbv beta delta [eta] in (eta r) in
  lazymatch eval pattern (proj r) in e with
  | ?g _ => let e' := eval cbv beta in (g (f (proj r))) in exact e'
  end.

#[warnings="-postfix-notation-not-level-1"]
Notation "s <| proj := v |>" := (set proj (fun _ => v) s)
  (at level 12, left associativity, format "s  <| proj  :=  v |>").
#[warnings="-postfix-notation-not-level-1"]
Notation "s <| proj ::= f |>" := (set proj f s)
  (at level 12, left associativity, format "s  <| proj  ::=  f |>").

#[global] Instance set_control_block : Setter control_block :=
  ltac:(make_setter ThreadedReplayer_eta control_block).
#[global] Instance set_graphics_pipeline_index : Setter graphics_pipeline_index :=
  ltac:(make_setter ThreadedReplayer_eta graphics_pipeline_index).
#[global] Instance set_compute_pipeline_index : Setter compute_pipeline_index :=
  ltac:(make_setter ThreadedReplayer_eta compute_pipeline_index).
#[global] Instance set_samplers : Setter samplers :=
  ltac:(make_setter ThreadedReplayer_eta samplers).
#[global] Instance set_layouts : Setter layouts :=
  ltac:(make_setter ThreadedReplayer_eta layouts).
#[global] Instance set_pipeline_layouts : Setter pipeline_layouts :=
  ltac:(make_setter ThreadedReplayer_eta pipeline_layouts).
#[global] Instance set_shader_modules : Setter shader_modules :=
  ltac:(make_setter ThreadedReplayer_eta shader_modules).
#[global] Instance set_render_passes : Setter render_passes :=
  ltac:(make_setter ThreadedReplayer_eta render_passes).
#[global] Instance set_compute_pipelines : Setter compute_pipelines :=
  ltac:(make_setter ThreadedReplayer_eta compute_pipelines).
#[global] Instance set_graphics_pipelines : Setter graphics_pipelines :=
  ltac:(make_setter ThreadedReplayer_eta graphics_pipelines).
#[global] Instance set_masked_shader_modules : Setter masked_shader_modules :=
  ltac:(make_setter ThreadedReplayer_eta masked_shader_modules).
#[global] Instance set_shader_module_to_hash : Setter shader_module_to_hash :=
  ltac:(make_setter ThreadedReplayer_eta shader_module_to_hash).
#[global] Instance set_queued_count : Setter queued_count :=
  ltac:(make_setter ThreadedReplayer_eta queued_count).
#[global] Instance set_completed_count : Setter completed_count :=
  ltac:(make_setter ThreadedReplayer_eta completed_count).
#[global] Instance set_pipeline_work_queue : Setter pipeline_work_queue :=
  ltac:(make_setter ThreadedReplayer_eta pipeline_work_queue).
#[global] Instance set_potential_graphics_parent : Setter potential_graphics_parent :=
  ltac:(make_setter ThreadedReplayer_eta potential_graphics_parent).
#[global] Instance set_potential_compute_parent : Setter potential_compute_parent :=
  ltac:(make_setter ThreadedReplayer_eta potential_compute_parent).
#[global] Instance set_derived_graphics : Setter derived_graphics :=
  ltac:(make_setter ThreadedReplayer_eta derived_graphics).
#[global] Instance set_derived_compute : Setter derived_compute :=
  ltac:(make_setter ThreadedReplayer_eta derived_compute).
#[global] Instance set_graphics_pipeline_count : Setter graphics_pipeline_count :=
  ltac:(make_setter ThreadedReplayer_eta graphics_pipeline_count).
#[global] Instance set_compute_pipeline_count : Setter compute_pipeline_count :=
  ltac:(make_setter ThreadedReplayer_eta compute_pipeline_count).
#[global] Instance set_shader_module_count : Setter shader_module_count :=
  ltac:(make_setter ThreadedReplayer_eta shader_module_count).
#[global] Instance set_shutting_down : Setter shutting_down :=
  ltac:(make_setter ThreadedReplayer_eta shutting_down).
#[global] Instance set_device_was_init : Setter device_was_init :=
  ltac:(make_setter ThreadedReplayer_eta device_was_init).
#[global] Instance set_failed_module_hashes : Setter failed_module_hashes :=
  ltac:(make_setter ThreadedReplayer_eta failed_module_hashes).
#[global] Instance set_stores_past_end : Setter stores_past_end :=
  ltac:(make_setter ThreadedReplayer_eta stores_past_end).
#[global] Instance set_num_failed_module_hashes : Setter num_failed_module_hashes :=
  ltac:(make_setter ThreadedReplayer_eta num_failed_module_hashes).
#[global] Instance set_thread_current_graphics_index : Setter thread_current_graphics_index :=
  ltac:(make_setter ThreadedReplayer_eta thread_current_graphics_index).
#[global] Instance set_thread_current_compute_index : Setter thread_current_compute_index :=
  ltac:(make_setter ThreadedReplayer_eta thread_current_compute_index).
#[global] Instance set_robustness : Setter robustness :=
  ltac:(make_setter ThreadedReplayer_eta robustness).
#[global] Instance set_loop_count : Setter loop_count :=
  ltac:(make_setter ThreadedReplayer_eta loop_count).
#[global] Instance set_opts : Setter opts :=
  ltac:(make_setter ThreadedReplayer_eta opts).
#[global] Instance set_graphics_count : Setter graphics_count :=
  ltac:(make_setter ThreadedReplayer_eta graphics_count).
#[global] Instance set_compute_count : Setter compute_count :=
  ltac:(make_setter ThreadedReplayer_eta compute_count).
#[global] Instance set_shader_count : Setter shader_count :=
  ltac:(make_setter ThreadedReplayer_eta shader_count).
#[global] Instance set_output_mem : Setter output_mem :=
  ltac:(make_setter ThreadedReplayer_eta output_mem).
#[global] Instance set_device_calls : Setter device_calls :=
  ltac:(make_setter ThreadedReplayer_eta device_calls).

Definition SharedControlBlock_eta (r : SharedControlBlock) : SharedControlBlock :=
  {| successful_graphics := successful_graphics r;
     skipped_graphics := skipped_graphics r;
     successful_compute := successful_compute r;
     skipped_compute := skipped_compute r |}.

#[global] Instance set_successful_graphics : Setter successful_graphics :=
  ltac:(make_setter SharedControlBlock_eta successful_graphics).
#[global] Instance set_skipped_graphics : Setter skipped_graphics :=
  ltac:(make_setter SharedControlBlock_eta skipped_graphics).
#[global] Instance set_successful_compute : Setter successful_compute :=
  ltac:(make_setter SharedControlBlock_eta successful_compute).
#[global] Instance set_skipped_compute : Setter skipped_compute :=
  ltac:(make_setter SharedControlBlock_eta skipped_compute).

(** ** Small helpers *)

(** [x.fetch_add(n)] and [x++] on a 32-bit unsigned counter. *)
Definition fetch_add (n x : Z) : Z := u32 (x + n).
Definition incr (x : Z) : Z := fetch_add 1 x.

(** [&m[k]]: [operator[]] creates the node with a null handle when the key is
    new and leaves an existing node alone. *)
Definition touch (k : Z) (m : gmap Z Z) : gmap Z Z :=
  match m !! k with
  | Some _ => m
  | None => <[k := VK_NULL_HANDLE]> m
  end.

(** [*p = v] and [*p] for a pointer [p] to a map node or to output memory.
    The replayer never dereferences a null pointer; the model makes the store
    a no-op and the load a null handle there. *)
Definition store (p : option Z) (v : Z) (m : gmap Z Z) : gmap Z Z :=
  match p with
  | Some k => <[k := v]> m
  | None => m
  end.

Definition load (p : option Z) (m : gmap Z Z) : Z :=
  match p with
  | Some k => default VK_NULL_HANDLE (m !! k)
  | None => VK_NULL_HANDLE
  end.

(** [for (unsigned i = 0; i < count; i++) body(i)]. *)
Fixpoint for_range {S : Type} (n : nat) (i : Z) (body : Z -> S -> S) (s : S) : S :=
  match n with
  | O => s
  | Datatypes.S n' => for_range n' (i + 1) body (body i s)
  end.

Definition for_loop {S : Type} (count : Z) (body : Z -> S -> S) (s : S) : S :=
  for_range (Z.to_nat count) 0 body s.

(** ** The device

    [VulkanDevice] (device.hpp) as the replayer sees it: whether
    [init_device] succeeds, and the answer of the driver to the [n]-th create
    call made on [get_device ()] -- success with the handle it writes to the
    output, or failure, where it may leave the output alone or write a value
    to it. *)
Inductive VkResult :=
| VK_SUCCESS (handle : Z)
| VK_FAILURE (written : option Z).

(** Whether a create call returned [VK_SUCCESS]. *)
Definition is_success (r : VkResult) : bool :=
  match r with
  | VK_SUCCESS _ => true
  | VK_FAILURE _ => false
  end.

Record VulkanDevice := {
  init_device : bool;
  create_result : N -> VkResult
}.

(** One create call ([vkCreateShaderModule], [vkCreateGraphicsPipelines],
    [vkCreateComputePipelines], [vkCreateSampler], ...) with output pointer
    [out]; the boolean is [== VK_SUCCESS]. *)
Definition vkCreate (device : VulkanDevice) (out : option Z) (s : ThreadedReplayer)
    : bool * ThreadedReplayer :=
  let r := create_result device (device_calls s) in
  let s := s <| device_calls ::= N.succ |> in
  match r with
  | VK_SUCCESS h => (true, s <| output_mem ::= store out h |>)
  | VK_FAILURE (Some h) => (false, s <| output_mem ::= store out h |>)
  | VK_FAILURE None => (false, s)
  end.

(** ** Construction *)

(** The constructor, for a process whose control block pointer and output
    memory are as given. *)
Definition new_ThreadedReplayer (opts_ : Options.t)
    (cb : option SharedControlBlock) (mem : gmap Z Z) : ThreadedReplayer :=
  {| opts := opts_;
     control_block := cb;
     graphics_pipeline_index := 0;
     compute_pipeline_index := 0;
     samplers := ∅;
     layouts := ∅;
     pipeline_layouts := ∅;
     shader_modules := ∅;
     render_passes := ∅;
     compute_pipelines := ∅;
     graphics_pipelines := ∅;
     masked_shader_modules := ∅;
     shader_module_to_hash := ∅;
     loop_count := Options.loop_count opts_;
     queued_count := 0;
     completed_count := 0;
     pipeline_work_queue := [];
     potential_graphics_parent := ∅;
     potential_compute_parent := ∅;
     derived_graphics := [];
     derived_compute := [];
     graphics_pipeline_count := 0;
     compute_pipeline_count := 0;
     shader_module_count := 0;
     shutting_down := false;
     device_was_init := false;
     failed_module_hashes := replicate 6 0;
     stores_past_end := [];
     num_failed_module_hashes := 0;
     thread_current_graphics_index := Options.start_graphics_index opts_;
     thread_current_compute_index := Options.start_compute_index opts_;
     robustness := false;
     graphics_count := 0;
     compute_count := 0;
     shader_count := 0;
     output_mem := mem;
     device_calls := 0%N |}.

(** ** Enqueueing (main thread) *)

(** [pipeline_work_queue.push(work_item); queued_count++] under the lock. *)
Definition push_work_item (w : PipelineWorkItem) (s : ThreadedReplayer)
    : ThreadedReplayer :=
  s <| pipeline_work_queue ::= (fun q => q ++ [w]) |> <| queued_count ::= incr |>.

Definition mask_shader_module (hash_ : Z) (s : ThreadedReplayer) : ThreadedReplayer :=
  s <| masked_shader_modules ::= (fun m => {[ hash_ ]} ∪ m) |>.

Definition enqueue_create_shader_module (hash_ : Z)
    (create_info_ : VkShaderModuleCreateInfo) (module_ : Z)
    (s : ThreadedReplayer) : bool * ThreadedReplayer :=
  if bool_decide (hash_ ∈ masked_shader_modules s) then
    (true, s <| output_mem ::= <[module_ := VK_NULL_HANDLE]> |>)
  else
    let s := s <| shader_modules ::= touch hash_ |> in
    let work_item :=
      {| hash := hash_;
         tag := RESOURCE_SHADER_MODULE;
         contributes_to_index := contributes_to_index default_work_item;
         create_info := shader_module_create_info create_info_;
         output := Some module_;
         hash_map_entry := Some hash_ |} in
    (true, push_work_item work_item s).

(** [valid_handles] of the two graphics enqueue functions: no stage refers
    to a null module. *)
Definition valid_handles (create_info_ : VkGraphicsPipelineCreateInfo.t) : bool :=
  forallb (fun st => bool_decide (module st <> VK_NULL_HANDLE))
          (VkGraphicsPipelineCreateInfo.pStages create_info_).

(** The graphics work item built by [enqueue_create_graphics_pipeline] and
    by [enqueue_pipeline], and the replayer after [&graphics_pipelines[hash]]. *)
Definition graphics_work_item (hash_ : Z)
    (create_info_ : VkGraphicsPipelineCreateInfo.t) (pipeline_ : Z)
    (contributes : bool) (s : ThreadedReplayer)
    : PipelineWorkItem * ThreadedReplayer :=
  if valid_handles create_info_ then
    ({| hash := hash_;
        tag := RESOURCE_GRAPHICS_PIPELINE;
        contributes_to_index := contributes;
        create_info := graphics_create_info create_info_;
        output := Some pipeline_;
        hash_map_entry := Some hash_ |},
     s <| graphics_pipelines ::= touch hash_ |>)
  else
    ({| hash := hash_;
        tag := RESOURCE_GRAPHICS_PIPELINE;
        contributes_to_index := contributes;
        create_info := null_create_info;
        output := Some pipeline_;
        hash_map_entry := None |},
     s).

Definition compute_work_item (hash_ : Z)
    (create_info_ : VkComputePipelineCreateInfo.t) (pipeline_ : Z)
    (contributes : bool) (s : ThreadedReplayer)
    : PipelineWorkItem * ThreadedReplayer :=
  if bool_decide (module (VkComputePipelineCreateInfo.stage create_info_)
                  <> VK_NULL_HANDLE) then
    ({| hash := hash_;
        tag := RESOURCE_COMPUTE_PIPELINE;
        contributes_to_index := contributes;
        create_info := compute_create_info create_info_;
        output := Some pipeline_;
        hash_map_entry := Some hash_ |},
     s <| compute_pipelines ::= touch hash_ |>)
  else
    ({| hash := hash_;
        tag := RESOURCE_COMPUTE_PIPELINE;
        contributes_to_index := contributes;
        create_info := null_create_info;
        output := Some pipeline_;
        hash_map_entry := None |},
     s).

Definition in_graphics_slice (s : ThreadedReplayer) : bool :=
  bool_decide (Options.start_graphics_index (opts s) <= graphics_pipeline_index s)
  && bool_decide (graphics_pipeline_index s < Options.end_graphics_index (opts s)).

Definition in_compute_slice (s : ThreadedReplayer) : bool :=
  bool_decide (Options.start_compute_index (opts s) <= compute_pipeline_index s)
  && bool_decide (compute_pipeline_index s < Options.end_compute_index (opts s)).

Definition enqueue_create_compute_pipeline (hash_ : Z)
    (create_info_ : VkComputePipelineCreateInfo.t) (pipeline_ : Z)
    (s : ThreadedReplayer) : bool * ThreadedReplayer :=
  let derived := has_flag (flags create_info_) VK_PIPELINE_CREATE_DERIVATIVE_BIT in
  let s :=
    if derived then
      s <| derived_compute ::=
             (fun d => d ++ [DeferredInfo.mk create_info_ hash_ pipeline_ true]) |>
    else if in_compute_slice s then
      let '(work_item, s) :=
        compute_work_item hash_ create_info_ pipeline_
          (contributes_to_index default_work_item) s in
      push_work_item work_item s
    else
      let s :=
        if has_flag (flags create_info_) VK_PIPELINE_CREATE_ALLOW_DERIVATIVES_BIT
        then s <| potential_compute_parent ::=
                    <[hash_ := DeferredInfo.mk create_info_ hash_ pipeline_ false]> |>
        else s in
      s <| output_mem ::= <[pipeline_ := VK_NULL_HANDLE]> |> in
  let s := if negb derived then s <| compute_pipeline_index ::= incr |> else s in
  (true, s).

Definition enqueue_create_graphics_pipeline (hash_ : Z)
    (create_info_ : VkGraphicsPipelineCreateInfo.t) (pipeline_ : Z)
    (s : ThreadedReplayer) : bool * ThreadedReplayer :=
  let derived := has_flag (flags create_info_) VK_PIPELINE_CREATE_DERIVATIVE_BIT in
  let s :=
    if derived then
      s <| derived_graphics ::=
             (fun d => d ++ [DeferredInfo.mk create_info_ hash_ pipeline_ true]) |>
    else if in_graphics_slice s then
      let '(work_item, s) :=
        graphics_work_item hash_ create_info_ pipeline_
          (contributes_to_index default_work_item) s in
      push_work_item work_item s
    else
      let s :=
        if has_flag (flags create_info_) VK_PIPELINE_CREATE_ALLOW_DERIVATIVES_BIT
        then s <| potential_graphics_parent ::=
                    <[hash_ := DeferredInfo.mk create_info_ hash_ pipeline_ false]> |>
        else s in
      s <| output_mem ::= <[pipeline_ := VK_NULL_HANDLE]> |> in
  let s := if negb derived then s <| graphics_pipeline_index ::= incr |> else s in
  (true, s).

(** The two overloads of [enqueue_pipeline]. *)
Definition enqueue_compute_pipeline (hash_ : Z)
    (create_info_ : VkComputePipelineCreateInfo.t) (pipeline_ : Z)
    (contributes : bool) (s : ThreadedReplayer) : bool * ThreadedReplayer :=
  let s :=
    if negb contributes || in_compute_slice s then
      let '(work_item, s) :=
        compute_work_item hash_ create_info_ pipeline_ contributes s in
      push_work_item work_item s
    else s in
  let s := if contributes then s <| compute_pipeline_index ::= incr |> else s in
  (true, s).

Definition enqueue_graphics_pipeline (hash_ : Z)
    (create_info_ : VkGraphicsPipelineCreateInfo.t) (pipeline_ : Z)
    (contributes : bool) (s : ThreadedReplayer) : bool * ThreadedReplayer :=
  let s :=
    if negb contributes || in_graphics_slice s then
      let '(work_item, s) :=
        graphics_work_item hash_ create_info_ pipeline_ contributes s in
      push_work_item work_item s
    else s in
  let s := if contributes then s <| graphics_pipeline_index ::= incr |> else s in
  (true, s).

(** The four kinds that are created in the main thread, in order. *)
Definition enqueue_create_sampler (device : VulkanDevice) (index sampler : Z)
    (s : ThreadedReplayer) : bool * ThreadedReplayer :=
  let '(ok, s) := vkCreate device (Some sampler) s in
  if ok then (true, s <| samplers ::= <[index := load (Some sampler) (output_mem s)]> |>)
  else (false, s).

Definition enqueue_create_descriptor_set_layout (device : VulkanDevice) (index layout : Z)
    (s : ThreadedReplayer) : bool * ThreadedReplayer :=
  let '(ok, s) := vkCreate device (Some layout) s in
  if ok then (true, s <| layouts ::= <[index := load (Some layout) (output_mem s)]> |>)
  else (false, s).

Definition enqueue_create_pipeline_layout (device : VulkanDevice) (index layout : Z)
    (s : ThreadedReplayer) : bool * ThreadedReplayer :=
  let '(ok, s) := vkCreate device (Some layout) s in
  if ok then
    (true, s <| pipeline_layouts ::= <[index := load (Some layout) (output_mem s)]> |>)
  else (false, s).

Definition enqueue_create_render_pass (device : VulkanDevice) (index render_pass : Z)
    (s : ThreadedReplayer) : bool * ThreadedReplayer :=
  let '(ok, s) := vkCreate device (Some render_pass) s in
  if ok then
    (true, s <| render_passes ::= <[index := load (Some render_pass) (output_mem s)]> |>)
  else (false, s).

(** ** The worker thread *)

(** [failed_module_hashes[i] = v], a store of 8 bytes at an index that is not
    checked. The array has six elements; a store at a higher index lands on
    what follows the array in the object, whose members lie in the order of
    their declaration ([unsigned] takes 4 bytes, the byte order is little
    endian): at index 6 on [num_failed_module_hashes] (the low half of the
    value) and [thread_current_graphics_index] (the high half), at index 7 on
    [thread_current_compute_index] and on [robustness], which is the next
    byte and reads as true when it is not zero. From index 8 on the store
    lands outside the replayer, in memory that is not modelled. Every store
    past the end is recorded in [stores_past_end]. *)
Definition low_half (v : Z) : Z := u32 v.
Definition high_half (v : Z) : Z := u32 (Z.shiftr v 32).
Definition bool_of_byte (v : Z) : bool := negb (Z.land v 255 =? 0).
Arguments low_half : simpl never.
Arguments high_half : simpl never.
Arguments bool_of_byte : simpl never.

Definition store_failed_module_hash (i v : Z) (s : ThreadedReplayer)
    : ThreadedReplayer :=
  if bool_decide (i < FAILED_MODULE_HASHES_SIZE) then
    s <| failed_module_hashes ::= <[Z.to_nat i := v]> |>
  else
    let s := s <| stores_past_end ::= (fun l => l ++ [(i, v)]) |> in
    if bool_decide (i = FAILED_MODULE_HASHES_SIZE) then
      s <| num_failed_module_hashes := low_half v |>
        <| thread_current_graphics_index := high_half v |>
    else if bool_decide (i = FAILED_MODULE_HASHES_SIZE + 1) then
      s <| thread_current_compute_index := low_half v |>
        <| robustness := bool_of_byte (high_half v) |>
    else s.

(** [shader_module_to_hash[module]]: the lookup creates the entry when it is
    missing. *)
Definition lookup_shader_module_hash (module_ : Z) (s : ThreadedReplayer)
    : Z * ThreadedReplayer :=
  let s := s <| shader_module_to_hash ::= touch module_ |> in
  (default 0 (shader_module_to_hash s !! module_), s).

(** The body of the loop that snapshots the modules of a graphics pipeline
    when [robustness] is on. *)
Definition snapshot_failed_module
    (create_info_ : VkGraphicsPipelineCreateInfo.t) (i : Z)
    (s : ThreadedReplayer) : ThreadedReplayer :=
  let module_ :=
    from_option module VK_NULL_HANDLE
      (VkGraphicsPipelineCreateInfo.pStages create_info_ !! Z.to_nat i) in
  let '(h, s) := lookup_shader_module_hash module_ s in
  store_failed_module_hash i h s.

Definition snapshot_failed_modules
    (create_info_ : VkGraphicsPipelineCreateInfo.t) (s : ThreadedReplayer)
    : ThreadedReplayer :=
  let s := s <| num_failed_module_hashes :=
                  VkGraphicsPipelineCreateInfo.stageCount create_info_ |> in
  for_loop (VkGraphicsPipelineCreateInfo.stageCount create_info_)
           (snapshot_failed_module create_info_) s.

(** The hash that the snapshot started in [s] stores for stage [i]: the entry
    of [shader_module_to_hash] for the module of the stage, [0] when there is
    none. *)
Definition snapshot_hash (ci : VkGraphicsPipelineCreateInfo.t)
    (s : ThreadedReplayer) (i : Z) : Z :=
  default 0
    (shader_module_to_hash s
       !! from_option module VK_NULL_HANDLE
            (VkGraphicsPipelineCreateInfo.pStages ci !! Z.to_nat i)).

(** [opts.control_block->counter.fetch_add(1)], guarded by
    [if (opts.control_block)]. *)
Definition control_block_incr (counter : SharedControlBlock -> Z)
    `{!Setter counter} (s : ThreadedReplayer) : ThreadedReplayer :=
  s <| control_block ::= fmap (set counter incr) |>.

(** One iteration of [for (unsigned i = 0; i < loop_count; i++)], shader
    module case. The destroy call has no effect on the replayer. *)
Definition shader_module_iteration (device : VulkanDevice) (work_item : PipelineWorkItem)
    (i : Z) (s : ThreadedReplayer) : ThreadedReplayer :=
  let s := s <| shader_modules ::= store (hash_map_entry work_item) VK_NULL_HANDLE |> in
  let '(ok, s) := vkCreate device (output work_item) s in
  if ok then
    let s := s <| shader_count ::= incr |> in
    let h := load (output work_item) (output_mem s) in
    let s := s <| shader_modules ::= store (hash_map_entry work_item) h |> in
    if robustness s then s <| shader_module_to_hash ::= <[h := hash work_item]> |>
    else s
  else s.

Definition graphics_pipeline_iteration (device : VulkanDevice) (work_item : PipelineWorkItem)
    (i : Z) (s : ThreadedReplayer) : ThreadedReplayer :=
  let s := s <| graphics_pipelines ::= store (hash_map_entry work_item) VK_NULL_HANDLE |> in
  let '(ok, s) := vkCreate device (output work_item) s in
  if ok then
    let s := if contributes_to_index work_item
             then s <| graphics_count ::= incr |> else s in
    let s := s <| graphics_pipelines ::=
                    store (hash_map_entry work_item)
                          (load (output work_item) (output_mem s)) |> in
    if bool_decide (i = 0) && contributes_to_index work_item
    then control_block_incr successful_graphics s
    else s
  else s.

Definition compute_pipeline_iteration (device : VulkanDevice) (work_item : PipelineWorkItem)
    (i : Z) (s : ThreadedReplayer) : ThreadedReplayer :=
  let s := s <| compute_pipelines ::= store (hash_map_entry work_item) VK_NULL_HANDLE |> in
  let '(ok, s) := vkCreate device (output work_item) s in
  if ok then
    let s := if contributes_to_index work_item
             then s <| compute_count ::= incr |> else s in
    let s := s <| compute_pipelines ::=
                    store (hash_map_entry work_item)
                          (load (output work_item) (output_mem s)) |> in
    if bool_decide (i = 0) && contributes_to_index work_item
    then control_block_incr successful_compute s
    else s
  else s.

(** A derivative whose parent handle is null is not compiled. *)
Definition invalid_derivative {Info} `{PipelineCreateInfo Info} (ci : Info) : bool :=
  has_flag (flags ci) VK_PIPELINE_CREATE_DERIVATIVE_BIT
  && bool_decide (basePipelineHandle ci = VK_NULL_HANDLE).

(** The [switch (work_item.tag)] of [worker_thread]. The enqueue functions
    pair a tag only with a create info of its own kind (or null); for other
    pairs the model does nothing. *)
Definition process_work_item (device : VulkanDevice) (work_item : PipelineWorkItem)
    (s : ThreadedReplayer) : ThreadedReplayer :=
  match tag work_item with
  | RESOURCE_SHADER_MODULE =>
      for_loop (loop_count s) (shader_module_iteration device work_item) s
  | RESOURCE_GRAPHICS_PIPELINE =>
      let s := if contributes_to_index work_item
               then s <| thread_current_graphics_index ::= incr |> else s in
      match create_info work_item with
      | null_create_info => control_block_incr skipped_graphics s
      | graphics_create_info ci =>
          let s := if robustness s then snapshot_failed_modules ci s else s in
          if invalid_derivative ci then
            s <| output_mem ::= store (output work_item) VK_NULL_HANDLE |>
          else
            for_loop (loop_count s) (graphics_pipeline_iteration device work_item) s
      | _ => s
      end
  | RESOURCE_COMPUTE_PIPELINE =>
      let s := if contributes_to_index work_item
               then s <| thread_current_compute_index ::= incr |> else s in
      match create_info work_item with
      | null_create_info => control_block_incr skipped_compute s
      | compute_create_info ci =>
          let s :=
            if robustness s then
              let s := s <| num_failed_module_hashes := 1 |> in
              let '(h, s) :=
                lookup_shader_module_hash
                  (module (VkComputePipelineCreateInfo.stage ci)) s in
              store_failed_module_hash 0 h s
            else s in
          if invalid_derivative ci then
            s <| output_mem ::= store (output work_item) VK_NULL_HANDLE |>
          else
            for_loop (loop_count s) (compute_pipeline_iteration device work_item) s
      | _ => s
      end
  | _ => s
  end.

(** One turn of the [for (;;)] of [worker_thread] with work available: pop
    the front item, process it, count it as completed. [None] when the queue is
    empty (the thread waits). *)
Definition worker_step (device : VulkanDevice) (s : ThreadedReplayer)
    : option ThreadedReplayer :=
  match pipeline_work_queue s with
  | [] => None
  | work_item :: rest =>
      let s := s <| pipeline_work_queue := rest |> in
      let s := process_work_item device work_item s in
      Some (s <| completed_count ::= incr |>)
  end.

(** The worker runs for at most [n] turns. *)
Fixpoint worker_run (device : VulkanDevice) (n : nat) (s : ThreadedReplayer)
    : ThreadedReplayer :=
  match n with
  | O => s
  | S n' =>
      match worker_step device s with
      | Some s' => worker_run device n' s'
      | None => s
      end
  end.

(** [sync_worker_threads] returns when [queued_count == completed_count]:
    the worker has taken every item that was in the queue. *)
Definition sync_worker_threads (device : VulkanDevice) (s : ThreadedReplayer)
    : ThreadedReplayer :=
  worker_run device (length (pipeline_work_queue s)) s.

(** [tear_down_threads]: the worker leaves its loop and adds its counts to
    the totals. A second call finds the thread pool empty. *)
Definition tear_down_threads (s : ThreadedReplayer) : ThreadedReplayer :=
  if shutting_down s then s
  else
    let s := s <| shutting_down := true |> in
    let s := s <| graphics_pipeline_count ::= fetch_add (graphics_count s) |> in
    let s := s <| compute_pipeline_count ::= fetch_add (compute_count s) |> in
    s <| shader_module_count ::= fetch_add (shader_count s) |>.

(** ** The deferred resolver

    [resolve_derived_pipelines] is a template over the deferred-info type. Its
    three reference parameters are members of the replayer, and the calls it
    makes ([enqueue_pipeline], [sync_worker_threads]) work on the same
    replayer; the parameters are therefore the fields themselves. *)

Section resolve_derived_pipelines.
Context {Info : Type} `{PipelineCreateInfo Info}.
Variable derived : ThreadedReplayer -> list (DeferredInfo.t Info).
Variable potential_parent : ThreadedReplayer -> gmap Z (DeferredInfo.t Info).
Variable pipelines : ThreadedReplayer -> gmap Z Z.
Context `{!Setter derived, !Setter potential_parent, !Setter pipelines}.
(** The overload of [enqueue_pipeline] for [Info]. *)
Variable enqueue_pipeline :
  Z -> Info -> Z -> bool -> ThreadedReplayer -> bool * ThreadedReplayer.

(** The body of the first loop: a potential parent that a derived pipeline
    names is enqueued and taken out of the map. *)
Definition inject_parent (d : DeferredInfo.t Info) (s : ThreadedReplayer)
    : ThreadedReplayer :=
  match potential_parent s !! basePipelineHandle (DeferredInfo.info d) with
  | Some parent =>
      let '(_, s) :=
        enqueue_pipeline (DeferredInfo.hash parent) (DeferredInfo.info parent)
          (DeferredInfo.pipeline parent)
          (DeferredInfo.contributes_to_index parent) s in
      s <| potential_parent ::= delete (basePipelineHandle (DeferredInfo.info d)) |>
  | None => s
  end.

Definition inject_parents (s : ThreadedReplayer) : ThreadedReplayer :=
  foldl (fun s d => inject_parent d s) s (derived s).

(** The predicate handed to [unstable_remove_if]:
    [pipelines.count(hash) != 0]. *)
Definition parent_is_enqueued (s : ThreadedReplayer) (d : DeferredInfo.t Info)
    : bool :=
  bool_decide (is_Some (pipelines s !! basePipelineHandle (DeferredInfo.info d))).

(** [for (auto i = itr; i != end(derived); ++i)], for [n] elements from
    position [i]: the parent handle is read from the map and written into the
    create info, then the pipeline is enqueued. *)
Fixpoint enqueue_resolved (n i : nat) (s : ThreadedReplayer)
    : bool * ThreadedReplayer :=
  match n with
  | O => (true, s)
  | S n' =>
      match derived s !! i with
      | None => (true, s)
      | Some d =>
          let parent := basePipelineHandle (DeferredInfo.info d) in
          let s := s <| pipelines ::= touch parent |> in
          let handle := default VK_NULL_HANDLE (pipelines s !! parent) in
          let d := DeferredInfo.mk
                     (with_basePipelineHandle handle (DeferredInfo.info d))
                     (DeferredInfo.hash d) (DeferredInfo.pipeline d)
                     (DeferredInfo.contributes_to_index d) in
          let s := s <| derived ::= <[i := d]> |> in
          let '(ok, s) :=
            enqueue_pipeline (DeferredInfo.hash d) (DeferredInfo.info d)
              (DeferredInfo.pipeline d) (DeferredInfo.contributes_to_index d) s in
          if ok then enqueue_resolved n' (S i) s else (false, s)
      end
  end.

(** What one turn of [while (!derived.empty())] does. *)
Inductive Turn :=
| turn_done (s : ThreadedReplayer)
| turn_return_false (s : ThreadedReplayer)
| turn_again (s : ThreadedReplayer).

Definition resolve_turn (device : VulkanDevice) (s : ThreadedReplayer) : Turn :=
  match derived s with
  | [] => turn_done s
  | _ :: _ =>
      let '(itr, v) :=
        unstable_remove_if 0 (length (derived s)) (parent_is_enqueued s) (derived s) in
      let s := s <| derived := v |> in
      if bool_decide (itr = length (derived s)) then turn_return_false s
      else
        let s := sync_worker_threads device s in
        let '(ok, s) := enqueue_resolved (length (derived s) - itr) itr s in
        if ok then turn_again (s <| derived ::= take itr |>)
        else turn_return_false s
  end.

(** The while loop, for at most [fuel] turns; [None] when they do not
    suffice. *)
Fixpoint resolve_loop (device : VulkanDevice) (fuel : nat) (s : ThreadedReplayer)
    : option (bool * ThreadedReplayer) :=
  match fuel with
  | O => None
  | S fuel' =>
      match resolve_turn device s with
      | turn_done s' => Some (true, s')
      | turn_return_false s' => Some (false, s')
      | turn_again s' => resolve_loop device fuel' s'
      end
  end.

Definition resolve_derived_pipelines (device : VulkanDevice) (fuel : nat)
    (s : ThreadedReplayer) : option (bool * ThreadedReplayer) :=
  resolve_loop device fuel (inject_parents s).

(** *** What the loop is expected to do *)

(** A deferred pipeline can be resolved in [s] when the hash of its parent is
    a key of the handle map. *)
Definition resolvable (s : ThreadedReplayer) (d : DeferredInfo.t Info) : Prop :=
  basePipelineHandle (DeferredInfo.info d) ∈ dom (pipelines s).

(** One turn of the loop started in [s]: it ends the loop with success only
    on an empty deferred list; it returns false only on a non-empty list none
    of whose pipelines can be resolved, and leaves the list (up to order) and
    the handle map as they are; otherwise it goes on with a strictly shorter
    list, from which it has removed pipelines that could be resolved, at least
    one, and no others. *)
Definition turn_makes_progress (device : VulkanDevice) (s : ThreadedReplayer)
    : Prop :=
  match resolve_turn device s with
  | turn_done s' => derived s = [] /\ s' = s
  | turn_return_false s' =>
      derived s <> [] /\
      Forall (fun d => ~ resolvable s d) (derived s) /\
      derived s' ≡ₚ derived s /\
      pipelines s' = pipelines s
  | turn_again s' =>
      (length (derived s') < length (derived s))%nat /\
      Forall (fun d => ~ resolvable s d) (derived s') /\
      exists removed,
        removed <> [] /\
        Forall (resolvable s) removed /\
        derived s' ++ removed ≡ₚ derived s
  end.

(** The result of the loop: true with every deferred pipeline enqueued,
    false with deferred pipelines left of which none can be resolved. *)
Definition resolved_or_stuck (r : bool * ThreadedReplayer) : Prop :=
  if r.1 then derived r.2 = []
  else derived r.2 <> [] /\ Forall (fun d => ~ resolvable r.2 d) (derived r.2).

End resolve_derived_pipelines.

(** The number of turns granted to the two instances below: one more than
    there are deferred pipelines. *)
Definition resolve_fuel {Info} (derived : list (DeferredInfo.t Info)) : nat :=
  S (length derived).

Definition resolve_derived_compute_pipelines (device : VulkanDevice)
    (s : ThreadedReplayer) : bool * ThreadedReplayer :=
  default (false, s)
    (resolve_derived_pipelines derived_compute potential_compute_parent
       compute_pipelines enqueue_compute_pipeline device
       (resolve_fuel (derived_compute s)) s).

Definition resolve_derived_graphics_pipelines (device : VulkanDevice)
    (s : ThreadedReplayer) : bool * ThreadedReplayer :=
  default (false, s)
    (resolve_derived_pipelines derived_graphics potential_graphics_parent
       graphics_pipelines enqueue_graphics_pipeline device
       (resolve_fuel (derived_graphics s)) s).

(** ** The orchestrator *)

Definition EXIT_SUCCESS : Z := 0.
Definition EXIT_FAILURE : Z := 1.

(** [set_application_info]: the first call creates the device; when that
    fails the process exits. The pipeline cache it creates is the subject of
    [CacheHeader]. *)
Definition set_application_info (device : VulkanDevice) (s : ThreadedReplayer)
    : option ThreadedReplayer :=
  if device_was_init s then Some s
  else
    let s := s <| device_was_init := true |> in
    if init_device device then Some s else None.

(** Modelled from the spec: the state replayer ([StateReplayer::parse],
    fossilize.cpp) turns a blob of the archive into calls of the sink
    ([StateCreatorInterface]), which is the replayer. A call carries the
    arguments the sink receives. *)
Inductive SinkCall :=
| call_set_application_info
| call_enqueue_create_sampler (index sampler : Z)
| call_enqueue_create_descriptor_set_layout (index layout : Z)
| call_enqueue_create_pipeline_layout (index layout : Z)
| call_enqueue_create_render_pass (index render_pass : Z)
| call_enqueue_create_shader_module (hash_ : Z)
    (create_info_ : VkShaderModuleCreateInfo) (module_ : Z)
| call_enqueue_create_graphics_pipeline (hash_ : Z)
    (create_info_ : VkGraphicsPipelineCreateInfo.t) (pipeline_ : Z)
| call_enqueue_create_compute_pipeline (hash_ : Z)
    (create_info_ : VkComputePipelineCreateInfo.t) (pipeline_ : Z)
| call_sync_threads.

(** A process that is still running, or has exited with a code. *)
Inductive Process :=
| Running (s : ThreadedReplayer)
| Exited (code : Z) (s : ThreadedReplayer).

Definition sink_call (device : VulkanDevice) (c : SinkCall) (s : ThreadedReplayer)
    : Process :=
  match c with
  | call_set_application_info =>
      match set_application_info device s with
      | Some s' => Running s'
      | None => Exited EXIT_FAILURE (s <| device_was_init := true |>)
      end
  | call_enqueue_create_sampler index sampler =>
      Running (enqueue_create_sampler device index sampler s).2
  | call_enqueue_create_descriptor_set_layout index layout =>
      Running (enqueue_create_descriptor_set_layout device index layout s).2
  | call_enqueue_create_pipeline_layout index layout =>
      Running (enqueue_create_pipeline_layout device index layout s).2
  | call_enqueue_create_render_pass index render_pass =>
      Running (enqueue_create_render_pass device index render_pass s).2
  | call_enqueue_create_shader_module h ci m =>
      Running (enqueue_create_shader_module h ci m s).2
  | call_enqueue_create_graphics_pipeline h ci p =>
      Running (enqueue_create_graphics_pipeline h ci p s).2
  | call_enqueue_create_compute_pipeline h ci p =>
      Running (enqueue_create_compute_pipeline h ci p s).2
  | call_sync_threads => Running (sync_worker_threads device s)
  end.

(** [state_replayer.parse(replayer, ...)] on a blob that makes the calls
    [calls]; an exception it throws afterwards is caught and logged. *)
Fixpoint parse (device : VulkanDevice) (calls : list SinkCall)
    (s : ThreadedReplayer) : Process :=
  match calls with
  | [] => Running s
  | c :: calls' =>
      match sink_call device c s with
      | Running s' => parse device calls' s'
      | Exited code s' => Exited code s'
      end
  end.

(** Modelled from the spec: the archive ([DatabaseInterface]).
    [prepare] may fail; for a tag, the list of hashes may fail to be read
    ([None]); an entry may fail to be read, or is a blob that the state
    replayer turns into calls. *)
Inductive Entry :=
| entry_unreadable
| entry_blob (calls : list SinkCall).

Record Database := {
  prepare : bool;
  entries_for_resource_tag : ResourceTag -> option (list Entry)
}.

Definition playback_order : list ResourceTag :=
  [ RESOURCE_APPLICATION_INFO;
    RESOURCE_SHADER_MODULE;
    RESOURCE_SAMPLER;
    RESOURCE_DESCRIPTOR_SET_LAYOUT;
    RESOURCE_PIPELINE_LAYOUT;
    RESOURCE_RENDER_PASS;
    RESOURCE_GRAPHICS_PIPELINE;
    RESOURCE_COMPUTE_PIPELINE ].

(** What the main thread does, in the order it does it. *)
Inductive Event :=
| ev_decode (tag_ : ResourceTag)
| ev_sync_worker_threads
| ev_resolve_derived_graphics_pipelines
| ev_resolve_derived_compute_pipelines
| ev_tear_down_threads.

(** [for (auto &hash : resource_hashes)]. *)
Fixpoint play_entries (device : VulkanDevice) (entries : list Entry)
    (s : ThreadedReplayer) : Process :=
  match entries with
  | [] => Running s
  | entry_unreadable :: _ => Exited EXIT_FAILURE s
  | entry_blob calls :: entries' =>
      match parse device calls s with
      | Running s' => play_entries device entries' s'
      | Exited code s' => Exited code s'
      end
  end.

(** The end of the body of [for (auto &tag : playback_order)]. *)
Definition after_tag (device : VulkanDevice) (tag_ : ResourceTag)
    (s : ThreadedReplayer) : ThreadedReplayer * list Event :=
  if bool_decide (tag_ = RESOURCE_RENDER_PASS) then
    (sync_worker_threads device s, [ev_sync_worker_threads])
  else if bool_decide (tag_ = RESOURCE_GRAPHICS_PIPELINE)
          && negb (bool_decide (derived_graphics s = [])) then
    ((resolve_derived_graphics_pipelines device s).2,
     [ev_resolve_derived_graphics_pipelines])
  else if bool_decide (tag_ = RESOURCE_COMPUTE_PIPELINE)
          && negb (bool_decide (derived_compute s = [])) then
    ((resolve_derived_compute_pipelines device s).2,
     [ev_resolve_derived_compute_pipelines])
  else (s, []).

Definition play_tag (device : VulkanDevice) (db : Database) (tag_ : ResourceTag)
    (s : ThreadedReplayer) : Process * list Event :=
  match entries_for_resource_tag db tag_ with
  | None => (Exited EXIT_FAILURE s, [])
  | Some entries =>
      match play_entries device entries s with
      | Running s' =>
          let '(s'', evs) := after_tag device tag_ s' in
          (Running s'', ev_decode tag_ :: evs)
      | Exited code s' => (Exited code s', [ev_decode tag_])
      end
  end.

Fixpoint play_tags (device : VulkanDevice) (db : Database)
    (tags : list ResourceTag) (s : ThreadedReplayer) : Process * list Event :=
  match tags with
  | [] => (Running s, [])
  | tag_ :: tags' =>
      match play_tag device db tag_ s with
      | (Running s', evs) =>
          let '(p, evs') := play_tags device db tags' s' in (p, evs ++ evs')
      | (Exited code s', evs) => (Exited code s', evs)
      end
  end.

(** [run_normal_process]: the exit code, the replayer at the end and the
    events of the main thread. *)
Definition run_normal_process (device : VulkanDevice) (db : Database)
    (replayer : ThreadedReplayer) : Z * ThreadedReplayer * list Event :=
  if prepare db then
    match play_tags device db playback_order replayer with
    | (Running s, evs) =>
        let s := sync_worker_threads device s in
        let s := tear_down_threads s in
        (EXIT_SUCCESS, s, evs ++ [ev_sync_worker_threads; ev_tear_down_threads])
    | (Exited code s, evs) => (code, s, evs)
    end
  else (EXIT_FAILURE, replayer, []).

(** The replayer of a process, whether it runs on or has exited. *)
Definition process_state (p : Process) : ThreadedReplayer :=
  match p with
  | Running s | Exited _ s => s
  end.

(** ** The schedule of the main thread *)

(** What follows the decoding of a tag; [resolve] tells whether there are
    deferred pipelines of the kind of the tag. *)
Definition tag_epilogue (tag_ : ResourceTag) (resolve : bool) : list Event :=
  match tag_ with
  | RESOURCE_RENDER_PASS => [ev_sync_worker_threads]
  | RESOURCE_GRAPHICS_PIPELINE =>
      if resolve then [ev_resolve_derived_graphics_pipelines] else []
  | RESOURCE_COMPUTE_PIPELINE =>
      if resolve then [ev_resolve_derived_compute_pipelines] else []
  | _ => []
  end.

(** The events of a run that gets to its end. *)
Definition schedule (resolve_graphics resolve_compute : bool) : list Event :=
  [ ev_decode RESOURCE_APPLICATION_INFO;
    ev_decode RESOURCE_SHADER_MODULE;
    ev_decode RESOURCE_SAMPLER;
    ev_decode RESOURCE_DESCRIPTOR_SET_LAYOUT;
    ev_decode RESOURCE_PIPELINE_LAYOUT;
    ev_decode RESOURCE_RENDER_PASS;
    ev_sync_worker_threads;
    ev_decode RESOURCE_GRAPHICS_PIPELINE ]
  ++ (if resolve_graphics then [ev_resolve_derived_graphics_pipelines] else [])
  ++ [ev_decode RESOURCE_COMPUTE_PIPELINE]
  ++ (if resolve_compute then [ev_resolve_derived_compute_pipelines] else [])
  ++ [ev_sync_worker_threads; ev_tear_down_threads].

(** The tags up to the barrier and the tags after it. *)
Definition tags_before_pipelines : list ResourceTag := take 6 playback_order.
Definition pipeline_tags : list ResourceTag := drop 6 playback_order.

(** The calls that the blobs of the pipeline tags make: pipelines are
    enqueued, and the state replayer may ask for a barrier. *)
Definition pipeline_call (c : SinkCall) : Prop :=
  match c with
  | call_enqueue_create_graphics_pipeline _ _ _
  | call_enqueue_create_compute_pipeline _ _ _
  | call_sync_threads => True
  | _ => False
  end.

Definition pipeline_entry (e : Entry) : Prop :=
  match e with
  | entry_unreadable => True
  | entry_blob calls => Forall pipeline_call calls
  end.

Definition pipeline_tags_enqueue_pipelines (db : Database) : Prop :=
  forall tag_ entries,
    tag_ ∈ pipeline_tags ->
    entries_for_resource_tag db tag_ = Some entries ->
    Forall pipeline_entry entries.

(** The shader modules are settled: the map is [modules] and no work item
    for a shader module is waiting. *)
Definition shader_modules_settled (modules : gmap Z Z) (s : ThreadedReplayer)
    : Prop :=
  shader_modules s = modules /\
  Forall (fun w => tag w <> RESOURCE_SHADER_MODULE) (pipeline_work_queue s).

(** ** Invariants *)

(** Both potential-parent maps only hold records that do not contribute to
    the index. *)
Definition stash_never_contributes (s : ThreadedReplayer) : Prop :=
  map_Forall (fun _ d => DeferredInfo.contributes_to_index d = false)
             (potential_graphics_parent s) /\
  map_Forall (fun _ d => DeferredInfo.contributes_to_index d = false)
             (potential_compute_parent s).

(** ** Two runs that differ in [loop_count]

    A run with [loop_count = k] is compared with a run with [loop_count = 1]
    on the same archive; the drivers of the two runs need not hand out the
    same handles. *)

(** Every create call succeeds, with a handle that is not null. *)
Definition all_creates_succeed (device : VulkanDevice) : Prop :=
  forall n, exists h, create_result device n = VK_SUCCESS h /\ h <> VK_NULL_HANDLE.

(** Two handles of the two runs: when the loop of the first run is entered at
    all, one is null exactly when the other is. *)
Definition same_nullness (k a b : Z) : Prop :=
  0 < k -> (a = VK_NULL_HANDLE <-> b = VK_NULL_HANDLE).

(** Two create infos that only differ in the parent handle. *)
Definition create_info_rel (k : Z) (a b : CreateInfoPtr) : Prop :=
  match a, b with
  | null_create_info, null_create_info => True
  | graphics_create_info ci, graphics_create_info ci' =>
      VkGraphicsPipelineCreateInfo.flags ci = VkGraphicsPipelineCreateInfo.flags ci' /\
      VkGraphicsPipelineCreateInfo.pStages ci = VkGraphicsPipelineCreateInfo.pStages ci' /\
      same_nullness k (VkGraphicsPipelineCreateInfo.basePipelineHandle ci)
                      (VkGraphicsPipelineCreateInfo.basePipelineHandle ci')
  | compute_create_info ci, compute_create_info ci' =>
      VkComputePipelineCreateInfo.flags ci = VkComputePipelineCreateInfo.flags ci' /\
      VkComputePipelineCreateInfo.stage ci = VkComputePipelineCreateInfo.stage ci' /\
      same_nullness k (VkComputePipelineCreateInfo.basePipelineHandle ci)
                      (VkComputePipelineCreateInfo.basePipelineHandle ci')
  | shader_module_create_info ci, shader_module_create_info ci' => ci = ci'
  | _, _ => False
  end.

Definition work_item_rel (k : Z) (w w' : PipelineWorkItem) : Prop :=
  hash w = hash w' /\
  tag w = tag w' /\
  contributes_to_index w = contributes_to_index w' /\
  output w = output w' /\
  hash_map_entry w = hash_map_entry w' /\
  create_info_rel k (create_info w) (create_info w').

(** The map entry of a work item points to a node of the map of its kind. *)
Definition entry_in_map (s : ThreadedReplayer) (w : PipelineWorkItem) : Prop :=
  match hash_map_entry w with
  | None => True
  | Some key =>
      match tag w with
      | RESOURCE_SHADER_MODULE => key ∈ dom (shader_modules s)
      | RESOURCE_GRAPHICS_PIPELINE => key ∈ dom (graphics_pipelines s)
      | RESOURCE_COMPUTE_PIPELINE => key ∈ dom (compute_pipelines s)
      | _ => True
      end
  end.

(** A 32-bit counter of the first run holds [k] times the counter of the
    second, up to the wrap-around. *)
Definition scaled (k ck c1 : Z) : Prop := ck = u32 (k * c1) /\ 0 <= c1.

(** The two handle maps hold handles of the same nullness. *)
Definition maps_same_nullness (k : Z) (mk m1 : gmap Z Z) : Prop :=
  forall key, same_nullness k (default VK_NULL_HANDLE (mk !! key))
                              (default VK_NULL_HANDLE (m1 !! key)).

(** Whether the worker enters the create loop for a work item. *)
Definition shader_loop_runs (w : PipelineWorkItem) : bool :=
  bool_decide (tag w = RESOURCE_SHADER_MODULE).

Definition graphics_loop_runs (w : PipelineWorkItem) : bool :=
  match tag w, create_info w with
  | RESOURCE_GRAPHICS_PIPELINE, graphics_create_info ci => negb (invalid_derivative ci)
  | _, _ => false
  end.

Definition compute_loop_runs (w : PipelineWorkItem) : bool :=
  match tag w, create_info w with
  | RESOURCE_COMPUTE_PIPELINE, compute_create_info ci => negb (invalid_derivative ci)
  | _, _ => false
  end.

(** What a create loop of [n] iterations, all successful, leaves in the map
    [m] of its kind for the work item [w]: [m'] is [m] when the loop is not
    run or has no iteration; otherwise the entry of the item holds the handle
    of the last iteration, which is null only for a null output pointer. *)
Definition loop_stores (w : PipelineWorkItem) (runs : bool) (n : nat)
    (m m' : gmap Z Z) : Prop :=
  if runs && negb (bool_decide (n = 0%nat)) then
    exists v, m' = store (hash_map_entry w) v m
              /\ (v = VK_NULL_HANDLE <-> output w = None)
  else m' = m.

(** The options of the two runs select the same slices of the pipelines. *)
Definition same_slices (a b : Options.t) : Prop :=
  Options.start_graphics_index a = Options.start_graphics_index b /\
  Options.end_graphics_index a = Options.end_graphics_index b /\
  Options.start_compute_index a = Options.start_compute_index b /\
  Options.end_compute_index a = Options.end_compute_index b.

(** The replayer [sk] of the run with [loop_count = k] and the replayer [s1]
    of the run with [loop_count = 1], at the same point of the two runs, the
    deferred lists apart. *)
Record sim_core (k : Z) (sk s1 : ThreadedReplayer) : Prop := {
  sim_opts : same_slices (opts sk) (opts s1);
  sim_loop_count_k : loop_count sk = k;
  sim_loop_count_1 : loop_count s1 = 1;
  sim_graphics_pipeline_index :
    graphics_pipeline_index sk = graphics_pipeline_index s1;
  sim_compute_pipeline_index :
    compute_pipeline_index sk = compute_pipeline_index s1;
  sim_masked : masked_shader_modules sk = masked_shader_modules s1;
  sim_device_was_init : device_was_init sk = device_was_init s1;
  sim_shutting_down : shutting_down sk = shutting_down s1;
  sim_potential_graphics_parent :
    potential_graphics_parent sk = potential_graphics_parent s1;
  sim_potential_compute_parent :
    potential_compute_parent sk = potential_compute_parent s1;
  sim_queue :
    Forall2 (work_item_rel k) (pipeline_work_queue sk) (pipeline_work_queue s1);
  sim_graphics_pipeline_count :
    scaled k (graphics_pipeline_count sk) (graphics_pipeline_count s1);
  sim_compute_pipeline_count :
    scaled k (compute_pipeline_count sk) (compute_pipeline_count s1);
  sim_shader_module_count :
    scaled k (shader_module_count sk) (shader_module_count s1);
  sim_shader_modules : dom (shader_modules sk) = dom (shader_modules s1);
  sim_graphics_pipelines : dom (graphics_pipelines sk) = dom (graphics_pipelines s1);
  sim_compute_pipelines : dom (compute_pipelines sk) = dom (compute_pipelines s1);
  sim_graphics_handles :
    maps_same_nullness k (graphics_pipelines sk) (graphics_pipelines s1);
  sim_compute_handles :
    maps_same_nullness k (compute_pipelines sk) (compute_pipelines s1);
  sim_entries : Forall (entry_in_map s1) (pipeline_work_queue s1);
  sim_graphics_count : scaled k (graphics_count sk) (graphics_count s1);
  sim_compute_count : scaled k (compute_count sk) (compute_count s1);
  sim_shader_count : scaled k (shader_count sk) (shader_count s1)
}.

Definition sim (k : Z) (sk s1 : ThreadedReplayer) : Prop :=
  sim_core k sk s1 /\
  derived_graphics sk = derived_graphics s1 /\
  derived_compute sk = derived_compute s1.

(** Two processes at the same point: both running, or both exited with the
    same code. *)
Definition process_sim (k : Z) (pk p1 : Process) : Prop :=
  match pk, p1 with
  | Running sk, Running s1 => sim k sk s1
  | Exited ck sk, Exited c1 s1 => ck = c1 /\ sim k sk s1
  | _, _ => False
  end.

(** ** Concrete inputs

    Small inputs on which the statements below are exercised. *)
Module Sample.

(** A driver whose [n]-th create call succeeds with the handle [1000 + n]. *)
Definition device : VulkanDevice :=
  {| init_device := true;
     create_result := fun n => VK_SUCCESS (1000 + Z.of_N n) |}.

Definition control_block : SharedControlBlock :=
  {| successful_graphics := 0; skipped_graphics := 0;
     successful_compute := 0; skipped_compute := 0 |}.

(** One worker, the graphics slice [[1, 2)], [loop_count] as given. *)
Definition options (loop_count_ : Z) : Options.t :=
  {| Options.pipeline_cache := false;
     Options.on_disk_pipeline_cache_path := EmptyString;
     Options.num_threads := 1;
     Options.loop_count := loop_count_;
     Options.start_graphics_index := 1;
     Options.end_graphics_index := 2;
     Options.start_compute_index := 0;
     Options.end_compute_index := 2 ^ 32 - 1 |}.

Definition replayer (loop_count_ : Z) : ThreadedReplayer :=
  new_ThreadedReplayer (options loop_count_) (Some control_block) ∅.

Definition shader_info : VkShaderModuleCreateInfo := {| codeSize := 0; pCode := [] |}.

Definition stage (module_ : Z) : VkPipelineShaderStageCreateInfo :=
  {| module := module_ |}.

(** A parent pipeline that allows derivatives, and a derivative of the
    pipeline with hash [111]. *)
Definition parent_info : VkGraphicsPipelineCreateInfo.t :=
  VkGraphicsPipelineCreateInfo.mk VK_PIPELINE_CREATE_ALLOW_DERIVATIVES_BIT
    [stage 1000] VK_NULL_HANDLE.

Definition child_info : VkGraphicsPipelineCreateInfo.t :=
  VkGraphicsPipelineCreateInfo.mk VK_PIPELINE_CREATE_DERIVATIVE_BIT
    [stage 1000] 111.

(** A pipeline one of whose two stages has no module. *)
Definition broken_info : VkGraphicsPipelineCreateInfo.t :=
  VkGraphicsPipelineCreateInfo.mk 0 [stage 1000; stage VK_NULL_HANDLE]
    VK_NULL_HANDLE.

(** A pipeline with seven stages. *)
Definition wide_info : VkGraphicsPipelineCreateInfo.t :=
  VkGraphicsPipelineCreateInfo.mk 0
    [stage 1000; stage 1001; stage 1002; stage 1003; stage 1004; stage 1005;
     stage 1006] VK_NULL_HANDLE.

Definition compute_info : VkComputePipelineCreateInfo.t :=
  VkComputePipelineCreateInfo.mk 0 (stage 1000) VK_NULL_HANDLE.

(** An archive with one shader module, the parent (index 0, outside the
    slice) and its derivative, and one compute pipeline. *)
Definition archive : Database :=
  {| prepare := true;
     entries_for_resource_tag := fun tag_ =>
       match tag_ with
       | RESOURCE_APPLICATION_INFO => Some [entry_blob [call_set_application_info]]
       | RESOURCE_SHADER_MODULE =>
           Some [entry_blob [call_enqueue_create_shader_module 77 shader_info 500]]
       | RESOURCE_GRAPHICS_PIPELINE =>
           Some [entry_blob [call_enqueue_create_graphics_pipeline 111 parent_info 501];
                 entry_blob [call_enqueue_create_graphics_pipeline 222 child_info 502]]
       | RESOURCE_COMPUTE_PIPELINE =>
           Some [entry_blob [call_enqueue_create_compute_pipeline 333 compute_info 503]]
       | _ => Some []
       end |}.

(** An archive with two shader modules and nothing else. *)
Definition two_modules : Database :=
  {| prepare := true;
     entries_for_resource_tag := fun tag_ =>
       match tag_ with
       | RESOURCE_APPLICATION_INFO => Some [entry_blob [call_set_application_info]]
       | RESOURCE_SHADER_MODULE =>
           Some [entry_blob [call_enqueue_create_shader_module 77 shader_info 500];
                 entry_blob [call_enqueue_create_shader_module 78 shader_info 501]]
       | _ => Some []
       end |}.

End Sample.


(** * Further properties: definitions *)

(** ** The accounting of the work queue

    [queued_count] counts the pushes and [completed_count] the items a worker
    is done with, both modulo [2 ^ 32]: the items in between are in the
    queue. *)
Definition queue_accounted (s : ThreadedReplayer) : Prop :=
  0 <= completed_count s < 2 ^ 32 /\
  queued_count s
  = u32 (completed_count s + Z.of_nat (length (pipeline_work_queue s))).

(** ** The create loops of the worker, whatever the driver answers *)

(** The handle that an iteration of a create loop leaves in the map entry of
    the work item: the entry is nulled before the call and set to the new
    handle only when the call succeeds. *)
Definition created_handle (r : VkResult) : Z :=
  match r with
  | VK_SUCCESS h => h
  | VK_FAILURE _ => VK_NULL_HANDLE
  end.

(** The answers of the driver to the [n] create calls from call number
    [first] on. *)
Fixpoint create_results (device : VulkanDevice) (first : N) (n : nat)
    : list VkResult :=
  match n with
  | O => []
  | S n' => create_result device first :: create_results device (N.succ first) n'
  end.

(** How many of them are [VK_SUCCESS]. *)
Definition successes (rs : list VkResult) : nat :=
  length (filter (fun r => is_success r = true) rs).

(** What the calls leave in the output, which starts as [v]: a failed call
    may leave the output alone. *)
Definition written_output (rs : list VkResult) (v : option Z) : option Z :=
  foldl (fun v r =>
           match r with
           | VK_SUCCESS h | VK_FAILURE (Some h) => Some h
           | VK_FAILURE None => v
           end) v rs.

(** A driver whose create calls succeed when their number is even and fail,
    leaving the output alone, when it is odd; and the work item that
    [enqueue_create_shader_module 77 _ 500] pushes. *)
Module Flaky.

Definition device : VulkanDevice :=
  {| init_device := true;
     create_result := fun n =>
       if N.even n then VK_SUCCESS (1000 + Z.of_N n) else VK_FAILURE None |}.

Definition shader_item : PipelineWorkItem :=
  {| hash := 77;
     tag := RESOURCE_SHADER_MODULE;
     contributes_to_index := true;
     create_info := shader_module_create_info Sample.shader_info;
     output := Some 500;
     hash_map_entry := Some 77 |}.

Definition graphics_item : PipelineWorkItem :=
  {| hash := 111;
     tag := RESOURCE_GRAPHICS_PIPELINE;
     contributes_to_index := true;
     create_info := graphics_create_info Sample.parent_info;
     output := Some 501;
     hash_map_entry := Some 111 |}.

Definition compute_item : PipelineWorkItem :=
  {| hash := 333;
     tag := RESOURCE_COMPUTE_PIPELINE;
     contributes_to_index := true;
     create_info := compute_create_info Sample.compute_info;
     output := Some 503;
     hash_map_entry := Some 333 |}.

End Flaky.

(** ** Derivatives without a parent handle *)

(** The work items that the worker refuses to compile: the create info is
    marked as a derivative and its parent handle is null. *)
Definition invalid_derivative_item (w : PipelineWorkItem) : bool :=
  match tag w, create_info w with
  | RESOURCE_GRAPHICS_PIPELINE, graphics_create_info ci => invalid_derivative ci
  | RESOURCE_COMPUTE_PIPELINE, compute_create_info ci => invalid_derivative ci
  | _, _ => false
  end.

Module Orphan.

(** A derivative whose parent handle is null, as the resolver enqueues it
    when the parent could not be compiled. *)
Definition info : VkGraphicsPipelineCreateInfo.t :=
  VkGraphicsPipelineCreateInfo.mk VK_PIPELINE_CREATE_DERIVATIVE_BIT
    [Sample.stage 1000] VK_NULL_HANDLE.

Definition item : PipelineWorkItem :=
  {| hash := 222;
     tag := RESOURCE_GRAPHICS_PIPELINE;
     contributes_to_index := true;
     create_info := graphics_create_info info;
     output := Some 502;
     hash_map_entry := Some 222 |}.

End Orphan.

(** ** The pipeline index of the main thread and of the worker

    The main thread numbers the pipelines with [graphics_pipeline_index] and
    [compute_pipeline_index] and enqueues those whose number is in the slice;
    a worker counts the items that contribute to the index from
    [opts.start_*_index] on. *)

(** [start] plus the number of indices below [index] that are in
    [[start, end_)]. *)
Definition slice_position (start end_ index : Z) : Z :=
  start + Z.max 0 (Z.min index end_ - start).

(** The queued items of a tag that contribute to the index. *)
Definition contributing (tag_ : ResourceTag) (q : list PipelineWorkItem) : nat :=
  length (filter (fun w => tag w = tag_ /\ contributes_to_index w = true) q).

Definition graphics_index_coherent (s : ThreadedReplayer) : Prop :=
  0 <= graphics_pipeline_index s < 2 ^ 32 /\
  0 <= thread_current_graphics_index s < 2 ^ 32 /\
  u32 (thread_current_graphics_index s
       + Z.of_nat (contributing RESOURCE_GRAPHICS_PIPELINE (pipeline_work_queue s)))
  = u32 (slice_position (Options.start_graphics_index (opts s))
           (Options.end_graphics_index (opts s)) (graphics_pipeline_index s)).

Definition compute_index_coherent (s : ThreadedReplayer) : Prop :=
  0 <= compute_pipeline_index s < 2 ^ 32 /\
  0 <= thread_current_compute_index s < 2 ^ 32 /\
  u32 (thread_current_compute_index s
       + Z.of_nat (contributing RESOURCE_COMPUTE_PIPELINE (pipeline_work_queue s)))
  = u32 (slice_position (Options.start_compute_index (opts s))
           (Options.end_compute_index (opts s)) (compute_pipeline_index s)).

Definition indices_coherent (s : ThreadedReplayer) : Prop :=
  graphics_index_coherent s /\ compute_index_coherent s.

(** ** The parents of the deferred pipelines *)

(** The hashes that the deferred pipelines [ds] name as their parents: before
    it is resolved, [basePipelineHandle] of a derivative holds the hash of the
    parent. *)
Definition parent_hashes {Info : Type} `{PipelineCreateInfo Info}
    (ds : list (DeferredInfo.t Info)) : gset Z :=
  list_to_set ((fun d => basePipelineHandle (DeferredInfo.info d)) <$> ds).

(** The replayer after the three calls of the sink for the parent [111], out
    of the slice, and two derivatives of it. *)
Module Family.

Definition second_child_info : VkGraphicsPipelineCreateInfo.t :=
  VkGraphicsPipelineCreateInfo.mk VK_PIPELINE_CREATE_DERIVATIVE_BIT
    [Sample.stage 1000] 111.

Definition calls : list SinkCall :=
  [call_enqueue_create_graphics_pipeline 111 Sample.parent_info 501;
   call_enqueue_create_graphics_pipeline 222 Sample.child_info 502;
   call_enqueue_create_graphics_pipeline 223 second_child_info 503].

Definition replayer : ThreadedReplayer :=
  process_state (parse Sample.device calls (Sample.replayer 1)).

End Family.

(** ** The work items of the resolved pipelines *)

(** The work item [w] is the one the resolver enqueues for the deferred
    pipeline [d] when the parent with hash [k] has the handle [handle_of k]:
    its create info is null (a module is missing) or the create info of [d]
    with the handle of the parent in place of its hash. [inj] is the member
    of the union [create_info] for the kind of pipeline. *)
Definition resolved_item {Info : Type} `{PipelineCreateInfo Info}
    (inj : Info -> CreateInfoPtr) (handle_of : Z -> Z)
    (d : DeferredInfo.t Info) (w : PipelineWorkItem) : Prop :=
  hash w = DeferredInfo.hash d /\
  output w = Some (DeferredInfo.pipeline d) /\
  contributes_to_index w = DeferredInfo.contributes_to_index d /\
  (create_info w = null_create_info \/
   create_info w
   = inj (with_basePipelineHandle
            (handle_of (basePipelineHandle (DeferredInfo.info d)))
            (DeferredInfo.info d))).

(** The handle that a handle map holds for a hash, null when it has no entry
    for it. *)
Definition handle_in (m : gmap Z Z) (k : Z) : Z := default VK_NULL_HANDLE (m !! k).

(** ** The pipeline cache

    [set_application_info] creates the pipeline cache and
    [flush_pipeline_cache] writes it to disk and destroys it. The members they
    work on are apart from the rest of the replayer. *)
Module PipelineCache.

(** The driver and the C library as the two functions see them. *)
Record Environment := {
  (** the [n]-th call of [vkCreatePipelineCache]: the handle, or failure *)
  vkCreatePipelineCache : nat -> CacheHeader.VkPipelineCacheCreateInfo -> option Z;
  (** [vkGetPipelineCacheData] with a null data pointer: the size *)
  cache_data_size : Z -> option nat;
  (** [vkGetPipelineCacheData] with a buffer of the given size: the bytes it
      writes at the start of the buffer *)
  cache_data : Z -> nat -> option (list byte);
  (** whether [fopen(path, "wb")] succeeds *)
  fopen_wb : string -> bool;
  (** the number of bytes that [fwrite] writes when asked for [n] *)
  fwrite_count : nat -> nat
}.

Record t := {
  (** [device] is not null *)
  has_device : bool;
  pipeline_cache : Z;
  (** the files on disk *)
  files : gmap string (list byte);
  (** the number of calls of [vkCreatePipelineCache] so far *)
  create_calls : nat;
  (** the handles passed to [vkDestroyPipelineCache], in order *)
  destroyed : list Z
}.

(** The replayer before [set_application_info]. *)
Definition initial (files_ : gmap string (list byte)) : t :=
  {| has_device := false; pipeline_cache := VK_NULL_HANDLE; files := files_;
     create_calls := 0; destroyed := [] |}.

(** The files as [fopen(path, "rb")] and [fread] see them. *)
Definition file_system (s : t) : CacheHeader.FileSystem :=
  {| CacheHeader.fopen_rb := fun path => files s !! path;
     CacheHeader.fread_complete := true |}.

(** The part of [set_application_info] that follows the creation of the
    device: [info] is what [CacheHeader.pipeline_cache_create_info] yields,
    [None] when [opts.pipeline_cache] is off. *)
Definition create_pipeline_cache (env : Environment)
    (info : option CacheHeader.VkPipelineCacheCreateInfo) (s : t) : t :=
  let s := {| has_device := true; pipeline_cache := pipeline_cache s;
              files := files s; create_calls := create_calls s;
              destroyed := destroyed s |} in
  match info with
  | None => s
  | Some info =>
      match vkCreatePipelineCache env (create_calls s) info with
      | Some h =>
          {| has_device := true; pipeline_cache := h; files := files s;
             create_calls := S (create_calls s); destroyed := destroyed s |}
      | None =>
          (* info.initialDataSize = 0; info.pInitialData = nullptr *)
          match vkCreatePipelineCache env (S (create_calls s))
                  CacheHeader.blank_cache_info with
          | Some h =>
              {| has_device := true; pipeline_cache := h; files := files s;
                 create_calls := S (S (create_calls s));
                 destroyed := destroyed s |}
          | None =>
              {| has_device := true; pipeline_cache := VK_NULL_HANDLE;
                 files := files s; create_calls := S (S (create_calls s));
                 destroyed := destroyed s |}
          end
      end
  end.

Definition set_application_info_cache (env : Environment) (opts : Options.t)
    (props : CacheHeader.VkPhysicalDeviceProperties) (s : t) : t :=
  create_pipeline_cache env
    (CacheHeader.pipeline_cache_create_info opts (file_system s) props) s.

(** [vector<uint8_t> pipeline_buffer(size)] after the second
    [vkGetPipelineCacheData] has written [data] to it. *)
Definition pipeline_buffer (size : nat) (data : list byte) : list byte :=
  take size data ++ replicate (size - length data) Byte.x00.

(** The file that [fopen(path, "wb")], [fwrite] and [fclose] leave. *)
Definition write_file (env : Environment) (path : string) (buffer : list byte)
    (files_ : gmap string (list byte)) : gmap string (list byte) :=
  if fopen_wb env path then
    <[path := take (fwrite_count env (length buffer)) buffer]> files_
  else files_.

Definition flush_pipeline_cache (env : Environment) (opts : Options.t) (s : t) : t :=
  if has_device s && bool_decide (pipeline_cache s <> VK_NULL_HANDLE) then
    let files_ :=
      if decide (Options.on_disk_pipeline_cache_path opts <> EmptyString) then
        match cache_data_size env (pipeline_cache s) with
        | Some size =>
            match cache_data env (pipeline_cache s) size with
            | Some data =>
                write_file env (Options.on_disk_pipeline_cache_path opts)
                  (pipeline_buffer size data) (files s)
            | None => files s
            end
        | None => files s
        end
      else files s in
    {| has_device := has_device s;
       pipeline_cache := VK_NULL_HANDLE;
       files := files_;
       create_calls := create_calls s;
       destroyed := destroyed s ++ [pipeline_cache s] |}
  else s.

(** [emergency_teardown]: [flush_pipeline_cache(); device.reset()]. *)
Definition emergency_teardown (env : Environment) (opts : Options.t) (s : t) : t :=
  let s := flush_pipeline_cache env opts s in
  {| has_device := false; pipeline_cache := pipeline_cache s; files := files s;
     create_calls := create_calls s; destroyed := destroyed s |}.

(** An environment in which every call succeeds: the cache with handle [h]
    has the data [data_of h]. *)
Definition reliable (data_of : Z -> list byte) : Environment :=
  {| vkCreatePipelineCache := fun n _ => Some (7000 + Z.of_nat n);
     cache_data_size := fun h => Some (length (data_of h));
     cache_data := fun h _ => Some (data_of h);
     fopen_wb := fun _ => true;
     fwrite_count := fun n => n |}.

End PipelineCache.

(** A device, cache data with a header that is valid for it, and a replayer
    that holds the pipeline cache [7000] and is to store it in [cache.bin]. *)
Module CacheSample.

Definition props : CacheHeader.VkPhysicalDeviceProperties :=
  {| CacheHeader.vendorID := 1;
     CacheHeader.deviceID := 2;
     CacheHeader.pipelineCacheUUID := vreplicate VK_UUID_SIZE Byte.x07 |}.

Definition data : list byte :=
  [Byte.x20; Byte.x00; Byte.x00; Byte.x00;
   Byte.x01; Byte.x00; Byte.x00; Byte.x00;
   Byte.x01; Byte.x00; Byte.x00; Byte.x00;
   Byte.x02; Byte.x00; Byte.x00; Byte.x00]
  ++ replicate 16 Byte.x07 ++ [Byte.x2a].

Definition options : Options.t :=
  {| Options.pipeline_cache := true;
     Options.on_disk_pipeline_cache_path := "cache.bin";
     Options.num_threads := 1;
     Options.loop_count := 1;
     Options.start_graphics_index := 0;
     Options.end_graphics_index := 2 ^ 32 - 1;
     Options.start_compute_index := 0;
     Options.end_compute_index := 2 ^ 32 - 1 |}.

Definition environment : PipelineCache.Environment :=
  PipelineCache.reliable (fun _ => data).

Definition replayer : PipelineCache.t :=
  {| PipelineCache.has_device := true;
     PipelineCache.pipeline_cache := 7000;
     PipelineCache.files := ∅;
     PipelineCache.create_calls := 1;
     PipelineCache.destroyed := [] |}.

(** A driver that rejects initial data and creates blank caches. *)
Definition picky : PipelineCache.Environment :=
  {| PipelineCache.vkCreatePipelineCache := fun n info =>
       match CacheHeader.pInitialData info with
       | Some _ => None
       | None => Some (7000 + Z.of_nat n)
       end;
     PipelineCache.cache_data_size := fun _ => Some (length data);
     PipelineCache.cache_data := fun _ _ => Some data;
     PipelineCache.fopen_wb := fun _ => true;
     PipelineCache.fwrite_count := fun n => n |}.

End CacheSample.

(** ** The handles that are destroyed *)

(** The body of the loops of [~ThreadedReplayer] over a handle map:
    [if (x.second) vkDestroy...(x.second)]. The order in which an
    [unordered_map] is walked is not specified; the model walks the map in
    the order of [map_to_list]. *)
Definition live_handles (m : gmap Z Z) : list Z :=
  filter (fun h => h <> VK_NULL_HANDLE) ((map_to_list m).*2).

(** The destroy calls of [~ThreadedReplayer], in order. *)
Definition destructor_destroys (s : ThreadedReplayer) : list Z :=
  live_handles (samplers s) ++ live_handles (layouts s)
  ++ live_handles (pipeline_layouts s) ++ live_handles (shader_modules s)
  ++ live_handles (render_passes s) ++ live_handles (compute_pipelines s)
  ++ live_handles (graphics_pipelines s).

(** The destroy call at the start of an iteration of a create loop of the
    worker: the handle in the map entry of the work item is destroyed when it
    is not null. *)
Definition iteration_destroys (entry : option Z) (m : gmap Z Z) : list Z :=
  let h := load entry m in
  if decide (h <> VK_NULL_HANDLE) then [h] else [].

(** The destroy calls of a loop [for_range n i body] started in [s], when
    an iteration started in [t] makes the calls [destroys t]. *)
Fixpoint loop_destroys {S : Type} (n : nat) (i : Z) (body : Z -> S -> S)
    (destroys : S -> list Z) (s : S) : list Z :=
  match n with
  | O => []
  | Datatypes.S n' =>
      destroys s ++ loop_destroys n' (i + 1) body destroys (body i s)
  end.

(** The handles that the successful calls have created. *)
Definition created_handles (rs : list VkResult) : list Z :=
  filter (fun h => h <> VK_NULL_HANDLE) (created_handle <$> rs).

(** ** [main] after the command line has been parsed *)
Module Main.

(** The flags that the callbacks of the command line set besides the
    options of the replayer. *)
Record Flags := {
  master_process : bool;
  slave_process : bool;
  progress : bool
}.

(** The options as [main] hands them on (the robust replayer is compiled in):
    a slave process gets one thread, there is one thread at least, and a
    path for the on-disk cache turns the pipeline cache on. *)
Definition adjust_options (flags : Flags) (o : Options.t) : Options.t :=
  let num_threads1 := if slave_process flags then 1 else Options.num_threads o in
  let num_threads2 := if decide (num_threads1 < 1) then 1 else num_threads1 in
  let pipeline_cache_ :=
    if decide (Options.on_disk_pipeline_cache_path o <> EmptyString) then true
    else Options.pipeline_cache o in
  {| Options.pipeline_cache := pipeline_cache_;
     Options.on_disk_pipeline_cache_path := Options.on_disk_pipeline_cache_path o;
     Options.num_threads := num_threads2;
     Options.loop_count := Options.loop_count o;
     Options.start_graphics_index := Options.start_graphics_index o;
     Options.end_graphics_index := Options.end_graphics_index o;
     Options.start_compute_index := Options.start_compute_index o;
     Options.end_compute_index := Options.end_compute_index o |}.

(** Which of the four processes [main] runs. *)
Inductive Mode :=
| progress_process
| master_process_mode
| slave_process_mode
| normal_process.

Definition mode (flags : Flags) : Mode :=
  if progress flags then progress_process
  else if master_process flags then master_process_mode
  else if slave_process flags then slave_process_mode
  else normal_process.

(** [main] from [parser.parse()] on: the exit code it returns at once, or the
    process it runs and the options it runs it with. [parsed] is the result
    of [parser.parse()] and [ended] that of [parser.is_ended_state()]. *)
Definition main (parsed ended : bool) (db_path : string) (flags : Flags)
    (o : Options.t) : Z + Mode * Options.t :=
  if negb parsed then inl EXIT_FAILURE
  else if ended then inl EXIT_SUCCESS
  else if decide (db_path = EmptyString) then inl EXIT_FAILURE
  else inr (mode flags, adjust_options flags o).

End Main.

(** ** The progress process *)
Module Progress.

Inductive PollResult := Running | Complete | ResultNotReady | Error.

#[global] Instance PollResult_eq_dec : EqDecision PollResult.
Proof. solve_decision. Defined.

(** What one turn of the loop of [run_progress_process] observes: the
    seconds since the start, the result of [poll_progress] and that of
    [is_process_complete]. *)
Record Observation := {
  elapsed : Z;
  poll : PollResult;
  process_complete : bool
}.

Inductive Event :=
| ev_kill
| ev_log_progress
| ev_log_faulty_modules.

#[global] Instance Event_eq_dec : EqDecision Event.
Proof. solve_decision. Defined.

(** The number of calls of [replayer.kill()] among the events. *)
Definition kills (evs : list Event) : nat :=
  length (filter (fun e => e = ev_kill) evs).

(** One turn of the loop: the events, whether the process has been killed,
    and the value that is returned, if the loop ends. [wait_code] is the
    result of [replayer.wait()]. *)
Definition turn (timeout wait_code : Z) (has_killed : bool) (o : Observation)
    : list Event * bool * option Z :=
  let kill := negb has_killed && bool_decide (0 < timeout)
              && bool_decide (timeout <= elapsed o) in
  let evs := if kill then [ev_kill] else [] in
  let has_killed := has_killed || kill in
  if process_complete o then
    (evs
     ++ (if decide (poll o <> ResultNotReady) then [ev_log_progress] else [])
     ++ [ev_log_faulty_modules],
     has_killed, Some wait_code)
  else
    match poll o with
    | Error => (evs, has_killed, Some EXIT_FAILURE)
    | ResultNotReady => (evs, has_killed, None)
    | Running => (evs ++ [ev_log_progress], has_killed, None)
    | Complete =>
        (evs ++ [ev_log_progress; ev_log_faulty_modules], has_killed,
         Some wait_code)
    end.

(** The loop on the observations [obs]: [None] when it has not ended after
    the last of them. *)
Fixpoint loop (timeout wait_code : Z) (has_killed : bool)
    (obs : list Observation) : list Event * option Z :=
  match obs with
  | [] => ([], None)
  | o :: obs' =>
      match turn timeout wait_code has_killed o with
      | (evs, _, Some code) => (evs, Some code)
      | (evs, has_killed', None) =>
          let '(evs', r) := loop timeout wait_code has_killed' obs' in
          (evs ++ evs', r)
      end
  end.

(** [run_progress_process]: [started] is the result of [replayer.start]. *)
Definition run_progress_process (started : bool) (timeout wait_code : Z)
    (obs : list Observation) : list Event * option Z :=
  if started then loop timeout wait_code false obs
  else ([], Some EXIT_FAILURE).

(** The observations that end the loop, and the value it returns for
    them. *)
Definition final (o : Observation) : bool :=
  process_complete o
  || match poll o with
     | Error | Complete => true
     | _ => false
     end.

Definition final_code (wait_code : Z) (o : Observation) : Z :=
  if process_complete o then wait_code
  else match poll o with
       | Error => EXIT_FAILURE
       | _ => wait_code
       end.

End Progress.
(** * Proofs *)

(** ** Machine integers *)

Lemma byte_val_range b : 0 <= byte_val b < 256.
Proof.
unfold byte_val. pose proof (Byte.to_N_bounded b) as Hb.
split; [lia|]. apply N2Z.inj_le in Hb. simpl in Hb. lia.
Qed.

Lemma byte_val_inj a b : byte_val a = byte_val b -> a = b.
Proof.
unfold byte_val. intros H. apply N2Z.inj in H.
apply (f_equal Byte.of_N) in H. rewrite !Byte.of_to_N in H. congruence.
Qed.

Lemma u32_small x : 0 <= x < 2 ^ 32 -> u32 x = x.
Proof. intros. unfold u32. apply Z.mod_small. lia. Qed.


Lemma land_shiftl_low a b n :
  0 <= n -> 0 <= a < 2 ^ n -> Z.land a (Z.shiftl b n) = 0.
Proof.
intros Hn Ha. apply Z.bits_inj'. intros i Hi.
rewrite Z.land_spec, Z.bits_0.
destruct (Z.lt_ge_cases i n) as [Hin|Hin].
- rewrite Z.shiftl_spec_low by lia. apply andb_false_r.
- destruct (Z.eq_dec a 0) as [->|Hne].
  + now rewrite Z.bits_0.
  + rewrite Z.bits_above_log2; [reflexivity|lia|].
    apply Z.log2_lt_pow2; [lia|].
    eapply Z.lt_le_trans; [apply Ha|].
    apply Z.pow_le_mono_r; lia.
Qed.

Lemma lor_shiftl_add a b n :
  0 <= n -> 0 <= a < 2 ^ n -> Z.lor a (Z.shiftl b n) = a + b * 2 ^ n.
Proof.
intros Hn Ha. rewrite <- Z.add_nocarry_lor by (apply land_shiftl_low; lia).
now rewrite Z.shiftl_mul_pow2 by lia.
Qed.

(** ** Driver cache header *)

Section cache_header.
Import CacheHeader.

Lemma blob_at_lookup blob i b : blob !! i = Some b -> blob_at blob i = byte_val b.
Proof. unfold blob_at. now intros ->. Qed.

(** On four bytes, the shifts and ors of [read_le] compute the little-endian
    value. *)
Lemma read_le_bytes b0 b1 b2 b3 :
  Z.lor (Z.lor (Z.lor (byte_val b0) (u32 (Z.shiftl (byte_val b1) 8)))
               (u32 (Z.shiftl (byte_val b2) 16)))
        (u32 (Z.shiftl (byte_val b3) 24))
  = byte_val b0 + 2 ^ 8 * byte_val b1 + 2 ^ 16 * byte_val b2 + 2 ^ 24 * byte_val b3.
Proof.
pose proof (byte_val_range b0). pose proof (byte_val_range b1).
pose proof (byte_val_range b2). pose proof (byte_val_range b3).
rewrite !Z.shiftl_mul_pow2 by lia.
rewrite !u32_small by lia.
rewrite <- !Z.shiftl_mul_pow2 by lia.
rewrite (lor_shiftl_add (byte_val b0) (byte_val b1) 8) by lia.
rewrite (lor_shiftl_add (byte_val b0 + byte_val b1 * 2 ^ 8) (byte_val b2) 16) by lia.
rewrite (lor_shiftl_add _ (byte_val b3) 24) by lia. lia.
Qed.

Lemma read_le_spec blob offset :
  (offset + 4 <= length blob)%nat ->
  le_u32_at blob offset = Some (read_le blob offset).
Proof.
intros Hlen. unfold le_u32_at, read_le.
destruct (lookup_lt_is_Some_2 blob (offset + 0)) as [b0 H0]; [lia|].
destruct (lookup_lt_is_Some_2 blob (offset + 1)) as [b1 H1]; [lia|].
destruct (lookup_lt_is_Some_2 blob (offset + 2)) as [b2 H2]; [lia|].
destruct (lookup_lt_is_Some_2 blob (offset + 3)) as [b3 H3]; [lia|].
rewrite (blob_at_lookup _ _ _ H0), (blob_at_lookup _ _ _ H1),
  (blob_at_lookup _ _ _ H2), (blob_at_lookup _ _ _ H3).
rewrite <- lookup_drop in H0, H1, H2, H3.
destruct (drop offset blob) as [|c0 [|c1 [|c2 [|c3 rest]]]]; simplify_eq/=.
now rewrite read_le_bytes.
Qed.

Lemma le_u32_at_range blob offset v :
  le_u32_at blob offset = Some v -> 0 <= v < 2 ^ 32.
Proof.
unfold le_u32_at.
destruct (take 4 (drop offset blob)) as [|c0 [|c1 [|c2 [|c3 [|? ?]]]]];
  intros ?; simplify_eq.
pose proof (byte_val_range c0). pose proof (byte_val_range c1).
pose proof (byte_val_range c2). pose proof (byte_val_range c3). lia.
Qed.

Lemma memcmp_eq a b n :
  (n <= length a)%nat -> (n <= length b)%nat ->
  memcmp a b n = 0 <-> take n a = take n b.
Proof.
revert a b. induction n as [|n IH]; intros a b Ha Hb; simpl.
- done.
- destruct a as [|x a]; [simpl in Ha; lia|].
  destruct b as [|y b]; [simpl in Hb; lia|].
  simpl in *. destruct (decide (byte_val x = byte_val y)) as [Hxy|Hxy].
  + apply byte_val_inj in Hxy as ->. rewrite IH by lia.
    split; [now intros ->|now intros [= ->]].
  + split; [lia|]. intros [= -> _]. congruence.
Qed.

Lemma validate_pipeline_cache_header_iff props blob :
  validate_pipeline_cache_header props blob = true <-> header_matches props blob.
Proof.
unfold validate_pipeline_cache_header, header_matches.
destruct (decide (length blob < 16 + VK_UUID_SIZE)%nat) as [Hsz|Hsz].
{ split; [discriminate|]. intros [? _]. lia. }
unfold VK_UUID_SIZE in Hsz. simpl in Hsz.
rewrite !read_le_spec by (unfold VK_UUID_SIZE; lia).
assert (Huuid : memcmp (vec_to_list (pipelineCacheUUID props)) (drop 16 blob)
                  VK_UUID_SIZE = 0
                <-> take VK_UUID_SIZE (drop 16 blob)
                    = vec_to_list (pipelineCacheUUID props)).
{ rewrite memcmp_eq.
  - rewrite (take_ge (vec_to_list _)) by (rewrite length_vec_to_list; lia).
    split; congruence.
  - rewrite length_vec_to_list; lia.
  - rewrite length_drop. unfold VK_UUID_SIZE. lia. }
split.
- repeat case_decide; try discriminate. intros _.
  split_and!; try (f_equal; lia); try congruence.
  + unfold VK_UUID_SIZE; lia.
  + apply Huuid. lia.
- intros (_ & H0 & H4 & H8 & H12 & H16). simplify_eq.
  apply Huuid in H16.
  repeat case_decide; try done; congruence.
Qed.

End cache_header.

(** ** [unstable_remove_if] *)

Section partition.
Context {A : Type}.
Implicit Types (p : A -> bool) (v : list A).

Lemma swap_at_length i j v : length (swap_at i j v) = length v.
Proof.
unfold swap_at. destruct (v !! i), (v !! j); try done.
now rewrite !length_insert.
Qed.

Lemma swap_at_Permutation i j v : swap_at i j v ≡ₚ v.
Proof.
unfold swap_at.
destruct (v !! i) as [x|] eqn:Hi; [|done].
destruct (v !! j) as [y|] eqn:Hj; [|done].
now apply Permutation_insert_swap.
Qed.

Lemma swap_at_lookup_other i j k v :
  k <> i -> k <> j -> swap_at i j v !! k = v !! k.
Proof.
intros Hi Hj. unfold swap_at.
destruct (v !! i), (v !! j); try done.
now rewrite !list_lookup_insert_ne by done.
Qed.

Lemma swap_at_lookup_r i j v x :
  v !! i = Some x -> (j < length v)%nat -> swap_at i j v !! j = Some x.
Proof.
intros Hi Hj. unfold swap_at. rewrite Hi.
destruct (decide (i = j)) as [->|Hne].
- rewrite Hi, list_insert_insert_eq. now apply list_lookup_insert_eq.
- destruct (lookup_lt_is_Some_2 v j Hj) as [y ->].
  rewrite list_lookup_insert_ne by done.
  now apply list_lookup_insert_eq.
Qed.

(** What the loop establishes, for any start of the range. *)
Lemma unstable_remove_if_loop_spec p dist first v mid v' :
  (first + dist <= length v)%nat ->
  unstable_remove_if_loop p dist first v = (mid, v') ->
  (first <= mid <= first + dist)%nat /\
  length v' = length v /\
  (forall i x, (first <= i < mid)%nat -> v' !! i = Some x -> p x = false) /\
  (forall i x, (mid <= i < first + dist)%nat -> v' !! i = Some x -> p x = true) /\
  (forall i, (i < first \/ first + dist <= i)%nat -> v' !! i = v !! i) /\
  v' ≡ₚ v.
Proof.
revert first v. induction dist as [|dist IH]; intros first v Hlen Hrun; simpl in Hrun.
- simplify_eq. split_and!; try done; try lia; intros; lia.
- destruct (lookup_lt_is_Some_2 v first) as [x Hx]; [lia|].
  rewrite Hx in Hrun. destruct (p x) eqn:Hpx.
  + apply IH in Hrun as (Hmid & Hl & Hlo & Hhi & Hout & Hperm);
      [|rewrite swap_at_length; lia].
    rewrite swap_at_length in Hl. split_and!; try done; try lia.
    * intros i y Hi Hy.
      destruct (decide (i = first + dist)%nat) as [->|Hne].
      -- rewrite Hout in Hy by lia.
         rewrite (swap_at_lookup_r _ _ _ x) in Hy by (done || lia). congruence.
      -- apply (Hhi i); [lia|done].
    * intros i Hi. rewrite Hout by lia. apply swap_at_lookup_other; lia.
    * now rewrite Hperm, swap_at_Permutation.
  + apply IH in Hrun as (Hmid & Hl & Hlo & Hhi & Hout & Hperm); [|lia].
    split_and!; try done; try lia.
    * intros i y Hi Hy.
      destruct (decide (i = first)) as [->|Hne].
      -- rewrite Hout in Hy by lia. congruence.
      -- apply (Hlo i); [lia|done].
    * intros i y Hi Hy. apply (Hhi i); [lia|done].
    * intros i Hi. apply Hout. lia.
Qed.

(** The result only depends on the values of the predicate on the elements of
    the vector. *)
Lemma unstable_remove_if_loop_ext p q dist first v :
  (forall x, x ∈ v -> p x = q x) ->
  unstable_remove_if_loop p dist first v = unstable_remove_if_loop q dist first v.
Proof.
revert first v. induction dist as [|dist IH]; intros first v Hpq; simpl; [done|].
destruct (v !! first) as [x|] eqn:Hx; [|done].
rewrite <- (Hpq x) by (eapply list_elem_of_lookup_2; eauto).
destruct (p x).
- apply IH. intros y Hy. apply Hpq. now rewrite <- (swap_at_Permutation first (first + dist) v).
- now apply IH.
Qed.

(** Two vectors that agree outside a window and are permutations of each
    other hold the same elements inside the window. *)
Lemma range_of_Permutation first last v v' :
  (first <= last <= length v)%nat ->
  length v' = length v ->
  (forall i, (i < first \/ last <= i)%nat -> v' !! i = v !! i) ->
  v' ≡ₚ v ->
  range_of first last v' ≡ₚ range_of first last v.
Proof.
intros Hr Hl Hout Hperm. unfold range_of.
assert (Hsplit : forall w : list A,
  w = take first w ++ take (last - first) (drop first w) ++ drop last w).
{ intros w. rewrite <- (take_drop first w) at 1. f_equal.
  rewrite <- (take_drop (last - first) (drop first w)) at 1. f_equal.
  rewrite drop_drop. f_equal. lia. }
assert (Hpre : take first v' = take first v).
{ apply list_eq. intros i. destruct (decide (i < first)%nat).
  - rewrite !lookup_take_lt by done. apply Hout. lia.
  - rewrite !lookup_take_ge by lia. done. }
assert (Hpost : drop last v' = drop last v).
{ apply list_eq. intros i. rewrite !lookup_drop. apply Hout. lia. }
pose proof (Hsplit v) as E. pose proof (Hsplit v') as E'.
rewrite Hpre, Hpost in E'.
rewrite E in Hperm. rewrite E' in Hperm.
apply Permutation_app_inv_l in Hperm.
now apply Permutation_app_inv_r in Hperm.
Qed.

End partition.

(** ** Loops *)

Lemma for_range_ind {S : Type} (P : S -> Prop) (body : Z -> S -> S) n i s :
  (forall j s', P s' -> P (body j s')) -> P s -> P (for_range n i body s).
Proof.
intros Hbody. revert i s. induction n as [|n IH]; intros i s Hs; simpl; auto.
Qed.

Lemma for_loop_ind {S : Type} (P : S -> Prop) (body : Z -> S -> S) count s :
  (forall j s', P s' -> P (body j s')) -> P s -> P (for_loop count body s).
Proof. apply for_range_ind. Qed.

Lemma worker_run_ind (P : ThreadedReplayer -> Prop) device n s :
  (forall s s', P s -> worker_step device s = Some s' -> P s') ->
  P s -> P (worker_run device n s).
Proof.
intros Hstep. revert s. induction n as [|n IH]; intros s Hs; simpl; [done|].
destruct (worker_step device s) as [s'|] eqn:E; [|done].
apply IH. eauto.
Qed.

(** A loop leaves a field alone when its body does. *)
Lemma for_loop_frame {S T : Type} (proj : S -> T) (body : Z -> S -> S) count s :
  (forall j s', proj (body j s') = proj s') ->
  proj (for_loop count body s) = proj s.
Proof.
intros Hb. apply (for_loop_ind (fun s' => proj s' = proj s)); [|done].
intros j s' <-. apply Hb.
Qed.

Create HintDb replayer_ops discriminated.
#[global] Hint Unfold process_work_item snapshot_failed_modules
  snapshot_failed_module lookup_shader_module_hash store_failed_module_hash
  control_block_incr shader_module_iteration graphics_pipeline_iteration
  compute_pipeline_iteration vkCreate push_work_item graphics_work_item
  compute_work_item enqueue_create_shader_module
  enqueue_create_graphics_pipeline enqueue_create_compute_pipeline
  enqueue_graphics_pipeline enqueue_compute_pipeline enqueue_create_sampler
  enqueue_create_descriptor_set_layout enqueue_create_pipeline_layout
  enqueue_create_render_pass set_application_info tear_down_threads
  mask_shader_module : replayer_ops.

(** [frame proj] proves that an operation leaves the field [proj] alone: it
    opens the operation, goes through loops with [for_loop_frame] and takes
    every branch. *)
Ltac frame_step proj :=
  first
    [ progress simpl
    | progress autounfold with replayer_ops
    | match goal with
      | |- context [match ?x with _ => _ end] =>
          lazymatch x with
          | context [match _ with _ => _ end] => fail
          | _ => destruct x eqn:?
          end
      end ].

Ltac frame proj :=
  repeat first
    [ rewrite (for_loop_frame proj) by (intros; frame proj)
    | frame_step proj ];
  try done.

(** ** Masked shader modules *)

Lemma process_work_item_masked device w s :
  masked_shader_modules (process_work_item device w s) = masked_shader_modules s.
Proof. frame masked_shader_modules. Qed.

Lemma worker_step_masked device s s' :
  worker_step device s = Some s' ->
  masked_shader_modules s' = masked_shader_modules s.
Proof.
unfold worker_step. destruct (pipeline_work_queue s); intros; simplify_eq/=.
now rewrite process_work_item_masked.
Qed.

Lemma sync_worker_threads_masked device s :
  masked_shader_modules (sync_worker_threads device s) = masked_shader_modules s.
Proof.
unfold sync_worker_threads.
apply (worker_run_ind (fun s' => masked_shader_modules s' = masked_shader_modules s));
  [|done].
intros s1 s2 <- Hstep. eauto using worker_step_masked.
Qed.

Lemma sink_call_masked device c s s' :
  sink_call device c s = Running s' ->
  masked_shader_modules s' = masked_shader_modules s.
Proof.
destruct c; simpl; intros Hc; simplify_eq;
  try (frame masked_shader_modules; fail).
- revert Hc. frame masked_shader_modules; intros; simplify_eq; done.
- apply sync_worker_threads_masked.
Qed.

Lemma parse_masked device calls s s' :
  parse device calls s = Running s' ->
  masked_shader_modules s' = masked_shader_modules s.
Proof.
revert s. induction calls as [|c calls IH]; intros s; simpl.
- now intros [= ->].
- destruct (sink_call device c s) as [s1|] eqn:E; [|done].
  intros H%IH. rewrite H. eauto using sink_call_masked.
Qed.

(** C9: a shader module whose hash was passed to [mask_shader_module] stays
    masked while the sink is driven, and [enqueue_create_shader_module] then
    returns true, writes a null handle to the output, pushes no work item and
    adds no entry to [shader_modules]; a pipeline that reads its module from
    that output is enqueued with a null create info, the skip path of the
    worker. *)
Theorem masked_shader_module_is_skipped device calls hash_ create_info_ module_ s0 s :
  parse device calls (mask_shader_module hash_ s0) = Running s ->
  hash_ ∈ masked_shader_modules s /\
  enqueue_create_shader_module hash_ create_info_ module_ s
    = (true, s <| output_mem ::= <[module_ := VK_NULL_HANDLE]> |>) /\
  (forall s', s' = (enqueue_create_shader_module hash_ create_info_ module_ s).2 ->
     load (Some module_) (output_mem s') = VK_NULL_HANDLE /\
     pipeline_work_queue s' = pipeline_work_queue s /\
     queued_count s' = queued_count s /\
     shader_modules s' = shader_modules s /\
     (forall h ci p c s2,
        Exists (fun st => module st = load (Some module_) (output_mem s'))
               (VkGraphicsPipelineCreateInfo.pStages ci) ->
        create_info (graphics_work_item h ci p c s2).1 = null_create_info) /\
     (forall h ci p c s2,
        module (VkComputePipelineCreateInfo.stage ci)
          = load (Some module_) (output_mem s') ->
        create_info (compute_work_item h ci p c s2).1 = null_create_info)).
Proof.
intros Hparse.
assert (Hin : hash_ ∈ masked_shader_modules s).
{ rewrite (parse_masked _ _ _ _ Hparse). unfold mask_shader_module. simpl.
  set_solver. }
assert (Hcall : enqueue_create_shader_module hash_ create_info_ module_ s
    = (true, s <| output_mem ::= <[module_ := VK_NULL_HANDLE]> |>)).
{ unfold enqueue_create_shader_module. now rewrite bool_decide_eq_true_2. }
split_and!; try done.
intros s' ->. rewrite Hcall. simpl. rewrite lookup_insert_eq. simpl.
split_and!; try done.
- intros h ci p c s2 Hex. unfold graphics_work_item.
  destruct (valid_handles ci) eqn:Hv; [|done].
  exfalso. unfold valid_handles in Hv. rewrite forallb_forall in Hv.
  apply Exists_exists in Hex as (st & Hst & Hnull).
  apply list_elem_of_In, Hv, bool_decide_eq_true in Hst. done.
- intros h ci p c s2 Hnull. unfold compute_work_item.
  rewrite bool_decide_eq_false_2; [done|]. rewrite Hnull. auto.
Qed.

Lemma masked_shader_module_is_skipped_witness :
  let s0 := Sample.replayer 1 in
  let calls := [call_enqueue_create_shader_module 5 Sample.shader_info 499;
                call_sync_threads] in
  let s := sync_worker_threads Sample.device
             (enqueue_create_shader_module 5 Sample.shader_info 499
                (mask_shader_module 77 s0)).2 in
  parse Sample.device calls (mask_shader_module 77 s0) = Running s /\
  enqueue_create_shader_module 77 Sample.shader_info 500 s
    = (true, s <| output_mem ::= <[500 := VK_NULL_HANDLE]> |>).
Proof.
intros s0 calls s.
assert (Hparse : parse Sample.device calls (mask_shader_module 77 s0) = Running s)
  by reflexivity.
split; [exact Hparse|].
exact (proj1 (proj2 (masked_shader_module_is_skipped Sample.device calls 77
                       Sample.shader_info 500 s0 s Hparse))).
Defined.

(** ** The driver cache header: the claim *)

(** C1: [validate_pipeline_cache_header] accepts a blob exactly when it has
    [16 + VK_UUID_SIZE] bytes or more, its little-endian 32-bit words at
    offsets 0, 4, 8 and 12 are [16 + VK_UUID_SIZE], 1, the vendor and the
    device identifier of the device, and the [VK_UUID_SIZE] bytes at offset 16
    are the pipeline cache UUID of the device; it rejects every other blob,
    and [set_application_info] then creates the pipeline cache without initial
    data. *)
Theorem validate_pipeline_cache_header_spec
    (props : CacheHeader.VkPhysicalDeviceProperties) (blob : list byte) :
  (CacheHeader.validate_pipeline_cache_header props blob = true
   <-> CacheHeader.header_matches props blob) /\
  (~ CacheHeader.header_matches props blob
   <-> CacheHeader.validate_pipeline_cache_header props blob = false) /\
  (forall opts fs,
     Options.pipeline_cache opts = true ->
     CacheHeader.fopen_rb fs (Options.on_disk_pipeline_cache_path opts) = Some blob ->
     CacheHeader.validate_pipeline_cache_header props blob = false ->
     CacheHeader.pipeline_cache_create_info opts fs props
       = Some {| CacheHeader.initialDataSize := 0;
                 CacheHeader.pInitialData := None |}) /\
  (forall opts fs,
     Options.pipeline_cache opts = true ->
     Options.on_disk_pipeline_cache_path opts <> EmptyString ->
     CacheHeader.fopen_rb fs (Options.on_disk_pipeline_cache_path opts) = Some blob ->
     CacheHeader.fread_complete fs = true ->
     CacheHeader.validate_pipeline_cache_header props blob = true ->
     CacheHeader.pipeline_cache_create_info opts fs props
       = Some {| CacheHeader.initialDataSize := length blob;
                 CacheHeader.pInitialData := Some blob |}).
Proof.
pose proof (validate_pipeline_cache_header_iff props blob) as Hiff.
split_and!.
- exact Hiff.
- rewrite <- Hiff. now destruct (CacheHeader.validate_pipeline_cache_header _ _).
- intros opts fs Hon Hopen Hbad. unfold CacheHeader.pipeline_cache_create_info.
  rewrite Hon, Hopen, Hbad. repeat case_match; done.
- intros opts fs Hon Hpath Hopen Hread Hok.
  unfold CacheHeader.pipeline_cache_create_info.
  rewrite Hon, Hopen, Hread, Hok.
  destruct (decide (Options.on_disk_pipeline_cache_path opts = EmptyString)); [done|].
  destruct (decide (length blob <> 0%nat)) as [|Hz]; [done|].
  exfalso. apply Hiff in Hok as [Hlen _]. unfold VK_UUID_SIZE in Hlen. lia.
Qed.

(** ** [unstable_remove_if]: the claim *)

Lemma range_of_lookup {A} first last (v : list A) i :
  range_of first last v !! i
  = if decide (i < last - first)%nat then v !! (first + i)%nat else None.
Proof.
unfold range_of. case_decide.
- now rewrite lookup_take_lt, lookup_drop.
- apply lookup_take_ge. lia.
Qed.

(** C3: for a range [[first, last)] of a vector and a predicate [p],
    [unstable_remove_if] returns [mid] in the range such that afterwards no
    element of [[first, mid)] satisfies [p], every element of [[mid, last)]
    does, the range holds the same elements with the same multiplicities, the
    rest of the vector is untouched, and the outcome is a function of the
    sequence and of the values of the predicate on its elements. *)
Theorem unstable_remove_if_partitions {A} (p : A -> bool) (v : list A)
    (first last mid : nat) (v' : list A) :
  (first <= last <= length v)%nat ->
  unstable_remove_if first last p v = (mid, v') ->
  (first <= mid <= last)%nat /\
  length v' = length v /\
  Forall (fun x => p x = false) (range_of first mid v') /\
  Forall (fun x => p x = true) (range_of mid last v') /\
  range_of first last v' ≡ₚ range_of first last v /\
  (forall i, (i < first \/ last <= i)%nat -> v' !! i = v !! i) /\
  (forall q, (forall x, x ∈ v -> q x = p x) ->
             unstable_remove_if first last q v = (mid, v')).
Proof.
intros Hr Hrun. unfold unstable_remove_if in *.
pose proof Hrun as Hspec.
apply unstable_remove_if_loop_spec in Hspec
  as (Hmid & Hlen & Hlo & Hhi & Hout & Hperm); [|lia].
replace (first + (last - first))%nat with last in * by lia.
split_and!; try done; try lia.
- apply Forall_lookup. intros i x. rewrite range_of_lookup.
  case_decide; [|done]. intros Hx. apply (Hlo (first + i)%nat); [lia|done].
- apply Forall_lookup. intros i x. rewrite range_of_lookup.
  case_decide; [|done]. intros Hx. apply (Hhi (mid + i)%nat); [lia|done].
- now apply range_of_Permutation.
- intros q Hq. rewrite <- Hrun. now apply unstable_remove_if_loop_ext.
Qed.

Lemma unstable_remove_if_partitions_witness :
  let v := [2; 3; 4; 5; 6] in
  let v' := [5; 3; 4; 6; 2] in
  (0 <= 5 <= length v)%nat /\
  unstable_remove_if 0 5 Z.even v = (2%nat, v') /\
  Forall (fun x => Z.even x = false) (range_of 0 2 v') /\
  Forall (fun x => Z.even x = true) (range_of 2 5 v') /\
  range_of 0 5 v' ≡ₚ range_of 0 5 v.
Proof.
intros v v'.
assert (Hr : (0 <= 5 <= length v)%nat) by (simpl; lia).
assert (Hrun : unstable_remove_if 0 5 Z.even v = (2%nat, v')) by reflexivity.
pose proof (unstable_remove_if_partitions Z.even v 0 5 2 v' Hr Hrun)
  as (_ & _ & Hlo & Hhi & Hperm & _).
exact (conj Hr (conj Hrun (conj Hlo (conj Hhi Hperm)))).
Defined.

(** ** Pipelines with a null shader module *)

Lemma valid_handles_false ci :
  Exists (fun st => module st = VK_NULL_HANDLE)
         (VkGraphicsPipelineCreateInfo.pStages ci) <->
  valid_handles ci = false.
Proof.
unfold valid_handles. rewrite Exists_exists. split.
- intros (st & Hst & Hnull). apply not_true_is_false. intros Hv.
  rewrite forallb_forall in Hv.
  apply list_elem_of_In, Hv, bool_decide_eq_true in Hst. done.
- intros Hv. induction (VkGraphicsPipelineCreateInfo.pStages ci) as [|st l IH];
    simpl in Hv; [done|].
  apply andb_false_iff in Hv as [Hst|Hl].
  + exists st. split; [left|]. apply bool_decide_eq_false in Hst.
    destruct (decide (module st = VK_NULL_HANDLE)); done.
  + destruct (IH Hl) as (st' & ? & ?). exists st'. split; [now right|done].
Qed.

(** C4: a graphics pipeline that is not a derivative, whose index is inside
    the slice and one of whose stages has a null module is still enqueued, with
    a null create info and a null map entry, and [graphics_pipelines] gains no
    entry; the worker that takes such an item advances its pipeline index when
    the item contributes to the index, increments [skipped_graphics] of the
    control block, makes no call on the device and leaves [graphics_pipelines]
    alone. *)
Theorem null_shader_module_pipeline_is_skipped
    device hash_ (create_info_ : VkGraphicsPipelineCreateInfo.t) pipeline_ s :
  has_flag (flags create_info_) VK_PIPELINE_CREATE_DERIVATIVE_BIT = false ->
  in_graphics_slice s = true ->
  Exists (fun st => module st = VK_NULL_HANDLE)
         (VkGraphicsPipelineCreateInfo.pStages create_info_) ->
  let work_item :=
    {| hash := hash_; tag := RESOURCE_GRAPHICS_PIPELINE;
       contributes_to_index := true; create_info := null_create_info;
       output := Some pipeline_; hash_map_entry := None |} in
  let s' := (enqueue_create_graphics_pipeline hash_ create_info_ pipeline_ s).2 in
  pipeline_work_queue s' = pipeline_work_queue s ++ [work_item] /\
  queued_count s' = incr (queued_count s) /\
  graphics_pipeline_index s' = incr (graphics_pipeline_index s) /\
  graphics_pipelines s' = graphics_pipelines s /\
  (forall w s1,
     tag w = RESOURCE_GRAPHICS_PIPELINE ->
     create_info w = null_create_info ->
     let s2 := process_work_item device w s1 in
     thread_current_graphics_index s2
       = (if contributes_to_index w then incr (thread_current_graphics_index s1)
          else thread_current_graphics_index s1) /\
     control_block s2 = set skipped_graphics incr <$> control_block s1 /\
     device_calls s2 = device_calls s1 /\
     graphics_pipelines s2 = graphics_pipelines s1 /\
     output_mem s2 = output_mem s1).
Proof.
intros Hnd Hin Hnull%valid_handles_false work_item s'. subst s' work_item.
unfold enqueue_create_graphics_pipeline, graphics_work_item.
rewrite Hnd, Hin, Hnull. simpl. split_and!; try done.
intros w s1 Htag Hci. unfold process_work_item. rewrite Htag, Hci.
destruct (contributes_to_index w); done.
Qed.

Lemma null_shader_module_pipeline_is_skipped_witness :
  let s := (Sample.replayer 1) <| graphics_pipeline_index := 1 |> in
  let s' := (enqueue_create_graphics_pipeline 444 Sample.broken_info 504 s).2 in
  let s2 := sync_worker_threads Sample.device s' in
  in_graphics_slice s = true /\
  graphics_pipelines s' = graphics_pipelines s /\
  graphics_pipelines s2 = ∅ /\
  (skipped_graphics <$> control_block s2) = Some 1 /\
  thread_current_graphics_index s2 = 2 /\
  device_calls s2 = 0%N.
Proof.
intros s s' s2.
assert (Hnd : has_flag (flags Sample.broken_info) VK_PIPELINE_CREATE_DERIVATIVE_BIT
              = false) by reflexivity.
assert (Hin : in_graphics_slice s = true) by reflexivity.
assert (Hnull : Exists (fun st => module st = VK_NULL_HANDLE)
                  (VkGraphicsPipelineCreateInfo.pStages Sample.broken_info))
  by (apply Exists_cons_tl, Exists_cons_hd; reflexivity).
pose proof (null_shader_module_pipeline_is_skipped Sample.device 444
              Sample.broken_info 504 s Hnd Hin Hnull) as (_ & _ & _ & Hmap & _).
split_and!; [exact Hin|exact Hmap|reflexivity..].
Defined.

(** ** The successful counters *)

(** A loop leaves a field alone when its body does from the index on at which
    the loop is entered. *)
Lemma for_range_frame_from {S T : Type} (proj : S -> T) (body : Z -> S -> S) n i s :
  (forall j s', i <= j -> proj (body j s') = proj s') ->
  proj (for_range n i body s) = proj s.
Proof.
revert i s. induction n as [|n IH]; intros i s Hb; simpl; [done|].
rewrite IH by (intros; apply Hb; lia). apply Hb. lia.
Qed.

Lemma for_loop_first {S : Type} (body : Z -> S -> S) count s :
  0 < count ->
  for_loop count body s = for_range (Z.to_nat count - 1) 1 body (body 0 s).
Proof.
intros Hc. unfold for_loop.
destruct (Z.to_nat count) as [|n] eqn:E; [lia|].
simpl. now rewrite Nat.sub_0_r.
Qed.

Lemma for_loop_none {S : Type} (body : Z -> S -> S) count s :
  count <= 0 -> for_loop count body s = s.
Proof.
intros Hc. unfold for_loop. now replace (Z.to_nat count) with O by lia.
Qed.

Lemma snapshot_failed_modules_control_block ci s :
  control_block (snapshot_failed_modules ci s) = control_block s.
Proof. frame control_block. Qed.

Lemma snapshot_failed_modules_device_calls ci s :
  device_calls (snapshot_failed_modules ci s) = device_calls s.
Proof. frame device_calls. Qed.

Lemma snapshot_failed_modules_loop_count ci s :
  loop_count (snapshot_failed_modules ci s) = loop_count s.
Proof. frame loop_count. Qed.

(** The graphics loop bumps [successful_graphics] in its first iteration
    only, and only for an item that contributes to the index. *)
Lemma graphics_loop_control_block device w s :
  control_block (for_loop (loop_count s) (graphics_pipeline_iteration device w) s)
  = if contributes_to_index w && bool_decide (0 < loop_count s)
       && is_success (create_result device (device_calls s))
    then set successful_graphics incr <$> control_block s
    else control_block s.
Proof.
destruct (decide (0 < loop_count s)) as [Hpos|Hneg].
- rewrite for_loop_first by done.
  rewrite for_range_frame_from.
  + rewrite bool_decide_eq_true_2 by done.
    unfold graphics_pipeline_iteration, vkCreate, control_block_incr. simpl.
    destruct (create_result device (device_calls s)) as [h|[h|]];
      destruct (contributes_to_index w); done.
  + intros j s' Hj. unfold graphics_pipeline_iteration.
    rewrite bool_decide_eq_false_2 by lia. frame control_block.
- rewrite for_loop_none by lia. rewrite bool_decide_eq_false_2 by done.
  now rewrite andb_false_r.
Qed.

Lemma compute_loop_control_block device w s :
  control_block (for_loop (loop_count s) (compute_pipeline_iteration device w) s)
  = if contributes_to_index w && bool_decide (0 < loop_count s)
       && is_success (create_result device (device_calls s))
    then set successful_compute incr <$> control_block s
    else control_block s.
Proof.
destruct (decide (0 < loop_count s)) as [Hpos|Hneg].
- rewrite for_loop_first by done.
  rewrite for_range_frame_from.
  + rewrite bool_decide_eq_true_2 by done.
    unfold compute_pipeline_iteration, vkCreate, control_block_incr. simpl.
    destruct (create_result device (device_calls s)) as [h|[h|]];
      destruct (contributes_to_index w); done.
  + intros j s' Hj. unfold compute_pipeline_iteration.
    rewrite bool_decide_eq_false_2 by lia. frame control_block.
- rewrite for_loop_none by lia. rewrite bool_decide_eq_false_2 by done.
  now rewrite andb_false_r.
Qed.


(** ** The snapshot of the failed module hashes *)

Lemma for_range_app {S : Type} (body : Z -> S -> S) a b i s :
  for_range (a + b) i body s
  = for_range b (i + Z.of_nat a) body (for_range a i body s).
Proof.
revert i s. induction a as [|a IH]; intros i s; simpl.
- now rewrite Z.add_0_r.
- rewrite IH. f_equal. lia.
Qed.

Lemma for_range_succ {S : Type} (body : Z -> S -> S) n i s :
  for_range (Datatypes.S n) i body s = for_range n (i + 1) body (body i s).
Proof. reflexivity. Qed.

Lemma touch_lookup_default k k' (m : gmap Z Z) :
  default 0 (touch k m !! k') = default 0 (m !! k').
Proof.
unfold touch. destruct (m !! k) eqn:E; [done|].
destruct (decide (k = k')) as [->|Hne].
- now rewrite lookup_insert_eq, E.
- now rewrite lookup_insert_ne.
Qed.

Lemma snapshot_failed_module_hash ci i j s :
  snapshot_hash ci (snapshot_failed_module ci i s) j = snapshot_hash ci s j.
Proof.
unfold snapshot_hash, snapshot_failed_module, lookup_shader_module_hash,
  store_failed_module_hash. simpl.
repeat case_bool_decide; simpl; apply touch_lookup_default.
Qed.

(** The hash that an iteration stores is the one that the snapshot finds at
    its start. *)
Lemma snapshot_failed_module_stored ci i s :
  (lookup_shader_module_hash
     (from_option module VK_NULL_HANDLE
        (VkGraphicsPipelineCreateInfo.pStages ci !! Z.to_nat i)) s).1
  = snapshot_hash ci s i.
Proof.
unfold lookup_shader_module_hash, snapshot_hash. simpl.
apply touch_lookup_default.
Qed.

(** Only the store at index 6 lands on [num_failed_module_hashes]. *)
Lemma snapshot_failed_module_num ci i s :
  num_failed_module_hashes (snapshot_failed_module ci i s)
  = if bool_decide (i = FAILED_MODULE_HASHES_SIZE)
    then low_half (snapshot_hash ci s i)
    else num_failed_module_hashes s.
Proof.
pose proof (snapshot_failed_module_stored ci i s) as Hh.
unfold snapshot_failed_module, lookup_shader_module_hash,
  store_failed_module_hash in *. simpl in *.
unfold FAILED_MODULE_HASHES_SIZE.
repeat case_bool_decide; simpl; try lia; try done. now rewrite Hh.
Qed.

Lemma snapshot_num_frame ci n i s :
  i + Z.of_nat n <= FAILED_MODULE_HASHES_SIZE \/ FAILED_MODULE_HASHES_SIZE < i ->
  num_failed_module_hashes (for_range n i (snapshot_failed_module ci) s)
  = num_failed_module_hashes s.
Proof.
revert i s. induction n as [|n IH]; intros i s Hi; simpl; [done|].
rewrite IH by lia. rewrite snapshot_failed_module_num.
rewrite bool_decide_eq_false_2 by lia. done.
Qed.

(** Iterations below the size of the array store inside it. *)
Lemma snapshot_in_bounds ci n i s :
  0 <= i -> i + Z.of_nat n <= FAILED_MODULE_HASHES_SIZE ->
  let s' := for_range n i (snapshot_failed_module ci) s in
  stores_past_end s' = stores_past_end s /\
  (forall j, snapshot_hash ci s' j = snapshot_hash ci s j) /\
  length (failed_module_hashes s') = length (failed_module_hashes s) /\
  (forall j, (Z.to_nat i <= j < Z.to_nat i + n)%nat ->
             (j < length (failed_module_hashes s))%nat ->
             failed_module_hashes s' !! j = Some (snapshot_hash ci s (Z.of_nat j))) /\
  (forall j, (j < Z.to_nat i)%nat ->
             failed_module_hashes s' !! j = failed_module_hashes s !! j).
Proof.
revert i s. induction n as [|n IH]; intros i s Hi Hn; simpl.
- split_and!; try done. intros; lia.
- destruct (IH (i + 1) (snapshot_failed_module ci i s))
    as (Hst & Hh & Hlen & Hin & Hlow); [lia..|].
  assert (Hstep_len : length (failed_module_hashes (snapshot_failed_module ci i s))
                      = length (failed_module_hashes s)).
  { unfold snapshot_failed_module, lookup_shader_module_hash,
      store_failed_module_hash. simpl.
    repeat case_bool_decide; simpl; try done; apply length_insert. }
  split_and!.
  + rewrite Hst. unfold snapshot_failed_module, lookup_shader_module_hash,
      store_failed_module_hash. simpl.
    rewrite bool_decide_eq_true_2 by (unfold FAILED_MODULE_HASHES_SIZE in *; lia).
    done.
  + intros j. now rewrite Hh, snapshot_failed_module_hash.
  + now rewrite Hlen.
  + intros j Hj Hjl. destruct (decide (j = Z.to_nat i)) as [->|Hne].
    * rewrite Hlow by lia.
      unfold snapshot_failed_module, lookup_shader_module_hash,
        store_failed_module_hash. simpl.
      rewrite bool_decide_eq_true_2 by (unfold FAILED_MODULE_HASHES_SIZE in *; lia).
      simpl. rewrite list_lookup_insert_eq by lia.
      unfold snapshot_hash. rewrite Z2Nat.id by lia.
      f_equal. unfold touch. case_match; [congruence|].
      now rewrite lookup_insert_eq.
    * rewrite Hin by (rewrite ?Hstep_len; lia).
      now rewrite snapshot_failed_module_hash.
  + intros j Hj. rewrite Hlow by lia.
    unfold snapshot_failed_module, lookup_shader_module_hash,
      store_failed_module_hash. simpl.
    rewrite bool_decide_eq_true_2 by (unfold FAILED_MODULE_HASHES_SIZE in *; lia).
    simpl. apply list_lookup_insert_ne. lia.
Qed.

(** Iterations from the size of the array on store past its end. *)
Lemma snapshot_past_end ci n i s :
  FAILED_MODULE_HASHES_SIZE <= i ->
  let s' := for_range n i (snapshot_failed_module ci) s in
  stores_past_end s'
  = stores_past_end s
    ++ ((fun j => (j, snapshot_hash ci s j)) <$> seqZ i (Z.of_nat n)) /\
  failed_module_hashes s' = failed_module_hashes s.
Proof.
revert i s. induction n as [|n IH]; intros i s Hi; cbv zeta; cbn [for_range].
- simpl. now rewrite app_nil_r.
- destruct (IH (i + 1) (snapshot_failed_module ci i s)) as (Hst & Harr); [lia|].
  rewrite Hst, Harr.
  assert (Hone : stores_past_end (snapshot_failed_module ci i s)
                 = stores_past_end s ++ [(i, snapshot_hash ci s i)]
                 /\ failed_module_hashes (snapshot_failed_module ci i s)
                    = failed_module_hashes s).
  { unfold snapshot_failed_module, lookup_shader_module_hash,
      store_failed_module_hash. simpl.
    rewrite bool_decide_eq_false_2 by lia.
    assert (Hh : default 0
                   (touch (from_option module VK_NULL_HANDLE
                             (VkGraphicsPipelineCreateInfo.pStages ci !! Z.to_nat i))
                      (shader_module_to_hash s)
                    !! from_option module VK_NULL_HANDLE
                         (VkGraphicsPipelineCreateInfo.pStages ci !! Z.to_nat i))
                 = snapshot_hash ci s i) by apply touch_lookup_default.
    repeat case_bool_decide; simpl; rewrite Hh; done. }
  destruct Hone as (-> & ->).
  split; [|done].
  rewrite (seqZ_cons i) by lia. simpl. rewrite <- app_assoc. simpl.
  do 2 f_equal.
  replace (Z.succ i) with (i + 1) by lia.
    replace (Z.pred (Z.of_nat (S n))) with (Z.of_nat n) by lia.
  apply list_fmap_ext. intros k j Hj. f_equal.
  apply snapshot_failed_module_hash.
Qed.

Lemma snapshot_failed_modules_spec ci s :
  let n := VkGraphicsPipelineCreateInfo.stageCount ci in
  let s' := snapshot_failed_modules ci s in
  (n <= FAILED_MODULE_HASHES_SIZE -> num_failed_module_hashes s' = n) /\
  (FAILED_MODULE_HASHES_SIZE < n ->
   num_failed_module_hashes s'
   = low_half (snapshot_hash ci s FAILED_MODULE_HASHES_SIZE)) /\
  stores_past_end s'
  = stores_past_end s
    ++ ((fun j => (j, snapshot_hash ci s j))
          <$> seqZ FAILED_MODULE_HASHES_SIZE (n - FAILED_MODULE_HASHES_SIZE)) /\
  (forall j, (j < length (failed_module_hashes s))%nat ->
             Z.of_nat j < n -> Z.of_nat j < FAILED_MODULE_HASHES_SIZE ->
             failed_module_hashes s' !! j = Some (snapshot_hash ci s (Z.of_nat j))).
Proof.
intros n s'. subst n s'. unfold snapshot_failed_modules, for_loop.
unfold VkGraphicsPipelineCreateInfo.stageCount. rewrite Nat2Z.id.
set (k := length (VkGraphicsPipelineCreateInfo.pStages ci)).
set (s1 := s <| num_failed_module_hashes := Z.of_nat k |>).
destruct (decide (k <= 6)%nat) as [Hle|Hgt].
- destruct (snapshot_in_bounds ci k 0 s1) as (Hst & _ & _ & Hin & _);
    [lia|unfold FAILED_MODULE_HASHES_SIZE; lia|].
  split_and!.
  + intros _. now rewrite snapshot_num_frame
      by (unfold FAILED_MODULE_HASHES_SIZE; lia).
  + unfold FAILED_MODULE_HASHES_SIZE. lia.
  + rewrite Hst. unfold FAILED_MODULE_HASHES_SIZE.
    rewrite (seqZ_nil 6) by lia. simpl. now rewrite app_nil_r.
  + intros j Hj Hjn _. apply Hin; simpl; [lia|done].
- assert (Hk : exists m, k = (6 + S m)%nat) by (exists (k - 7)%nat; lia).
  destruct Hk as [m Hk]. clearbody k. subst k. rewrite for_range_app.
  change (0 + Z.of_nat 6) with 6.
  destruct (snapshot_in_bounds ci 6 0 s1) as (Hst & Hh & _ & Hin & _);
    [lia|unfold FAILED_MODULE_HASHES_SIZE; lia|].
  destruct (snapshot_past_end ci (S m) 6
              (for_range 6 0 (snapshot_failed_module ci) s1)) as (Hst2 & Harr);
    [unfold FAILED_MODULE_HASHES_SIZE; lia|].
  split_and!.
  + unfold FAILED_MODULE_HASHES_SIZE. lia.
  + intros _. rewrite (for_range_succ _ m 6).
    rewrite snapshot_num_frame by (unfold FAILED_MODULE_HASHES_SIZE; lia).
    rewrite snapshot_failed_module_num. unfold FAILED_MODULE_HASHES_SIZE.
    rewrite bool_decide_eq_true_2 by done. f_equal. apply Hh.
  + rewrite Hst2, Hst. unfold FAILED_MODULE_HASHES_SIZE.
    replace (Z.of_nat (6 + S m) - 6) with (Z.of_nat (S m)) by lia.
    f_equal. apply list_fmap_ext. intros i j Hj. f_equal. apply Hh.
  + intros j Hj Hjn Hj6. rewrite Harr.
    apply Hin; simpl; [unfold FAILED_MODULE_HASHES_SIZE in *; lia|done].
Qed.

(** C10: with [robustness] on, the worker that takes a graphics work item
    with a create info stores [failed_module_hashes[i]] for every stage index
    [i] below [stageCount]. The stores with an index below 6 land in the array;
    the others, one for every index from 6 to [stageCount - 1], land past its
    end. No store goes past the end exactly when [stageCount <= 6]; then
    [num_failed_module_hashes] is [stageCount]. Otherwise the store at index 6
    has overwritten it: it holds the low half of the hash of stage 6. *)
Theorem failed_module_hashes_bounds device w ci s :
  tag w = RESOURCE_GRAPHICS_PIPELINE ->
  create_info w = graphics_create_info ci ->
  robustness s = true ->
  length (failed_module_hashes s) = Z.to_nat FAILED_MODULE_HASHES_SIZE ->
  let n := VkGraphicsPipelineCreateInfo.stageCount ci in
  let s' := process_work_item device w s in
  (n <= FAILED_MODULE_HASHES_SIZE -> num_failed_module_hashes s' = n) /\
  (FAILED_MODULE_HASHES_SIZE < n ->
   num_failed_module_hashes s'
   = low_half (snapshot_hash ci s FAILED_MODULE_HASHES_SIZE)) /\
  (forall i, 0 <= i < n -> i < FAILED_MODULE_HASHES_SIZE ->
     failed_module_hashes s' !! Z.to_nat i = Some (snapshot_hash ci s i)) /\
  stores_past_end s'
  = stores_past_end s
    ++ ((fun i => (i, snapshot_hash ci s i))
          <$> seqZ FAILED_MODULE_HASHES_SIZE (n - FAILED_MODULE_HASHES_SIZE)) /\
  (forall i, FAILED_MODULE_HASHES_SIZE <= i < n ->
     (i, snapshot_hash ci s i) ∈ stores_past_end s') /\
  (stores_past_end s' = stores_past_end s <-> n <= FAILED_MODULE_HASHES_SIZE).
Proof.
intros Htag Hci Hrob Hlen n s'.
assert (Hsnap : exists s1,
  (s1 = s \/ s1 = s <| thread_current_graphics_index ::= incr |>) /\
  num_failed_module_hashes s' = num_failed_module_hashes (snapshot_failed_modules ci s1) /\
  failed_module_hashes s' = failed_module_hashes (snapshot_failed_modules ci s1) /\
  stores_past_end s' = stores_past_end (snapshot_failed_modules ci s1)).
{ assert (Hrest : forall s2,
    let s3 := if invalid_derivative ci
              then s2 <| output_mem ::= store (output w) VK_NULL_HANDLE |>
              else for_loop (loop_count s2) (graphics_pipeline_iteration device w) s2 in
    num_failed_module_hashes s3 = num_failed_module_hashes s2 /\
    failed_module_hashes s3 = failed_module_hashes s2 /\
    stores_past_end s3 = stores_past_end s2).
  { intros s2. destruct (invalid_derivative ci); simpl; [done|].
    split_and!; apply for_loop_frame; intros.
    - frame num_failed_module_hashes.
    - frame failed_module_hashes.
    - frame stores_past_end. }
  subst s'. unfold process_work_item. rewrite Htag, Hci.
  destruct (contributes_to_index w); simpl; rewrite Hrob.
  - exists (s <| thread_current_graphics_index ::= incr |>).
    split; [now right|apply Hrest].
  - exists s. split; [now left|apply Hrest]. }
destruct Hsnap as (s1 & Hs1 & -> & -> & Hst).
assert (Hsame : stores_past_end s1 = stores_past_end s
                /\ failed_module_hashes s1 = failed_module_hashes s
                /\ forall i, snapshot_hash ci s1 i = snapshot_hash ci s i)
  by (destruct Hs1 as [->| ->]; done).
destruct Hsame as (Hst1 & Harr1 & Hh1).
destruct (snapshot_failed_modules_spec ci s1) as (Hnum & Hnum6 & Hpast & Hin).
rewrite Hst1 in Hpast.
assert (Hpast' : stores_past_end s'
  = stores_past_end s
    ++ ((fun i => (i, snapshot_hash ci s i))
          <$> seqZ FAILED_MODULE_HASHES_SIZE (n - FAILED_MODULE_HASHES_SIZE))).
{ rewrite Hst, Hpast. f_equal. apply list_fmap_ext. intros k j _. f_equal. apply Hh1. }
split_and!.
- exact Hnum.
- intros Hgt. rewrite <- Hh1. now apply Hnum6.
- intros i Hi Hi6. specialize (Hin (Z.to_nat i)).
  rewrite Z2Nat.id, Hh1 in Hin by lia.
  apply Hin; rewrite ?Harr1, ?Hlen; unfold FAILED_MODULE_HASHES_SIZE in *; lia.
- exact Hpast'.
- intros i Hi. rewrite Hpast'. apply elem_of_app. right.
  apply list_elem_of_fmap. exists i. split; [done|]. apply elem_of_seqZ. lia.
- rewrite Hpast'. split.
  + intros Heq. destruct (decide (n <= FAILED_MODULE_HASHES_SIZE)) as [|Hgt]; [done|].
    exfalso. apply (f_equal length) in Heq.
    rewrite length_app, length_fmap, length_seqZ in Heq. lia.
  + intros Hle. rewrite seqZ_nil by lia. simpl. apply app_nil_r.
Qed.

Lemma failed_module_hashes_bounds_witness :
  let s := (Sample.replayer 1) <| robustness := true |>
             <| shader_module_to_hash := {[ 1006 := 77 ]} |> in
  let w := (graphics_work_item 444 Sample.wide_info 504 true s).1 in
  let s' := process_work_item Sample.device w s in
  robustness s = true /\
  length (failed_module_hashes s) = 6%nat /\
  VkGraphicsPipelineCreateInfo.stageCount Sample.wide_info = 7 /\
  (6, 77) ∈ stores_past_end s' /\
  stores_past_end s' <> stores_past_end s /\
  num_failed_module_hashes s' = 77.
Proof.
intros s w s'.
assert (Htag : tag w = RESOURCE_GRAPHICS_PIPELINE) by reflexivity.
assert (Hci : create_info w = graphics_create_info Sample.wide_info) by reflexivity.
assert (Hrob : robustness s = true) by reflexivity.
assert (Hlen : length (failed_module_hashes s) = Z.to_nat FAILED_MODULE_HASHES_SIZE)
  by reflexivity.
pose proof (failed_module_hashes_bounds Sample.device w Sample.wide_info s
              Htag Hci Hrob Hlen) as (_ & Hnum & _ & _ & Hin & Hiff).
split_and!; [exact Hrob|exact Hlen|reflexivity| | |].
- apply (Hin 6). unfold FAILED_MODULE_HASHES_SIZE. simpl.
  unfold VkGraphicsPipelineCreateInfo.stageCount. simpl. lia.
- intros Heq. apply Hiff in Heq.
  unfold VkGraphicsPipelineCreateInfo.stageCount, FAILED_MODULE_HASHES_SIZE in Heq.
  simpl in Heq. lia.
- etrans; [apply Hnum; unfold VkGraphicsPipelineCreateInfo.stageCount,
                         FAILED_MODULE_HASHES_SIZE; simpl; lia|reflexivity].
Defined.

(** ** Pipelines outside the slice *)

Lemma enqueue_graphics_pipeline_no_index h ci p s :
  let s' := (enqueue_graphics_pipeline h ci p false s).2 in
  graphics_pipeline_index s' = graphics_pipeline_index s /\
  compute_pipeline_index s' = compute_pipeline_index s /\
  potential_graphics_parent s' = potential_graphics_parent s /\
  potential_compute_parent s' = potential_compute_parent s /\
  derived_graphics s' = derived_graphics s /\
  exists w, pipeline_work_queue s' = pipeline_work_queue s ++ [w]
            /\ contributes_to_index w = false.
Proof.
unfold enqueue_graphics_pipeline, graphics_work_item, push_work_item. simpl.
destruct (valid_handles ci); simpl; split_and!; try done; eexists; split; done.
Qed.

Lemma enqueue_compute_pipeline_no_index h ci p s :
  let s' := (enqueue_compute_pipeline h ci p false s).2 in
  graphics_pipeline_index s' = graphics_pipeline_index s /\
  compute_pipeline_index s' = compute_pipeline_index s /\
  potential_graphics_parent s' = potential_graphics_parent s /\
  potential_compute_parent s' = potential_compute_parent s /\
  derived_compute s' = derived_compute s /\
  exists w, pipeline_work_queue s' = pipeline_work_queue s ++ [w]
            /\ contributes_to_index w = false.
Proof.
unfold enqueue_compute_pipeline, compute_work_item, push_work_item. simpl.
case_bool_decide; simpl; split_and!; try done; eexists; split; done.
Qed.

(** The first loop of the resolver, on the graphics members: every work item
    it pushes does not contribute to the index, and neither index moves. *)
Lemma inject_graphics_parents_no_index (ds : list DeferredGraphicsInfo) s :
  stash_never_contributes s ->
  let s' := foldl (fun s d =>
                     inject_parent potential_graphics_parent
                       enqueue_graphics_pipeline d s) s ds in
  stash_never_contributes s' /\
  graphics_pipeline_index s' = graphics_pipeline_index s /\
  compute_pipeline_index s' = compute_pipeline_index s /\
  exists ws, pipeline_work_queue s' = pipeline_work_queue s ++ ws
             /\ Forall (fun w => contributes_to_index w = false) ws.
Proof.
revert s. induction ds as [|d ds IH]; intros s Hs; simpl.
- split_and!; try done. exists []. now rewrite app_nil_r.
- set (s1 := inject_parent _ _ d s).
  assert (H1 : stash_never_contributes s1 /\
               graphics_pipeline_index s1 = graphics_pipeline_index s /\
               compute_pipeline_index s1 = compute_pipeline_index s /\
               exists ws, pipeline_work_queue s1 = pipeline_work_queue s ++ ws
                 /\ Forall (fun w => contributes_to_index w = false) ws).
  { subst s1. unfold inject_parent.
    destruct (potential_graphics_parent s !! _) as [parent|] eqn:Hp.
    - destruct Hs as [Hg Hc]. rewrite (Hg _ _ Hp).
      pose proof (enqueue_graphics_pipeline_no_index (DeferredInfo.hash parent)
                    (DeferredInfo.info parent) (DeferredInfo.pipeline parent) s)
        as (Hgi & Hci & Hpg & Hpc & _ & w & Hq & Hw).
      destruct (enqueue_graphics_pipeline _ _ _ false s) as [ok s2]. simpl in *.
      split_and!; try done.
      + split; simpl; [|now rewrite Hpc].
        rewrite Hpg. now apply map_Forall_delete.
      + exists [w]. split; [done|]. now constructor.
    - split_and!; try done. exists []. now rewrite app_nil_r. }
  destruct H1 as (Hs1 & Hg1 & Hc1 & ws1 & Hq1 & Hw1).
  destruct (IH s1 Hs1) as (Hs2 & Hg2 & Hc2 & ws2 & Hq2 & Hw2).
  split_and!; try congruence.
  exists (ws1 ++ ws2). split.
  + now rewrite Hq2, Hq1, app_assoc.
  + now apply Forall_app.
Qed.



(** ** The deferred resolver terminates *)

Lemma worker_step_frame {T} (proj : ThreadedReplayer -> T) device s s' :
  (forall w s0, proj (process_work_item device w s0) = proj s0) ->
  (forall f s0, proj (s0 <| pipeline_work_queue ::= f |>) = proj s0) ->
  (forall f s0, proj (s0 <| completed_count ::= f |>) = proj s0) ->
  worker_step device s = Some s' -> proj s' = proj s.
Proof.
intros Hp Hq Hc. unfold worker_step.
destruct (pipeline_work_queue s); intros; simplify_eq.
now rewrite Hc, Hp, Hq.
Qed.

Lemma sync_worker_threads_frame {T} (proj : ThreadedReplayer -> T) device s :
  (forall w s0, proj (process_work_item device w s0) = proj s0) ->
  (forall f s0, proj (s0 <| pipeline_work_queue ::= f |>) = proj s0) ->
  (forall f s0, proj (s0 <| completed_count ::= f |>) = proj s0) ->
  proj (sync_worker_threads device s) = proj s.
Proof.
intros Hp Hq Hc. unfold sync_worker_threads.
apply (worker_run_ind (fun s' => proj s' = proj s)); [|done].
intros s1 s2 <- Hstep. eauto using worker_step_frame.
Qed.

Section resolver.
Context {Info : Type} `{PipelineCreateInfo Info}.
Variable derived : ThreadedReplayer -> list (DeferredInfo.t Info).
Variable potential_parent : ThreadedReplayer -> gmap Z (DeferredInfo.t Info).
Variable pipelines : ThreadedReplayer -> gmap Z Z.
Context `{!Setter derived, !Setter potential_parent, !Setter pipelines}.
Variable enqueue_pipeline :
  Z -> Info -> Z -> bool -> ThreadedReplayer -> bool * ThreadedReplayer.

(** What the template needs of the members it is instantiated with. *)
Hypothesis derived_set : forall f s, derived (s <| derived ::= f |>) = f (derived s).
Hypothesis pipelines_set_derived :
  forall f s, pipelines (s <| derived ::= f |>) = pipelines s.
Hypothesis derived_set_pipelines :
  forall f s, derived (s <| pipelines ::= f |>) = derived s.
Hypothesis derived_set_potential_parent :
  forall f s, derived (s <| potential_parent ::= f |>) = derived s.
Hypothesis derived_sync :
  forall device s, derived (sync_worker_threads device s) = derived s.
Hypothesis derived_enqueue :
  forall h ci p c s, derived (enqueue_pipeline h ci p c s).2 = derived s.
Hypothesis enqueue_returns_true :
  forall h ci p c s, (enqueue_pipeline h ci p c s).1 = true.

Local Abbreviation resolve_turn_ := (resolve_turn derived pipelines enqueue_pipeline).
Local Abbreviation resolve_loop_ := (resolve_loop derived pipelines enqueue_pipeline).
Local Abbreviation enqueue_resolved_ := (enqueue_resolved derived pipelines enqueue_pipeline).
Local Abbreviation parent_is_enqueued_ := (parent_is_enqueued pipelines).
Local Abbreviation inject_parents_ := (inject_parents derived potential_parent enqueue_pipeline).
Local Abbreviation resolvable_ := (resolvable pipelines).

Lemma enqueue_resolved_spec n i s :
  (enqueue_resolved_ n i s).1 = true /\
  length (derived (enqueue_resolved_ n i s).2) = length (derived s) /\
  take i (derived (enqueue_resolved_ n i s).2) = take i (derived s).
Proof.
revert i s. induction n as [|n IH]; intros i s; simpl; [done|].
destruct (derived s !! i) as [d|] eqn:Hd; [|done].
match goal with
| |- context [enqueue_pipeline ?h ?ci ?p ?c ?s0] =>
    pose proof (enqueue_returns_true h ci p c s0) as Hok;
    pose proof (derived_enqueue h ci p c s0) as Hfr;
    destruct (enqueue_pipeline h ci p c s0) as [ok s1]
end.
simpl in Hok, Hfr. subst ok.
rewrite derived_set, derived_set_pipelines in Hfr.
destruct (IH (S i) s1) as (IH1 & IH2 & IH3). split_and!; [done| |].
- now rewrite IH2, Hfr, length_insert.
- apply (f_equal (take i)) in IH3. rewrite !take_take in IH3.
  replace (i `min` S i)%nat with i in IH3 by lia.
  rewrite IH3, Hfr. apply take_insert_ge. lia.
Qed.

Lemma inject_parents_derived s : derived (inject_parents_ s) = derived s.
Proof.
unfold inject_parents. generalize (derived s) at 1 as ds. intros ds.
revert s. induction ds as [|d ds IH]; intros s; simpl; [done|].
rewrite IH. unfold inject_parent.
destruct (potential_parent s !! _) as [parent|]; [|done].
match goal with
| |- context [enqueue_pipeline ?h ?ci ?p ?c ?s0] =>
    pose proof (derived_enqueue h ci p c s0) as Hfr;
    destruct (enqueue_pipeline h ci p c s0) as [ok s1]
end.
now rewrite derived_set_potential_parent.
Qed.

Lemma parent_is_enqueued_true s d : parent_is_enqueued_ s d = true <-> resolvable_ s d.
Proof.
unfold parent_is_enqueued, resolvable.
now rewrite bool_decide_eq_true, elem_of_dom.
Qed.

Lemma parent_is_enqueued_false s d :
  parent_is_enqueued_ s d = false <-> ~ resolvable_ s d.
Proof. rewrite <- parent_is_enqueued_true. now destruct (parent_is_enqueued_ s d). Qed.

(** One turn of the loop. *)
Lemma resolve_turn_spec device s :
  turn_makes_progress derived pipelines enqueue_pipeline device s.
Proof.
unfold turn_makes_progress, resolve_turn.
destruct (derived s) as [|d0 ds] eqn:Hds; [done|].
rewrite <- Hds.
destruct (unstable_remove_if 0 (length (derived s)) (parent_is_enqueued_ s) (derived s))
  as [itr v] eqn:Hpart.
unfold unstable_remove_if in Hpart. rewrite Nat.sub_0_r in Hpart.
apply unstable_remove_if_loop_spec in Hpart
  as (Hitr & Hlen & Hlo & Hhi & _ & Hperm); [|simpl; lia].
simpl in Hitr, Hhi.
rewrite derived_set.
case_bool_decide as Hend.
- (* no element satisfies the predicate *)
  rewrite derived_set, pipelines_set_derived.
  split_and!; try done; [congruence|].
  rewrite <- Hperm. apply Forall_lookup. intros i d Hd.
  apply parent_is_enqueued_false. apply (Hlo i); [|done].
  apply lookup_lt_Some in Hd. lia.
- set (s1 := sync_worker_threads device (s <| derived := v |>)).
  assert (Hd1 : derived s1 = v) by (subst s1; now rewrite derived_sync, derived_set).
  rewrite Hd1.
  destruct (enqueue_resolved_spec (length v - itr) itr s1) as (Hok & Hlen2 & Hpre).
  destruct (enqueue_resolved_ (length v - itr) itr s1) as [ok s2].
  simpl in Hok, Hlen2, Hpre. subst ok. rewrite derived_set.
  rewrite Hd1 in Hpre.
  split_and!.
  + rewrite length_take. rewrite Hlen2, Hd1, Hlen. lia.
  + rewrite Hpre. apply Forall_lookup. intros i d Hd.
    apply parent_is_enqueued_false.
    assert (i < itr)%nat.
    { apply lookup_lt_Some in Hd. rewrite length_take in Hd. lia. }
    rewrite lookup_take_lt in Hd by done. apply (Hlo i); [lia|done].
  + exists (drop itr v). split_and!.
    * intros Hnil. apply (f_equal length) in Hnil.
      rewrite length_drop in Hnil. simpl in Hnil. lia.
    * apply Forall_lookup. intros i d Hd. rewrite lookup_drop in Hd.
      apply parent_is_enqueued_true. apply (Hhi (itr + i)%nat); [|done].
      apply lookup_lt_Some in Hd. lia.
    * now rewrite Hpre, take_drop.
Qed.

(** The turn returns false exactly on a non-empty list without a pipeline
    that can be resolved. *)
Lemma resolve_turn_false_iff device s :
  (exists s', resolve_turn_ device s = turn_return_false s') <->
  derived s <> [] /\ Forall (fun d => ~ resolvable_ s d) (derived s).
Proof.
pose proof (resolve_turn_spec device s) as Hturn.
unfold turn_makes_progress in Hturn. split.
- intros [s' Hs']. rewrite Hs' in Hturn. tauto.
- intros [Hne Hstuck]. destruct (resolve_turn_ device s) as [s'|s'|s'].
  + now destruct Hturn.
  + eauto.
  + destruct Hturn as (_ & _ & removed & Hrem & Hres & Hperm).
    destruct removed as [|d removed]; [done|].
    apply Forall_cons in Hres as [Hd _].
    rewrite <- Hperm in Hstuck.
    apply Forall_app in Hstuck as [_ Hstuck].
    apply Forall_cons in Hstuck as [Hnd _]. done.
Qed.

(** The loop ends within one turn more than there are deferred pipelines. *)
Lemma resolve_loop_spec device fuel s :
  (length (derived s) < fuel)%nat ->
  exists r, resolve_loop_ device fuel s = Some r
            /\ resolved_or_stuck derived pipelines r.
Proof.
revert s. induction fuel as [|fuel IH]; intros s Hfuel; [lia|]. simpl.
pose proof (resolve_turn_spec device s) as Hturn.
unfold turn_makes_progress in Hturn.
destruct (resolve_turn_ device s) as [s'|s'|s'].
- destruct Hturn as [Hnil ->]. eexists. split; [done|]. exact Hnil.
- destruct Hturn as (Hne & Hstuck & Hperm & Hmap).
  eexists. split; [done|]. unfold resolved_or_stuck. simpl. split.
  + intros Hnil. rewrite Hnil in Hperm. symmetry in Hperm.
    now apply Permutation_nil_r in Hperm.
  + rewrite Hperm. unfold resolvable. now rewrite Hmap.
- destruct Hturn as (Hlt & _). apply IH. lia.
Qed.

(** More fuel does not change the result. *)
Lemma resolve_loop_fuel device fuel fuel' s r :
  (fuel <= fuel')%nat ->
  resolve_loop_ device fuel s = Some r -> resolve_loop_ device fuel' s = Some r.
Proof.
revert fuel' s. induction fuel as [|fuel IH]; intros fuel' s Hle; [done|].
destruct fuel' as [|fuel']; [lia|]. simpl.
destruct (resolve_turn_ device s); try done. apply IH. lia.
Qed.

Lemma resolve_derived_pipelines_spec device fuel s :
  (length (derived s) < fuel)%nat ->
  exists r,
    resolve_derived_pipelines derived potential_parent pipelines enqueue_pipeline
      device fuel s = Some r
    /\ resolved_or_stuck derived pipelines r
    /\ forall fuel', (fuel <= fuel')%nat ->
         resolve_derived_pipelines derived potential_parent pipelines
           enqueue_pipeline device fuel' s = Some r.
Proof.
intros Hfuel. unfold resolve_derived_pipelines.
destruct (resolve_loop_spec device fuel (inject_parents_ s)) as (r & Hr & Hok).
{ now rewrite inject_parents_derived. }
exists r. split_and!; try done.
intros fuel' Hle. eauto using resolve_loop_fuel.
Qed.

End resolver.

(** The members that the two instances are made with meet the needs of the
    template. *)
Lemma derived_graphics_sync device s :
  derived_graphics (sync_worker_threads device s) = derived_graphics s.
Proof.
apply sync_worker_threads_frame; try done. intros. frame derived_graphics.
Qed.

Lemma derived_compute_sync device s :
  derived_compute (sync_worker_threads device s) = derived_compute s.
Proof.
apply sync_worker_threads_frame; try done. intros. frame derived_compute.
Qed.

Lemma derived_graphics_enqueue h ci p c s :
  derived_graphics (enqueue_graphics_pipeline h ci p c s).2 = derived_graphics s.
Proof. frame derived_graphics. Qed.

Lemma derived_compute_enqueue h ci p c s :
  derived_compute (enqueue_compute_pipeline h ci p c s).2 = derived_compute s.
Proof. frame derived_compute. Qed.

(** C2: the loop of [resolve_derived_pipelines] terminates. Each turn either
    ends the loop or removes from the deferred list at least one pipeline
    whose parent hash is a key of the handle map, and so leaves the list
    strictly shorter; it returns false exactly when the list is not empty and
    no parent hash of a deferred pipeline is a key of the handle map. One turn
    more than there are deferred pipelines is enough for the loop to return,
    and it returns true with the list empty or false with such a stuck
    list. *)
Theorem resolve_derived_pipelines_terminates device s :
  turn_makes_progress derived_graphics graphics_pipelines
    enqueue_graphics_pipeline device s /\
  turn_makes_progress derived_compute compute_pipelines
    enqueue_compute_pipeline device s /\
  ((exists s', resolve_turn derived_graphics graphics_pipelines
                 enqueue_graphics_pipeline device s = turn_return_false s') <->
   derived_graphics s <> [] /\
   Forall (fun d => ~ resolvable graphics_pipelines s d) (derived_graphics s)) /\
  ((exists s', resolve_turn derived_compute compute_pipelines
                 enqueue_compute_pipeline device s = turn_return_false s') <->
   derived_compute s <> [] /\
   Forall (fun d => ~ resolvable compute_pipelines s d) (derived_compute s)) /\
  (forall fuel, (length (derived_graphics s) < fuel)%nat ->
     resolve_derived_pipelines derived_graphics potential_graphics_parent
       graphics_pipelines enqueue_graphics_pipeline device fuel s
     = Some (resolve_derived_graphics_pipelines device s)) /\
  resolved_or_stuck derived_graphics graphics_pipelines
    (resolve_derived_graphics_pipelines device s) /\
  (forall fuel, (length (derived_compute s) < fuel)%nat ->
     resolve_derived_pipelines derived_compute potential_compute_parent
       compute_pipelines enqueue_compute_pipeline device fuel s
     = Some (resolve_derived_compute_pipelines device s)) /\
  resolved_or_stuck derived_compute compute_pipelines
    (resolve_derived_compute_pipelines device s).
Proof.
assert (Hg : forall fuel, (length (derived_graphics s) < fuel)%nat ->
  exists r,
    resolve_derived_pipelines derived_graphics potential_graphics_parent
      graphics_pipelines enqueue_graphics_pipeline device fuel s = Some r
    /\ resolved_or_stuck derived_graphics graphics_pipelines r
    /\ forall fuel', (fuel <= fuel')%nat ->
         resolve_derived_pipelines derived_graphics potential_graphics_parent
           graphics_pipelines enqueue_graphics_pipeline device fuel' s = Some r).
{ intros fuel Hfuel. apply resolve_derived_pipelines_spec;
    auto using derived_graphics_sync, derived_graphics_enqueue. }
assert (Hc : forall fuel, (length (derived_compute s) < fuel)%nat ->
  exists r,
    resolve_derived_pipelines derived_compute potential_compute_parent
      compute_pipelines enqueue_compute_pipeline device fuel s = Some r
    /\ resolved_or_stuck derived_compute compute_pipelines r
    /\ forall fuel', (fuel <= fuel')%nat ->
         resolve_derived_pipelines derived_compute potential_compute_parent
           compute_pipelines enqueue_compute_pipeline device fuel' s = Some r).
{ intros fuel Hfuel. apply resolve_derived_pipelines_spec;
    auto using derived_compute_sync, derived_compute_enqueue. }
split_and!.
- apply resolve_turn_spec;
    auto using derived_graphics_sync, derived_graphics_enqueue.
- apply resolve_turn_spec;
    auto using derived_compute_sync, derived_compute_enqueue.
- apply resolve_turn_false_iff;
    auto using derived_graphics_sync, derived_graphics_enqueue.
- apply resolve_turn_false_iff;
    auto using derived_compute_sync, derived_compute_enqueue.
- intros fuel Hfuel. unfold resolve_derived_graphics_pipelines, resolve_fuel.
  destruct (Hg (S (length (derived_graphics s)))) as (r & Hr & _ & _); [lia|].
  destruct (Hg fuel Hfuel) as (r' & Hr' & _ & Hmono).
  rewrite Hr, Hr'. simpl. f_equal.
  destruct (decide (fuel <= S (length (derived_graphics s)))%nat).
  + rewrite Hmono in Hr by done. congruence.
  + destruct (Hg (S (length (derived_graphics s)))) as (r2 & Hr2 & _ & Hmono2); [lia|].
    rewrite Hmono2 in Hr' by lia. congruence.
- unfold resolve_derived_graphics_pipelines, resolve_fuel.
  destruct (Hg (S (length (derived_graphics s)))) as (r & -> & Hok & _); [lia|].
  exact Hok.
- intros fuel Hfuel. unfold resolve_derived_compute_pipelines, resolve_fuel.
  destruct (Hc (S (length (derived_compute s)))) as (r & Hr & _ & _); [lia|].
  destruct (Hc fuel Hfuel) as (r' & Hr' & _ & Hmono).
  rewrite Hr, Hr'. simpl. f_equal.
  destruct (decide (fuel <= S (length (derived_compute s)))%nat).
  + rewrite Hmono in Hr by done. congruence.
  + destruct (Hc (S (length (derived_compute s)))) as (r2 & Hr2 & _ & Hmono2); [lia|].
    rewrite Hmono2 in Hr' by lia. congruence.
- unfold resolve_derived_compute_pipelines, resolve_fuel.
  destruct (Hc (S (length (derived_compute s)))) as (r & -> & Hok & _); [lia|].
  exact Hok.
Qed.

(** ** The orchestrator: order and barrier *)

Lemma play_tags_app device db tags1 tags2 s :
  play_tags device db (tags1 ++ tags2) s
  = match play_tags device db tags1 s with
    | (Running s', evs) =>
        let '(p, evs') := play_tags device db tags2 s' in (p, evs ++ evs')
    | (Exited code s', evs) => (Exited code s', evs)
    end.
Proof.
revert s. induction tags1 as [|t tags1 IH]; intros s; simpl.
- now destruct (play_tags device db tags2 s).
- destruct (play_tag device db t s) as [[s1|code s1] evs]; [|done].
  rewrite IH. destruct (play_tags device db tags1 s1) as [[s2|code s2] evs1].
  + destruct (play_tags device db tags2 s2) as [p evs2]. now rewrite app_assoc.
  + done.
Qed.

Lemma after_tag_events device tag_ s :
  exists resolve, (after_tag device tag_ s).2 = tag_epilogue tag_ resolve.
Proof.
unfold after_tag. destruct tag_; simpl;
  try (exists false; reflexivity);
  try (destruct (bool_decide _); [exists false|exists true]; reflexivity).
Qed.

(** The events of a tag: its decoding and its epilogue, or an initial segment
    of them when the process exits. *)
Lemma play_tag_events device db tag_ s :
  exists resolve,
    let full := ev_decode tag_ :: tag_epilogue tag_ resolve in
    match play_tag device db tag_ s with
    | (Running _, evs) => evs = full
    | (Exited code _, evs) => evs `prefix_of` full /\ code = EXIT_FAILURE
    end.
Proof.
unfold play_tag.
destruct (entries_for_resource_tag db tag_) as [entries|].
- destruct (play_entries device entries s) as [s'|code s'] eqn:Hplay.
  + destruct (after_tag_events device tag_ s') as [resolve Hev].
    exists resolve. destruct (after_tag device tag_ s') as [s'' evs].
    simpl in *. now subst.
  + exists false. simpl. split; [now eexists|].
    clear -Hplay. revert s Hplay.
    induction entries as [|[|calls] entries IH]; intros s; simpl; try done.
    * now intros [= <- _].
    * destruct (parse device calls s) as [s1|code1 s1] eqn:Hparse; [apply IH|].
      intros [= <- _]. clear -Hparse. revert s Hparse.
      induction calls as [|c calls IHc]; intros s; simpl; [done|].
      destruct (sink_call device c s) as [s2|code2 s2] eqn:Hc; [apply IHc|].
      intros [= <- _]. destruct c; simpl in Hc; try done.
      destruct (set_application_info device s); simplify_eq; done.
- exists false. simpl. split; [apply prefix_nil|done].
Qed.

(** The events of a list of tags without repetition. *)
Lemma play_tags_events device db tags s :
  NoDup tags ->
  exists resolve : ResourceTag -> bool,
    let full := mjoin ((fun t => ev_decode t :: tag_epilogue t (resolve t)) <$> tags) in
    match play_tags device db tags s with
    | (Running _, evs) => evs = full
    | (Exited code _, evs) => evs `prefix_of` full /\ code = EXIT_FAILURE
    end.
Proof.
revert s. induction tags as [|t tags IH]; intros s Hnd.
- now exists (fun _ => false).
- cbn [play_tags]. apply NoDup_cons in Hnd as [Hnotin Hnd].
  destruct (play_tag_events device db t s) as [r Ht].
  destruct (play_tag device db t s) as [[s1|code s1] evs]; simpl in Ht.
  + destruct (IH s1 Hnd) as [resolve Hrest].
    exists (fun x => if decide (x = t) then r else resolve x).
    cbv zeta. rewrite fmap_cons.
    assert (Hsame : (fun t0 => ev_decode t0
                       :: tag_epilogue t0 (if decide (t0 = t) then r else resolve t0))
                    <$> tags
                    = (fun t0 => ev_decode t0 :: tag_epilogue t0 (resolve t0)) <$> tags).
    { apply list_fmap_ext. intros i x Hx.
      rewrite decide_False; [done|]. intros ->.
      apply Hnotin. eapply list_elem_of_lookup_2. eauto. }
    rewrite Hsame. simpl. rewrite decide_True by done. simpl in Hrest.
    destruct (play_tags device db tags s1) as [[s2|code s2] evs2]; subst evs.
    * now rewrite Hrest.
    * destruct Hrest as [Hpre ->]. split; [|done].
      apply prefix_cons, prefix_app, Hpre.
  + exists (fun _ => r). destruct Ht as [Hpre ->]. split; [|done].
    rewrite fmap_cons. simpl. destruct Hpre as [k Hk]. exists (k ++ mjoin
      ((fun t0 => ev_decode t0 :: tag_epilogue t0 r) <$> tags)).
    simpl in Hk. rewrite app_comm_cons, Hk. now rewrite <- app_assoc.
Qed.

Lemma playback_order_NoDup : NoDup playback_order.
Proof.
unfold playback_order.
repeat (apply NoDup_cons; split;
        [rewrite ?elem_of_cons, elem_of_nil; intros H; repeat destruct H as [H|H];
         done|]).
apply NoDup_nil_2.
Qed.

Lemma run_normal_process_events device db replayer :
  exists resolve_graphics resolve_compute,
    let '(code, _, events) := run_normal_process device db replayer in
    events `prefix_of` schedule resolve_graphics resolve_compute /\
    (code = EXIT_SUCCESS -> events = schedule resolve_graphics resolve_compute).
Proof.
unfold run_normal_process.
destruct (prepare db).
- destruct (play_tags_events device db playback_order replayer playback_order_NoDup)
    as [resolve Hev].
  exists (resolve RESOURCE_GRAPHICS_PIPELINE), (resolve RESOURCE_COMPUTE_PIPELINE).
  destruct (play_tags device db playback_order replayer) as [[s|code s] evs].
  + simpl in Hev. subst evs. split; [|intros _]; simpl;
      destruct (resolve RESOURCE_GRAPHICS_PIPELINE),
               (resolve RESOURCE_COMPUTE_PIPELINE); done.
  + destruct Hev as [Hpre ->]. split; [|done].
    etrans; [exact Hpre|]. simpl.
    destruct (resolve RESOURCE_GRAPHICS_PIPELINE),
             (resolve RESOURCE_COMPUTE_PIPELINE); simpl;
      repeat apply prefix_cons; try apply prefix_nil; eexists; reflexivity.
- exists false, false. split; [apply prefix_nil|done].
Qed.

(** *** The barrier *)

Lemma process_work_item_queue device w s :
  pipeline_work_queue (process_work_item device w s) = pipeline_work_queue s.
Proof. frame pipeline_work_queue. Qed.

Lemma worker_step_queue device s s' :
  worker_step device s = Some s' ->
  exists w, pipeline_work_queue s = w :: pipeline_work_queue s'
            /\ s' = process_work_item device w
                      (s <| pipeline_work_queue := pipeline_work_queue s' |>)
                    <| completed_count ::= incr |>.
Proof.
unfold worker_step. destruct (pipeline_work_queue s) as [|w rest] eqn:Hq; [done|].
intros [= <-]. exists w. simpl. now rewrite process_work_item_queue.
Qed.

Lemma worker_run_queue device n s :
  length (pipeline_work_queue s) = n ->
  pipeline_work_queue (worker_run device n s) = [].
Proof.
revert s. induction n as [|n IH]; intros s Hlen; simpl.
- now apply nil_length_inv.
- destruct (worker_step device s) as [s'|] eqn:Hstep.
  + apply worker_step_queue in Hstep as (w & Hq & _).
    apply IH. rewrite Hq in Hlen. simpl in Hlen. lia.
  + unfold worker_step in Hstep.
    destruct (pipeline_work_queue s); [done|discriminate].
Qed.

(** After the barrier no work item is waiting. *)
Lemma sync_worker_threads_queue device s :
  pipeline_work_queue (sync_worker_threads device s) = [].
Proof. now apply worker_run_queue. Qed.

Lemma process_work_item_shader_modules device w s :
  tag w <> RESOURCE_SHADER_MODULE ->
  shader_modules (process_work_item device w s) = shader_modules s.
Proof.
intros Htag. unfold process_work_item.
destruct (tag w) eqn:Ht; try done; frame shader_modules.
Qed.

Lemma sync_worker_threads_settled device modules s :
  shader_modules_settled modules s ->
  shader_modules_settled modules (sync_worker_threads device s).
Proof.
unfold sync_worker_threads.
apply (worker_run_ind (shader_modules_settled modules)).
intros s1 s2 [Hm Hq] Hstep.
apply worker_step_queue in Hstep as (w & Hqueue & ->).
rewrite Hqueue in Hq. apply Forall_cons in Hq as [Hw Hrest].
split; simpl.
- now rewrite process_work_item_shader_modules.
- now rewrite process_work_item_queue.
Qed.

Lemma push_work_item_settled modules w s :
  tag w <> RESOURCE_SHADER_MODULE ->
  shader_modules_settled modules s ->
  shader_modules_settled modules (push_work_item w s).
Proof.
intros Hw [Hm Hq]. split; simpl; [done|].
apply Forall_app. split; [done|]. now constructor.
Qed.

(** The enqueue functions for pipelines keep the shader modules settled. *)
Ltac settled_cases :=
  match goal with
  | Hs : shader_modules_settled _ _ |- _ => destruct Hs as [Hm Hq]
  end;
  unfold shader_modules_settled;
  repeat first
    [ progress simpl
    | progress autounfold with replayer_ops
    | match goal with
      | |- context [match ?x with _ => _ end] =>
          lazymatch x with
          | context [match _ with _ => _ end] => fail
          | _ => destruct x eqn:?
          end
      end ];
  (split; [done|]);
  try done;
  (apply Forall_app; split; [done|]); now constructor.

Lemma enqueue_graphics_pipeline_settled modules h ci p c s :
  shader_modules_settled modules s ->
  shader_modules_settled modules (enqueue_graphics_pipeline h ci p c s).2.
Proof. intros Hs. settled_cases. Qed.

Lemma enqueue_compute_pipeline_settled modules h ci p c s :
  shader_modules_settled modules s ->
  shader_modules_settled modules (enqueue_compute_pipeline h ci p c s).2.
Proof. intros Hs. settled_cases. Qed.

Lemma enqueue_create_graphics_pipeline_settled modules h ci p s :
  shader_modules_settled modules s ->
  shader_modules_settled modules (enqueue_create_graphics_pipeline h ci p s).2.
Proof. intros Hs. settled_cases. Qed.

Lemma enqueue_create_compute_pipeline_settled modules h ci p s :
  shader_modules_settled modules s ->
  shader_modules_settled modules (enqueue_create_compute_pipeline h ci p s).2.
Proof. intros Hs. settled_cases. Qed.

(** An invariant of the steps of the resolver is an invariant of the
    resolver. *)
Section resolver_invariant.
Context {Info : Type} `{PipelineCreateInfo Info}.
Variable derived : ThreadedReplayer -> list (DeferredInfo.t Info).
Variable potential_parent : ThreadedReplayer -> gmap Z (DeferredInfo.t Info).
Variable pipelines : ThreadedReplayer -> gmap Z Z.
Context `{!Setter derived, !Setter potential_parent, !Setter pipelines}.
Variable enqueue_pipeline :
  Z -> Info -> Z -> bool -> ThreadedReplayer -> bool * ThreadedReplayer.
Variable device : VulkanDevice.
Variable P : ThreadedReplayer -> Prop.

Hypothesis P_set_derived : forall f s, P s -> P (s <| derived ::= f |>).
Hypothesis P_set_potential_parent :
  forall f s, P s -> P (s <| potential_parent ::= f |>).
Hypothesis P_touch_pipelines : forall k s, P s -> P (s <| pipelines ::= touch k |>).
Hypothesis P_sync : forall s, P s -> P (sync_worker_threads device s).
Hypothesis P_enqueue : forall h ci p c s, P s -> P (enqueue_pipeline h ci p c s).2.

Lemma inject_parents_invariant s :
  P s -> P (inject_parents derived potential_parent enqueue_pipeline s).
Proof.
unfold inject_parents. generalize (derived s). intros ds. revert s.
induction ds as [|d ds IH]; intros s Hs; simpl; [done|].
apply IH. unfold inject_parent.
destruct (potential_parent s !! _) as [parent|]; [|done].
match goal with
| |- context [enqueue_pipeline ?h ?ci ?p ?c ?s0] =>
    pose proof (P_enqueue h ci p c s0 Hs) as Hs1;
    destruct (enqueue_pipeline h ci p c s0) as [ok s1]
end.
now apply P_set_potential_parent.
Qed.

Lemma enqueue_resolved_invariant n i s :
  P s -> P (enqueue_resolved derived pipelines enqueue_pipeline n i s).2.
Proof.
revert i s. induction n as [|n IH]; intros i s Hs; simpl; [done|].
destruct (derived s !! i) as [d|]; [|done].
match goal with
| |- context [enqueue_pipeline ?h ?ci ?p ?c ?s0] =>
    assert (Hs1 : P (enqueue_pipeline h ci p c s0).2)
      by (apply P_enqueue, P_set_derived, P_touch_pipelines, Hs);
    destruct (enqueue_pipeline h ci p c s0) as [ok s1]
end.
destruct ok; [|done]. now apply IH.
Qed.

Lemma resolve_turn_invariant s :
  P s ->
  match resolve_turn derived pipelines enqueue_pipeline device s with
  | turn_done s' | turn_return_false s' | turn_again s' => P s'
  end.
Proof.
intros Hs. unfold resolve_turn.
destruct (derived s) as [|d0 ds]; [done|].
destruct (unstable_remove_if _ _ _ _) as [itr v].
case_bool_decide; [now apply P_set_derived|].
match goal with
| |- context [enqueue_resolved _ _ _ ?n ?i ?s0] =>
    assert (Hs1 : P (enqueue_resolved derived pipelines enqueue_pipeline n i s0).2)
      by (apply enqueue_resolved_invariant, P_sync, P_set_derived, Hs);
    destruct (enqueue_resolved derived pipelines enqueue_pipeline n i s0) as [ok s1]
end.
destruct ok; [|done]. now apply P_set_derived.
Qed.

Lemma resolve_derived_pipelines_invariant fuel s r :
  P s ->
  resolve_derived_pipelines derived potential_parent pipelines enqueue_pipeline
    device fuel s = Some r ->
  P r.2.
Proof.
unfold resolve_derived_pipelines. intros Hs%inject_parents_invariant.
revert Hs. generalize (inject_parents derived potential_parent enqueue_pipeline s).
clear s. induction fuel as [|fuel IH]; intros s Hs; simpl; [done|].
pose proof (resolve_turn_invariant s Hs) as Hturn.
destruct (resolve_turn derived pipelines enqueue_pipeline device s) as [s'|s'|s'].
- now intros [= <-].
- now intros [= <-].
- now apply IH.
Qed.

End resolver_invariant.

Lemma resolve_derived_graphics_pipelines_settled device modules s :
  shader_modules_settled modules s ->
  shader_modules_settled modules (resolve_derived_graphics_pipelines device s).2.
Proof.
intros Hs. unfold resolve_derived_graphics_pipelines.
destruct (resolve_derived_pipelines _ _ _ _ _ _ _) as [r|] eqn:Hr; [|done].
simpl.
eapply (resolve_derived_pipelines_invariant derived_graphics
          potential_graphics_parent graphics_pipelines enqueue_graphics_pipeline
          device (shader_modules_settled modules)); try exact Hr; try done;
  auto using sync_worker_threads_settled, enqueue_graphics_pipeline_settled.
Qed.

Lemma resolve_derived_compute_pipelines_settled device modules s :
  shader_modules_settled modules s ->
  shader_modules_settled modules (resolve_derived_compute_pipelines device s).2.
Proof.
intros Hs. unfold resolve_derived_compute_pipelines.
destruct (resolve_derived_pipelines _ _ _ _ _ _ _) as [r|] eqn:Hr; [|done].
simpl.
eapply (resolve_derived_pipelines_invariant derived_compute
          potential_compute_parent compute_pipelines enqueue_compute_pipeline
          device (shader_modules_settled modules)); try exact Hr; try done;
  auto using sync_worker_threads_settled, enqueue_compute_pipeline_settled.
Qed.

Lemma sink_call_settled device modules c s :
  pipeline_call c ->
  shader_modules_settled modules s ->
  exists s', sink_call device c s = Running s' /\ shader_modules_settled modules s'.
Proof.
intros Hc Hs. destruct c; try done; simpl; eexists; (split; [done|]).
- now apply enqueue_create_graphics_pipeline_settled.
- now apply enqueue_create_compute_pipeline_settled.
- now apply sync_worker_threads_settled.
Qed.

Lemma parse_settled device modules calls s :
  Forall pipeline_call calls ->
  shader_modules_settled modules s ->
  exists s', parse device calls s = Running s' /\ shader_modules_settled modules s'.
Proof.
intros Hcalls. revert s. induction Hcalls as [|c calls Hc _ IH]; intros s Hs; simpl.
- eauto.
- destruct (sink_call_settled device modules c s Hc Hs) as (s1 & -> & Hs1). eauto.
Qed.

Lemma play_entries_settled device modules entries s :
  Forall pipeline_entry entries ->
  shader_modules_settled modules s ->
  shader_modules_settled modules (process_state (play_entries device entries s)).
Proof.
intros Hentries. revert s.
induction Hentries as [|[|calls] entries He _ IH]; intros s Hs; simpl; try done.
destruct (parse_settled device modules calls s He Hs) as (s1 & -> & Hs1). eauto.
Qed.

Lemma after_tag_settled device modules tag_ s :
  shader_modules_settled modules s ->
  shader_modules_settled modules (after_tag device tag_ s).1.
Proof.
intros Hs. unfold after_tag.
repeat case_match; simpl;
  auto using sync_worker_threads_settled, resolve_derived_graphics_pipelines_settled,
    resolve_derived_compute_pipelines_settled.
Qed.

Lemma play_tags_settled device db modules tags s :
  pipeline_tags_enqueue_pipelines db ->
  tags ⊆ pipeline_tags ->
  shader_modules_settled modules s ->
  shader_modules_settled modules (process_state (play_tags device db tags s).1).
Proof.
intros Hdb. revert s. induction tags as [|t tags IH]; intros s Htags Hs; simpl; [done|].
unfold play_tag.
destruct (entries_for_resource_tag db t) as [entries|] eqn:Hent; [|done].
assert (He : Forall pipeline_entry entries).
{ eapply Hdb; [|exact Hent]. apply Htags. now left. }
pose proof (play_entries_settled device modules entries s He Hs) as Hs1.
destruct (play_entries device entries s) as [s1|code s1]; simpl in Hs1; [|done].
pose proof (after_tag_settled device modules t s1 Hs1) as Hs2.
destruct (after_tag device t s1) as [s2 evs]. simpl in Hs2.
assert (Htags' : tags ⊆ pipeline_tags).
{ intros x Hx. apply Htags. now right. }
specialize (IH s2 Htags' Hs2).
now destruct (play_tags device db tags s2) as [p evs2].
Qed.

Lemma tear_down_threads_settled modules s :
  shader_modules_settled modules s ->
  shader_modules_settled modules (tear_down_threads s).
Proof. intros Hs. unfold tear_down_threads. now destruct (shutting_down s). Qed.


(** The sample archive runs through the whole schedule. *)
Example sample_run_events :
  (run_normal_process Sample.device Sample.archive (Sample.replayer 1)).2
  = schedule true false.
Proof. reflexivity. Qed.

(** ** Two runs that differ in [loop_count]: the worker *)

(** The fields that only the main thread writes. *)
Lemma process_work_item_opts device w s :
  opts (process_work_item device w s) = opts s.
Proof. frame opts. Qed.

Lemma process_work_item_loop_count device w s :
  loop_count (process_work_item device w s) = loop_count s.
Proof. frame loop_count. Qed.

Lemma process_work_item_graphics_pipeline_index device w s :
  graphics_pipeline_index (process_work_item device w s) = graphics_pipeline_index s.
Proof. frame graphics_pipeline_index. Qed.

Lemma process_work_item_compute_pipeline_index device w s :
  compute_pipeline_index (process_work_item device w s) = compute_pipeline_index s.
Proof. frame compute_pipeline_index. Qed.

Lemma process_work_item_device_was_init device w s :
  device_was_init (process_work_item device w s) = device_was_init s.
Proof. frame device_was_init. Qed.

Lemma process_work_item_shutting_down device w s :
  shutting_down (process_work_item device w s) = shutting_down s.
Proof. frame shutting_down. Qed.

Lemma process_work_item_potential_graphics_parent device w s :
  potential_graphics_parent (process_work_item device w s)
  = potential_graphics_parent s.
Proof. frame potential_graphics_parent. Qed.

Lemma process_work_item_potential_compute_parent device w s :
  potential_compute_parent (process_work_item device w s)
  = potential_compute_parent s.
Proof. frame potential_compute_parent. Qed.

Lemma process_work_item_graphics_pipeline_count device w s :
  graphics_pipeline_count (process_work_item device w s) = graphics_pipeline_count s.
Proof. frame graphics_pipeline_count. Qed.

Lemma process_work_item_compute_pipeline_count device w s :
  compute_pipeline_count (process_work_item device w s) = compute_pipeline_count s.
Proof. frame compute_pipeline_count. Qed.

Lemma process_work_item_shader_module_count device w s :
  shader_module_count (process_work_item device w s) = shader_module_count s.
Proof. frame shader_module_count. Qed.

Lemma process_work_item_derived_graphics device w s :
  derived_graphics (process_work_item device w s) = derived_graphics s.
Proof. frame derived_graphics. Qed.

Lemma process_work_item_derived_compute device w s :
  derived_compute (process_work_item device w s) = derived_compute s.
Proof. frame derived_compute. Qed.

Create Rewrite HintDb worker_frame.
#[global] Hint Rewrite process_work_item_opts process_work_item_loop_count
  process_work_item_graphics_pipeline_index
  process_work_item_compute_pipeline_index process_work_item_masked
  process_work_item_device_was_init
  process_work_item_shutting_down process_work_item_potential_graphics_parent
  process_work_item_potential_compute_parent process_work_item_queue
  process_work_item_graphics_pipeline_count
  process_work_item_compute_pipeline_count
  process_work_item_shader_module_count process_work_item_derived_graphics
  process_work_item_derived_compute : worker_frame.

(** *** Counters *)

Lemma iter_incr n x : Nat.iter n incr (u32 x) = u32 (x + Z.of_nat n).
Proof.
induction n as [|n IH].
- simpl. now rewrite Z.add_0_r.
- rewrite Nat.iter_succ, IH. unfold incr, fetch_add, u32.
  rewrite Zplus_mod_idemp_l. f_equal. lia.
Qed.

Lemma scaled_iter k ck c1 :
  0 <= k -> scaled k ck c1 ->
  scaled k (Nat.iter (Z.to_nat k) incr ck) (incr c1).
Proof.
intros Hk [-> Hc]. unfold scaled. split.
- rewrite iter_incr, Z2Nat.id by done. unfold incr, fetch_add, u32.
  rewrite Zmult_mod_idemp_r. f_equal. lia.
- unfold incr, fetch_add, u32. apply Z.mod_pos_bound. lia.
Qed.

Lemma scaled_zero ck c1 c1' : scaled 0 ck c1 -> 0 <= c1' -> scaled 0 ck c1'.
Proof. intros [-> _] H. unfold scaled. split; [|done]. now rewrite !Z.mul_0_l. Qed.

Lemma incr_nonneg c : 0 <= incr c.
Proof. unfold incr, fetch_add, u32. apply Z.mod_pos_bound. lia. Qed.

Lemma scaled_fetch_add k ck c1 tk t1 :
  scaled k ck c1 -> scaled k tk t1 ->
  scaled k (fetch_add ck tk) (fetch_add c1 t1).
Proof.
intros [-> Hc] [-> Ht]. unfold scaled, fetch_add, u32. split.
- rewrite <- Zplus_mod, Zmult_mod_idemp_r. f_equal. lia.
- apply Z.mod_pos_bound. lia.
Qed.

(** *** Stores through a pointer *)

Lemma store_store p v v' (m : gmap Z Z) : store p v (store p v' m) = store p v m.
Proof. destruct p; simpl; [apply insert_insert_eq|done]. Qed.

Lemma load_store p v (m : gmap Z Z) :
  load p (store p v m) = match p with Some _ => v | None => VK_NULL_HANDLE end.
Proof. destruct p; simpl; [now rewrite lookup_insert_eq|done]. Qed.

Lemma dom_store p v (m : gmap Z Z) :
  match p with Some key => key ∈ dom m | None => True end ->
  dom (store p v m) = dom m.
Proof.
destruct p as [key|]; simpl; [|done]. intros Hin.
rewrite dom_insert_L. set_solver.
Qed.

Lemma dom_touch key (m : gmap Z Z) : dom (touch key m) = {[key]} ∪ dom m.
Proof.
unfold touch. destruct (m !! key) eqn:E.
- assert (key ∈ dom m) by (apply elem_of_dom; eauto). set_solver.
- apply dom_insert_L.
Qed.

(** *** What the three loops do when every create call succeeds *)

Lemma vkCreate_success device out s :
  all_creates_succeed device ->
  exists h, h <> VK_NULL_HANDLE /\
    vkCreate device out s
    = (true, s <| device_calls ::= N.succ |> <| output_mem ::= store out h |>).
Proof.
intros Hok. unfold vkCreate.
destruct (Hok (device_calls s)) as (h & -> & Hh). eauto.
Qed.

Lemma graphics_loop_effect device w n i s :
  all_creates_succeed device ->
  let s' := for_range n i (graphics_pipeline_iteration device w) s in
  graphics_count s'
  = Nat.iter (if contributes_to_index w then n else 0) incr (graphics_count s) /\
  (n = 0%nat -> graphics_pipelines s' = graphics_pipelines s) /\
  (n <> 0%nat ->
   exists v, graphics_pipelines s' = store (hash_map_entry w) v (graphics_pipelines s)
             /\ (v = VK_NULL_HANDLE <-> output w = None)).
Proof.
intros Hok. revert i s. induction n as [|n IH]; intros i s; cbn [for_range].
- split_and!; try done. now destruct (contributes_to_index w).
- destruct (IH (i + 1) (graphics_pipeline_iteration device w i s))
    as (Hcount & Hzero & Hpos).
  assert (Hbody :
    graphics_count (graphics_pipeline_iteration device w i s)
    = (if contributes_to_index w then incr (graphics_count s) else graphics_count s)
    /\ exists v, graphics_pipelines (graphics_pipeline_iteration device w i s)
                 = store (hash_map_entry w) v (graphics_pipelines s)
                 /\ (v = VK_NULL_HANDLE <-> output w = None)).
  { unfold graphics_pipeline_iteration.
    destruct (vkCreate_success device (output w)
                (s <| graphics_pipelines ::= store (hash_map_entry w) VK_NULL_HANDLE |>)
                Hok) as (h & Hh & ->).
    unfold control_block_incr.
    split.
    - destruct (contributes_to_index w), (bool_decide (i = 0)); done.
    - exists (load (output w) (store (output w) h (output_mem s))). split.
      + destruct (contributes_to_index w), (bool_decide (i = 0)); simpl;
          now rewrite store_store.
      + rewrite load_store. destruct (output w); split; done. }
  destruct Hbody as (Hc0 & v0 & Hv0 & Hnull0).
  split_and!; try done.
  + rewrite Hcount, Hc0. destruct (contributes_to_index w); [|done].
    now rewrite Nat.iter_succ_r.
  + intros _. destruct n as [|n].
    * exists v0. now rewrite Hzero.
    * destruct Hpos as (v & Hv & Hnull); [done|].
      exists v. split; [|done]. now rewrite Hv, Hv0, store_store.
Qed.

Lemma compute_loop_effect device w n i s :
  all_creates_succeed device ->
  let s' := for_range n i (compute_pipeline_iteration device w) s in
  compute_count s'
  = Nat.iter (if contributes_to_index w then n else 0) incr (compute_count s) /\
  (n = 0%nat -> compute_pipelines s' = compute_pipelines s) /\
  (n <> 0%nat ->
   exists v, compute_pipelines s' = store (hash_map_entry w) v (compute_pipelines s)
             /\ (v = VK_NULL_HANDLE <-> output w = None)).
Proof.
intros Hok. revert i s. induction n as [|n IH]; intros i s; cbn [for_range].
- split_and!; try done. now destruct (contributes_to_index w).
- destruct (IH (i + 1) (compute_pipeline_iteration device w i s))
    as (Hcount & Hzero & Hpos).
  assert (Hbody :
    compute_count (compute_pipeline_iteration device w i s)
    = (if contributes_to_index w then incr (compute_count s) else compute_count s)
    /\ exists v, compute_pipelines (compute_pipeline_iteration device w i s)
                 = store (hash_map_entry w) v (compute_pipelines s)
                 /\ (v = VK_NULL_HANDLE <-> output w = None)).
  { unfold compute_pipeline_iteration.
    destruct (vkCreate_success device (output w)
                (s <| compute_pipelines ::= store (hash_map_entry w) VK_NULL_HANDLE |>)
                Hok) as (h & Hh & ->).
    unfold control_block_incr.
    split.
    - destruct (contributes_to_index w), (bool_decide (i = 0)); done.
    - exists (load (output w) (store (output w) h (output_mem s))). split.
      + destruct (contributes_to_index w), (bool_decide (i = 0)); simpl;
          now rewrite store_store.
      + rewrite load_store. destruct (output w); split; done. }
  destruct Hbody as (Hc0 & v0 & Hv0 & Hnull0).
  split_and!; try done.
  + rewrite Hcount, Hc0. destruct (contributes_to_index w); [|done].
    now rewrite Nat.iter_succ_r.
  + intros _. destruct n as [|n].
    * exists v0. now rewrite Hzero.
    * destruct Hpos as (v & Hv & Hnull); [done|].
      exists v. split; [|done]. now rewrite Hv, Hv0, store_store.
Qed.

Lemma shader_loop_effect device w n i s :
  all_creates_succeed device ->
  let s' := for_range n i (shader_module_iteration device w) s in
  shader_count s' = Nat.iter n incr (shader_count s) /\
  (n = 0%nat -> shader_modules s' = shader_modules s) /\
  (n <> 0%nat ->
   exists v, shader_modules s' = store (hash_map_entry w) v (shader_modules s)
             /\ (v = VK_NULL_HANDLE <-> output w = None)).
Proof.
intros Hok. revert i s. induction n as [|n IH]; intros i s; cbn [for_range].
- done.
- destruct (IH (i + 1) (shader_module_iteration device w i s))
    as (Hcount & Hzero & Hpos).
  assert (Hbody :
    shader_count (shader_module_iteration device w i s) = incr (shader_count s)
    /\ exists v, shader_modules (shader_module_iteration device w i s)
                 = store (hash_map_entry w) v (shader_modules s)
                 /\ (v = VK_NULL_HANDLE <-> output w = None)).
  { unfold shader_module_iteration.
    destruct (vkCreate_success device (output w)
                (s <| shader_modules ::= store (hash_map_entry w) VK_NULL_HANDLE |>)
                Hok) as (h & Hh & ->).
    split.
    - simpl. destruct (robustness s); done.
    - exists (load (output w) (store (output w) h (output_mem s))). split.
      + simpl. destruct (robustness s); simpl; now rewrite store_store.
      + rewrite load_store. destruct (output w); split; done. }
  destruct Hbody as (Hc0 & v0 & Hv0 & Hnull0).
  split_and!; try done.
  + rewrite Hcount, Hc0. now rewrite Nat.iter_succ_r.
  + intros _. destruct n as [|n].
    * exists v0. now rewrite Hzero.
    * destruct Hpos as (v & Hv & Hnull); [done|].
      exists v. split; [|done]. now rewrite Hv, Hv0, store_store.
Qed.

(** *** What the worker does to the maps and the counts *)

Lemma snapshot_failed_modules_graphics_pipelines ci s :
  graphics_pipelines (snapshot_failed_modules ci s) = graphics_pipelines s.
Proof. frame graphics_pipelines. Qed.

Lemma snapshot_failed_modules_graphics_count ci s :
  graphics_count (snapshot_failed_modules ci s) = graphics_count s.
Proof. frame graphics_count. Qed.

(** The work items for which the graphics loop is not run. *)
Lemma process_graphics_unchanged device w s :
  graphics_loop_runs w = false ->
  graphics_count (process_work_item device w s) = graphics_count s /\
  graphics_pipelines (process_work_item device w s) = graphics_pipelines s.
Proof.
unfold graphics_loop_runs, process_work_item. intros Hruns.
destruct (tag w); split; solve [frame graphics_count | frame graphics_pipelines].
Qed.

Lemma process_graphics_effect device w s :
  all_creates_succeed device ->
  let s' := process_work_item device w s in
  let n := Z.to_nat (loop_count s) in
  graphics_count s'
  = Nat.iter (if graphics_loop_runs w && contributes_to_index w then n else 0)
             incr (graphics_count s) /\
  loop_stores w (graphics_loop_runs w) n (graphics_pipelines s) (graphics_pipelines s').
Proof.
intros Hok s' n. subst s' n. unfold loop_stores.
destruct (graphics_loop_runs w) eqn:Hruns.
2:{ destruct (process_graphics_unchanged device w s Hruns) as [-> ->]. done. }
unfold graphics_loop_runs in Hruns. unfold process_work_item.
destruct (tag w); try done.
destruct (create_info w) as [|ci|ci2|ci3]; try done.
apply negb_true_iff in Hruns. rewrite Hruns.
set (s1 := if contributes_to_index w then _ else s).
set (s2 := if robustness s1 then _ else s1).
assert (H2 : graphics_count s2 = graphics_count s
             /\ graphics_pipelines s2 = graphics_pipelines s
             /\ loop_count s2 = loop_count s).
{ subst s2 s1. destruct (contributes_to_index w); simpl;
    destruct (robustness s); simpl;
    rewrite ?snapshot_failed_modules_graphics_pipelines,
      ?snapshot_failed_modules_graphics_count,
      ?snapshot_failed_modules_loop_count; done. }
destruct H2 as (Hc2 & Hg2 & Hl2). rewrite Hl2. unfold for_loop.
destruct (graphics_loop_effect device w (Z.to_nat (loop_count s)) 0 s2 Hok)
  as (Hcount & Hzero & Hpos).
rewrite Hc2 in Hcount. rewrite Hg2 in Hzero, Hpos. split; [exact Hcount|].
case_bool_decide as Hn; simpl; auto.
Qed.

Lemma compute_snapshot_frame (ci : VkComputePipelineCreateInfo.t) s :
  let s' :=
    (let s0 := s <| num_failed_module_hashes := 1 |> in
     let '(h, s0) :=
       lookup_shader_module_hash (module (VkComputePipelineCreateInfo.stage ci)) s0 in
     store_failed_module_hash 0 h s0) in
  compute_count s' = compute_count s /\
  compute_pipelines s' = compute_pipelines s /\
  loop_count s' = loop_count s.
Proof. done. Qed.

Lemma process_compute_unchanged device w s :
  compute_loop_runs w = false ->
  compute_count (process_work_item device w s) = compute_count s /\
  compute_pipelines (process_work_item device w s) = compute_pipelines s.
Proof.
unfold compute_loop_runs, process_work_item. intros Hruns.
destruct (tag w); split; solve [frame compute_count | frame compute_pipelines].
Qed.

Lemma process_compute_effect device w s :
  all_creates_succeed device ->
  let s' := process_work_item device w s in
  let n := Z.to_nat (loop_count s) in
  compute_count s'
  = Nat.iter (if compute_loop_runs w && contributes_to_index w then n else 0)
             incr (compute_count s) /\
  loop_stores w (compute_loop_runs w) n (compute_pipelines s) (compute_pipelines s').
Proof.
intros Hok s' n. subst s' n. unfold loop_stores.
destruct (compute_loop_runs w) eqn:Hruns.
2:{ destruct (process_compute_unchanged device w s Hruns) as [-> ->]. done. }
unfold compute_loop_runs in Hruns. unfold process_work_item.
destruct (tag w); try done.
destruct (create_info w) as [|ci|ci2|ci3]; try done.
apply negb_true_iff in Hruns. rewrite Hruns.
set (s1 := if contributes_to_index w then _ else s).
set (s2 := if robustness s1 then _ else s1).
assert (H2 : compute_count s2 = compute_count s
             /\ compute_pipelines s2 = compute_pipelines s
             /\ loop_count s2 = loop_count s).
{ subst s2 s1. destruct (contributes_to_index w); simpl;
    destruct (robustness s); simpl; done. }
destruct H2 as (Hc2 & Hg2 & Hl2). rewrite Hl2. unfold for_loop.
destruct (compute_loop_effect device w (Z.to_nat (loop_count s)) 0 s2 Hok)
  as (Hcount & Hzero & Hpos).
rewrite Hc2 in Hcount. rewrite Hg2 in Hzero, Hpos. split; [exact Hcount|].
case_bool_decide as Hn; simpl; auto.
Qed.

Lemma process_shader_unchanged device w s :
  shader_loop_runs w = false ->
  shader_count (process_work_item device w s) = shader_count s /\
  shader_modules (process_work_item device w s) = shader_modules s.
Proof.
unfold shader_loop_runs, process_work_item. intros Hruns%bool_decide_eq_false.
destruct (tag w); try done;
  split; solve [frame shader_count | frame shader_modules].
Qed.

Lemma process_shader_effect device w s :
  all_creates_succeed device ->
  let s' := process_work_item device w s in
  let n := Z.to_nat (loop_count s) in
  shader_count s'
  = Nat.iter (if shader_loop_runs w then n else 0) incr (shader_count s) /\
  loop_stores w (shader_loop_runs w) n (shader_modules s) (shader_modules s').
Proof.
intros Hok s' n. subst s' n. unfold loop_stores.
destruct (shader_loop_runs w) eqn:Hruns.
2:{ destruct (process_shader_unchanged device w s Hruns) as [-> ->]. done. }
unfold shader_loop_runs in Hruns. apply bool_decide_eq_true in Hruns.
unfold process_work_item. rewrite Hruns. unfold for_loop.
destruct (shader_loop_effect device w (Z.to_nat (loop_count s)) 0 s Hok)
  as (Hcount & Hzero & Hpos).
split; [exact Hcount|].
case_bool_decide as Hn; simpl; auto.
Qed.

(** *** The worker in the two runs *)

Lemma loop_stores_dom w runs n (m m' : gmap Z Z) :
  loop_stores w runs n m m' ->
  (runs = true -> match hash_map_entry w with
                  | Some key => key ∈ dom m
                  | None => True
                  end) ->
  dom m' = dom m.
Proof.
unfold loop_stores. destruct runs; simpl; [|now intros ->].
case_bool_decide; simpl; [now intros ->|].
intros (v & -> & _) Hin. apply dom_store. now apply Hin.
Qed.

Lemma entry_in_map_ext s s' w :
  dom (shader_modules s) = dom (shader_modules s') ->
  dom (graphics_pipelines s) = dom (graphics_pipelines s') ->
  dom (compute_pipelines s) = dom (compute_pipelines s') ->
  entry_in_map s w -> entry_in_map s' w.
Proof.
unfold entry_in_map. intros -> -> ->. done.
Qed.

Lemma store_same_nullness k p vk v1 (mk m1 : gmap Z Z) :
  maps_same_nullness k mk m1 ->
  (vk = VK_NULL_HANDLE <-> v1 = VK_NULL_HANDLE) ->
  maps_same_nullness k (store p vk mk) (store p v1 m1).
Proof.
intros Hm Hv key. destruct p as [key'|]; simpl; [|apply Hm].
destruct (decide (key' = key)) as [->|Hne].
- rewrite !lookup_insert_eq. simpl. now intros _.
- rewrite !lookup_insert_ne by done. apply Hm.
Qed.

Lemma maps_same_nullness_zero k mk m1 : k <= 0 -> maps_same_nullness k mk m1.
Proof. intros Hk key Hpos. lia. Qed.

Lemma loop_stores_same_nullness k w w' runs runs' (mk mk' m1 m1' : gmap Z Z) :
  0 <= k ->
  (0 < k -> runs = runs') ->
  hash_map_entry w = hash_map_entry w' ->
  output w = output w' ->
  loop_stores w runs (Z.to_nat k) mk mk' ->
  loop_stores w' runs' (Z.to_nat 1) m1 m1' ->
  maps_same_nullness k mk m1 ->
  maps_same_nullness k mk' m1'.
Proof.
intros Hk Hruns He Ho Hsk Hs1 Hm.
destruct (decide (0 < k)) as [Hpos|Hzero];
  [|apply maps_same_nullness_zero; lia].
rewrite <- (Hruns Hpos) in Hs1. unfold loop_stores in *.
destruct runs; [|simpl in *; now subst].
rewrite bool_decide_eq_false_2 in Hsk by lia.
rewrite bool_decide_eq_false_2 in Hs1 by lia. simpl in Hsk, Hs1.
destruct Hsk as (vk & -> & Hvk). destruct Hs1 as (v1 & -> & Hv1).
rewrite <- He. apply store_same_nullness; [done|].
rewrite Hvk, Hv1, Ho. done.
Qed.

Lemma invalid_derivative_graphics k ci ci' :
  0 < k ->
  create_info_rel k (graphics_create_info ci) (graphics_create_info ci') ->
  invalid_derivative ci = invalid_derivative ci'.
Proof.
intros Hk (Hf & _ & Hb). unfold invalid_derivative. simpl. rewrite Hf.
f_equal. apply bool_decide_ext. now apply Hb.
Qed.

Lemma invalid_derivative_compute k ci ci' :
  0 < k ->
  create_info_rel k (compute_create_info ci) (compute_create_info ci') ->
  invalid_derivative ci = invalid_derivative ci'.
Proof.
intros Hk (Hf & _ & Hb). unfold invalid_derivative. simpl. rewrite Hf.
f_equal. apply bool_decide_ext. now apply Hb.
Qed.

Lemma loop_runs_rel k w w' :
  work_item_rel k w w' ->
  shader_loop_runs w = shader_loop_runs w' /\
  (0 < k -> graphics_loop_runs w = graphics_loop_runs w') /\
  (0 < k -> compute_loop_runs w = compute_loop_runs w').
Proof.
intros (_ & Htag & _ & _ & _ & Hci).
unfold shader_loop_runs, graphics_loop_runs, compute_loop_runs. rewrite Htag.
split_and!; [done| |]; intros Hk; destruct (tag w');
  destruct (create_info w), (create_info w'); try done.
- f_equal. eapply invalid_derivative_graphics; eauto.
- f_equal. eapply invalid_derivative_compute; eauto.
Qed.

Lemma scaled_count k ck c1 (bk b1 : bool) :
  0 <= k -> (0 < k -> bk = b1) ->
  scaled k ck c1 ->
  scaled k (Nat.iter (if bk then Z.to_nat k else 0) incr ck)
           (Nat.iter (if b1 then Z.to_nat 1 else 0) incr c1).
Proof.
intros Hk Hb Hs. destruct (decide (0 < k)) as [Hpos|Hzero].
- rewrite <- (Hb Hpos). destruct bk; simpl; [|done]. now apply scaled_iter.
- assert (k = 0) as -> by lia.
  replace (Nat.iter (if bk then Z.to_nat 0 else 0) incr ck) with ck
    by (now destruct bk).
  eapply scaled_zero; [exact Hs|].
  destruct b1; simpl; [apply incr_nonneg|apply Hs].
Qed.

Lemma loop_runs_entry s w :
  entry_in_map s w ->
  (shader_loop_runs w = true ->
   match hash_map_entry w with Some key => key ∈ dom (shader_modules s) | None => True end)
  /\ (graphics_loop_runs w = true ->
   match hash_map_entry w with Some key => key ∈ dom (graphics_pipelines s) | None => True end)
  /\ (compute_loop_runs w = true ->
   match hash_map_entry w with Some key => key ∈ dom (compute_pipelines s) | None => True end).
Proof.
unfold entry_in_map, shader_loop_runs, graphics_loop_runs, compute_loop_runs.
intros Hin. destruct (hash_map_entry w); [|done].
split_and!; [intros Ht%bool_decide_eq_true; now rewrite Ht in Hin|..];
  destruct (tag w); done.
Qed.

Lemma process_work_item_sim k dk d1 w w' sk s1 :
  0 <= k ->
  all_creates_succeed dk -> all_creates_succeed d1 ->
  sim_core k sk s1 ->
  work_item_rel k w w' ->
  entry_in_map s1 w' ->
  sim_core k (process_work_item dk w sk) (process_work_item d1 w' s1).
Proof.
intros Hk Hdk Hd1 Hsim Hrel Hentry.
destruct (loop_runs_rel k w w' Hrel) as (Hrs & Hrg & Hrc).
pose proof Hrel as (_ & Htag & Hcontrib & Hout & Hent & _).
destruct Hsim as [Hopts Hlk Hl1 Hgi Hci Hmask Hinit Hshut Hpg Hpc Hq
  Hgpc Hcpc Hsmc Hdsm Hdgp Hdcp Hng Hnc Hents Hgc Hcc Hsc].
assert (Hentry_k : entry_in_map sk w).
{ unfold entry_in_map in *. rewrite Hent, Htag.
  now rewrite Hdsm, Hdgp, Hdcp. }
destruct (loop_runs_entry s1 w' Hentry) as (Hes1 & Heg1 & Hec1).
destruct (loop_runs_entry sk w Hentry_k) as (Hesk & Hegk & Heck).
destruct (process_shader_effect dk w sk Hdk) as (Hsck & Hsmk).
destruct (process_shader_effect d1 w' s1 Hd1) as (Hsc1 & Hsm1).
destruct (process_graphics_effect dk w sk Hdk) as (Hgck & Hgmk).
destruct (process_graphics_effect d1 w' s1 Hd1) as (Hgc1 & Hgm1).
destruct (process_compute_effect dk w sk Hdk) as (Hcck & Hcmk).
destruct (process_compute_effect d1 w' s1 Hd1) as (Hcc1 & Hcm1).
rewrite Hlk in *. rewrite Hl1 in *.
assert (Hds1 : dom (shader_modules (process_work_item d1 w' s1)) = dom (shader_modules s1))
  by (eapply loop_stores_dom; eauto).
assert (Hdg1 : dom (graphics_pipelines (process_work_item d1 w' s1))
               = dom (graphics_pipelines s1))
  by (eapply loop_stores_dom; eauto).
assert (Hdc1 : dom (compute_pipelines (process_work_item d1 w' s1))
               = dom (compute_pipelines s1))
  by (eapply loop_stores_dom; eauto).
constructor; autorewrite with worker_frame; try done.
- now rewrite Hds1, (loop_stores_dom _ _ _ _ _ Hsmk Hesk).
- now rewrite Hdg1, (loop_stores_dom _ _ _ _ _ Hgmk Hegk).
- now rewrite Hdc1, (loop_stores_dom _ _ _ _ _ Hcmk Heck).
- exact (loop_stores_same_nullness k w w' _ _ _ _ _ _ Hk Hrg Hent Hout Hgmk Hgm1 Hng).
- exact (loop_stores_same_nullness k w w' _ _ _ _ _ _ Hk Hrc Hent Hout Hcmk Hcm1 Hnc).
- eapply Forall_impl; [exact Hents|]. intros x.
  apply entry_in_map_ext; done.
- rewrite Hgck, Hgc1, Hcontrib. apply scaled_count; try done.
  intros Hpos. now rewrite Hrg.
- rewrite Hcck, Hcc1, Hcontrib. apply scaled_count; try done.
  intros Hpos. now rewrite Hrc.
- rewrite Hsck, Hsc1, Hrs. apply scaled_count; done.
Qed.

(** *** The two runs in lockstep: barriers *)

Lemma worker_step_sim k dk d1 sk s1 :
  0 <= k ->
  all_creates_succeed dk -> all_creates_succeed d1 ->
  sim_core k sk s1 ->
  match worker_step dk sk, worker_step d1 s1 with
  | Some sk', Some s1' => sim_core k sk' s1'
  | None, None => True
  | _, _ => False
  end.
Proof.
intros Hk Hdk Hd1 Hsim. unfold worker_step.
pose proof (sim_queue _ _ _ Hsim) as Hq.
pose proof (sim_entries _ _ _ Hsim) as He.
destruct (pipeline_work_queue sk) as [|w qk] eqn:Eqk,
         (pipeline_work_queue s1) as [|w' q1] eqn:Eq1;
  try done; try (now inversion Hq).
apply Forall2_cons in Hq as [Hw Hq]. apply Forall_cons in He as [Hew He].
assert (Hsim' : sim_core k (process_work_item dk w (sk <| pipeline_work_queue := qk |>))
                           (process_work_item d1 w' (s1 <| pipeline_work_queue := q1 |>))).
{ apply process_work_item_sim; try done.
  destruct Hsim. constructor; simpl; done. }
destruct Hsim'. constructor; simpl; done.
Qed.

Lemma worker_run_sim k dk d1 n sk s1 :
  0 <= k ->
  all_creates_succeed dk -> all_creates_succeed d1 ->
  sim_core k sk s1 ->
  sim_core k (worker_run dk n sk) (worker_run d1 n s1).
Proof.
intros Hk Hdk Hd1. revert sk s1.
induction n as [|n IH]; intros sk s1 Hsim; simpl; [done|].
pose proof (worker_step_sim k dk d1 sk s1 Hk Hdk Hd1 Hsim) as Hstep.
destruct (worker_step dk sk), (worker_step d1 s1); try done. now apply IH.
Qed.

Lemma sync_worker_threads_sim_core k dk d1 sk s1 :
  0 <= k ->
  all_creates_succeed dk -> all_creates_succeed d1 ->
  sim_core k sk s1 ->
  sim_core k (sync_worker_threads dk sk) (sync_worker_threads d1 s1).
Proof.
intros Hk Hdk Hd1 Hsim. unfold sync_worker_threads.
rewrite (Forall2_length _ _ _ (sim_queue _ _ _ Hsim)).
now apply worker_run_sim.
Qed.

Lemma sync_worker_threads_sim k dk d1 sk s1 :
  0 <= k ->
  all_creates_succeed dk -> all_creates_succeed d1 ->
  sim k sk s1 ->
  sim k (sync_worker_threads dk sk) (sync_worker_threads d1 s1).
Proof.
intros Hk Hdk Hd1 (Hsim & Hg & Hc). split_and!.
- now apply sync_worker_threads_sim_core.
- now rewrite !derived_graphics_sync.
- now rewrite !derived_compute_sync.
Qed.

Lemma tear_down_threads_sim k sk s1 :
  sim k sk s1 -> sim k (tear_down_threads sk) (tear_down_threads s1).
Proof.
intros (Hsim & Hg & Hc). unfold tear_down_threads.
rewrite (sim_shutting_down _ _ _ Hsim).
destruct (shutting_down s1); [done|].
split_and!; [|done..]. destruct Hsim.
constructor; simpl; try done; now apply scaled_fetch_add.
Qed.

(** *** The two runs in lockstep: the main thread *)

Lemma entry_in_map_mono s s' w :
  dom (shader_modules s) ⊆ dom (shader_modules s') ->
  dom (graphics_pipelines s) ⊆ dom (graphics_pipelines s') ->
  dom (compute_pipelines s) ⊆ dom (compute_pipelines s') ->
  entry_in_map s w -> entry_in_map s' w.
Proof.
unfold entry_in_map. intros Hs Hg Hc.
destruct (hash_map_entry w); [|done]. destruct (tag w); set_solver.
Qed.

Lemma touch_same_nullness k h (mk m1 : gmap Z Z) :
  dom mk = dom m1 ->
  maps_same_nullness k mk m1 ->
  maps_same_nullness k (touch h mk) (touch h m1).
Proof.
intros Hdom Hm key. unfold touch.
destruct (mk !! h) as [vk|] eqn:Ek, (m1 !! h) as [v1|] eqn:E1; [apply Hm| | |].
- apply elem_of_dom_2 in Ek. apply not_elem_of_dom in E1. set_solver.
- apply elem_of_dom_2 in E1. apply not_elem_of_dom in Ek. set_solver.
- destruct (decide (h = key)) as [->|Hne].
  + rewrite !lookup_insert_eq. now intros _.
  + rewrite !lookup_insert_ne by done. apply Hm.
Qed.

Lemma push_work_item_sim k w w' sk s1 :
  sim_core k sk s1 ->
  work_item_rel k w w' ->
  entry_in_map s1 w' ->
  sim_core k (push_work_item w sk) (push_work_item w' s1).
Proof.
intros [] Hw He. unfold push_work_item. constructor; simpl; try done.
- apply Forall2_app; [done|]. now constructor.
- apply Forall_app. split; [done|]. now constructor.
Qed.

Lemma touch_shader_modules_sim k h sk s1 :
  sim_core k sk s1 ->
  sim_core k (sk <| shader_modules ::= touch h |>) (s1 <| shader_modules ::= touch h |>).
Proof.
intros []. constructor; simpl; try done.
- rewrite !dom_touch. congruence.
- eapply Forall_impl; [eassumption|]. intros x. apply entry_in_map_mono; simpl;
    rewrite ?dom_touch; set_solver.
Qed.

Lemma touch_graphics_pipelines_sim k h sk s1 :
  sim_core k sk s1 ->
  sim_core k (sk <| graphics_pipelines ::= touch h |>)
             (s1 <| graphics_pipelines ::= touch h |>).
Proof.
intros []. constructor; simpl; try done.
- rewrite !dom_touch. congruence.
- now apply touch_same_nullness.
- eapply Forall_impl; [eassumption|]. intros x. apply entry_in_map_mono; simpl;
    rewrite ?dom_touch; set_solver.
Qed.

Lemma touch_compute_pipelines_sim k h sk s1 :
  sim_core k sk s1 ->
  sim_core k (sk <| compute_pipelines ::= touch h |>)
             (s1 <| compute_pipelines ::= touch h |>).
Proof.
intros []. constructor; simpl; try done.
- rewrite !dom_touch. congruence.
- now apply touch_same_nullness.
- eapply Forall_impl; [eassumption|]. intros x. apply entry_in_map_mono; simpl;
    rewrite ?dom_touch; set_solver.
Qed.

Lemma in_graphics_slice_sim k sk s1 :
  sim_core k sk s1 -> in_graphics_slice sk = in_graphics_slice s1.
Proof.
intros [(Hsg & Heg & _) _ _ Hi]. unfold in_graphics_slice. now rewrite Hsg, Heg, Hi.
Qed.

Lemma in_compute_slice_sim k sk s1 :
  sim_core k sk s1 -> in_compute_slice sk = in_compute_slice s1.
Proof.
intros [(_ & _ & Hsc & Hec) _ _ _ Hi]. unfold in_compute_slice. now rewrite Hsc, Hec, Hi.
Qed.

Lemma graphics_work_item_sim k h ci ci' p c sk s1 :
  sim_core k sk s1 ->
  create_info_rel k (graphics_create_info ci) (graphics_create_info ci') ->
  sim_core k (push_work_item (graphics_work_item h ci p c sk).1
                             (graphics_work_item h ci p c sk).2)
             (push_work_item (graphics_work_item h ci' p c s1).1
                             (graphics_work_item h ci' p c s1).2).
Proof.
intros Hsim Hci. unfold graphics_work_item, valid_handles.
pose proof Hci as (_ & <- & _).
destruct (forallb _ _); simpl.
- apply push_work_item_sim; [now apply touch_graphics_pipelines_sim|done|].
  unfold entry_in_map. simpl. rewrite dom_touch. set_solver.
- now apply push_work_item_sim.
Qed.

Lemma compute_work_item_sim k h ci ci' p c sk s1 :
  sim_core k sk s1 ->
  create_info_rel k (compute_create_info ci) (compute_create_info ci') ->
  sim_core k (push_work_item (compute_work_item h ci p c sk).1
                             (compute_work_item h ci p c sk).2)
             (push_work_item (compute_work_item h ci' p c s1).1
                             (compute_work_item h ci' p c s1).2).
Proof.
intros Hsim Hci. unfold compute_work_item.
pose proof Hci as (_ & <- & _).
case_bool_decide; simpl.
- apply push_work_item_sim; [now apply touch_compute_pipelines_sim|done|].
  unfold entry_in_map. simpl. rewrite dom_touch. set_solver.
- now apply push_work_item_sim.
Qed.

Lemma graphics_pipeline_index_sim k sk s1 :
  sim_core k sk s1 ->
  sim_core k (sk <| graphics_pipeline_index ::= incr |>)
             (s1 <| graphics_pipeline_index ::= incr |>).
Proof. intros []. constructor; simpl; try done. congruence. Qed.

Lemma compute_pipeline_index_sim k sk s1 :
  sim_core k sk s1 ->
  sim_core k (sk <| compute_pipeline_index ::= incr |>)
             (s1 <| compute_pipeline_index ::= incr |>).
Proof. intros []. constructor; simpl; try done. congruence. Qed.

Lemma enqueue_graphics_pipeline_sim k h ci ci' p c sk s1 :
  sim_core k sk s1 ->
  create_info_rel k (graphics_create_info ci) (graphics_create_info ci') ->
  sim_core k (enqueue_graphics_pipeline h ci p c sk).2
             (enqueue_graphics_pipeline h ci' p c s1).2.
Proof.
intros Hsim Hci. unfold enqueue_graphics_pipeline. simpl.
rewrite (in_graphics_slice_sim k sk s1 Hsim).
assert (Hpush : sim_core k
  (if negb c || in_graphics_slice s1
   then let '(w, s) := graphics_work_item h ci p c sk in push_work_item w s
   else sk)
  (if negb c || in_graphics_slice s1
   then let '(w, s) := graphics_work_item h ci' p c s1 in push_work_item w s
   else s1)).
{ destruct (negb c || in_graphics_slice s1); [|done].
  pose proof (graphics_work_item_sim k h ci ci' p c sk s1 Hsim Hci) as Hw.
  now destruct (graphics_work_item h ci p c sk), (graphics_work_item h ci' p c s1). }
destruct c; [|done]. now apply graphics_pipeline_index_sim.
Qed.

Lemma enqueue_compute_pipeline_sim k h ci ci' p c sk s1 :
  sim_core k sk s1 ->
  create_info_rel k (compute_create_info ci) (compute_create_info ci') ->
  sim_core k (enqueue_compute_pipeline h ci p c sk).2
             (enqueue_compute_pipeline h ci' p c s1).2.
Proof.
intros Hsim Hci. unfold enqueue_compute_pipeline. simpl.
rewrite (in_compute_slice_sim k sk s1 Hsim).
assert (Hpush : sim_core k
  (if negb c || in_compute_slice s1
   then let '(w, s) := compute_work_item h ci p c sk in push_work_item w s
   else sk)
  (if negb c || in_compute_slice s1
   then let '(w, s) := compute_work_item h ci' p c s1 in push_work_item w s
   else s1)).
{ destruct (negb c || in_compute_slice s1); [|done].
  pose proof (compute_work_item_sim k h ci ci' p c sk s1 Hsim Hci) as Hw.
  now destruct (compute_work_item h ci p c sk), (compute_work_item h ci' p c s1). }
destruct c; [|done]. now apply compute_pipeline_index_sim.
Qed.

Lemma create_info_rel_graphics_refl k ci :
  create_info_rel k (graphics_create_info ci) (graphics_create_info ci).
Proof. simpl. split_and!; done. Qed.

Lemma create_info_rel_compute_refl k ci :
  create_info_rel k (compute_create_info ci) (compute_create_info ci).
Proof. simpl. split_and!; done. Qed.

(** *** The two runs in lockstep: the deferred resolver *)

Lemma unstable_remove_if_ext {A} (p q : A -> bool) first last v :
  (forall x, x ∈ v -> p x = q x) ->
  unstable_remove_if first last p v = unstable_remove_if first last q v.
Proof. apply unstable_remove_if_loop_ext. Qed.

Section resolver_sim.
Context {Info : Type} `{PipelineCreateInfo Info}.
Variable derived : ThreadedReplayer -> list (DeferredInfo.t Info).
Variable potential_parent : ThreadedReplayer -> gmap Z (DeferredInfo.t Info).
Variable pipelines : ThreadedReplayer -> gmap Z Z.
Context `{!Setter derived, !Setter potential_parent, !Setter pipelines}.
Variable enqueue_pipeline :
  Z -> Info -> Z -> bool -> ThreadedReplayer -> bool * ThreadedReplayer.
Variable k : Z.
Variables dk d1 : VulkanDevice.
(** Two create infos that only differ in the parent handle. *)
Variable info_rel : Info -> Info -> Prop.

(** What the template needs of the members it is instantiated with. *)
Hypothesis derived_set : forall f s, derived (s <| derived ::= f |>) = f (derived s).
Hypothesis derived_set_pipelines :
  forall f s, derived (s <| pipelines ::= f |>) = derived s.
Hypothesis derived_set_potential_parent :
  forall f s, derived (s <| potential_parent ::= f |>) = derived s.
Hypothesis pipelines_set :
  forall f s, pipelines (s <| pipelines ::= f |>) = f (pipelines s).
Hypothesis derived_sync :
  forall device s, derived (sync_worker_threads device s) = derived s.
Hypothesis derived_enqueue :
  forall h ci p c s, derived (enqueue_pipeline h ci p c s).2 = derived s.
Hypothesis enqueue_returns_true :
  forall h ci p c s, (enqueue_pipeline h ci p c s).1 = true.

(** What the relation between the two runs has to withstand. *)
Hypothesis sim_set_derived :
  forall f g sk s1, sim_core k sk s1 ->
    sim_core k (sk <| derived ::= f |>) (s1 <| derived ::= g |>).
Hypothesis sim_potential_parent :
  forall sk s1, sim_core k sk s1 -> potential_parent sk = potential_parent s1.
Hypothesis sim_set_potential_parent :
  forall f sk s1, sim_core k sk s1 ->
    sim_core k (sk <| potential_parent ::= f |>) (s1 <| potential_parent ::= f |>).
Hypothesis sim_pipelines_dom :
  forall sk s1, sim_core k sk s1 -> dom (pipelines sk) = dom (pipelines s1).
Hypothesis sim_pipelines_handles :
  forall sk s1, sim_core k sk s1 -> maps_same_nullness k (pipelines sk) (pipelines s1).
Hypothesis sim_touch_pipelines :
  forall h sk s1, sim_core k sk s1 ->
    sim_core k (sk <| pipelines ::= touch h |>) (s1 <| pipelines ::= touch h |>).
Hypothesis sim_sync :
  forall sk s1, sim_core k sk s1 ->
    sim_core k (sync_worker_threads dk sk) (sync_worker_threads d1 s1).
Hypothesis sim_enqueue :
  forall h ci ci' p c sk s1, sim_core k sk s1 -> info_rel ci ci' ->
    sim_core k (enqueue_pipeline h ci p c sk).2 (enqueue_pipeline h ci' p c s1).2.
Hypothesis info_rel_refl : forall ci, info_rel ci ci.
Hypothesis info_rel_parent :
  forall a b ci, same_nullness k a b ->
    info_rel (with_basePipelineHandle a ci) (with_basePipelineHandle b ci).

Local Abbreviation resolve_turn_ := (resolve_turn derived pipelines enqueue_pipeline).
Local Abbreviation resolve_loop_ := (resolve_loop derived pipelines enqueue_pipeline).
Local Abbreviation enqueue_resolved_ := (enqueue_resolved derived pipelines enqueue_pipeline).
Local Abbreviation inject_parent_ := (inject_parent potential_parent enqueue_pipeline).
Local Abbreviation inject_parents_ := (inject_parents derived potential_parent enqueue_pipeline).

Lemma inject_parent_sim d sk s1 :
  sim_core k sk s1 ->
  sim_core k (inject_parent_ d sk) (inject_parent_ d s1) /\
  derived (inject_parent_ d sk) = derived sk /\
  derived (inject_parent_ d s1) = derived s1.
Proof.
intros Hsim. unfold inject_parent.
rewrite (sim_potential_parent sk s1 Hsim).
destruct (potential_parent s1 !! _) as [parent|]; [|done].
pose proof (sim_enqueue (DeferredInfo.hash parent) _ _ (DeferredInfo.pipeline parent)
              (DeferredInfo.contributes_to_index parent) sk s1 Hsim
              (info_rel_refl (DeferredInfo.info parent))) as Hq.
pose proof (derived_enqueue (DeferredInfo.hash parent) (DeferredInfo.info parent)
              (DeferredInfo.pipeline parent)
              (DeferredInfo.contributes_to_index parent) sk) as Hdk.
pose proof (derived_enqueue (DeferredInfo.hash parent) (DeferredInfo.info parent)
              (DeferredInfo.pipeline parent)
              (DeferredInfo.contributes_to_index parent) s1) as Hd1.
destruct (enqueue_pipeline _ _ _ _ sk) as [okk sk'],
         (enqueue_pipeline _ _ _ _ s1) as [ok1 s1']. simpl in *.
rewrite !derived_set_potential_parent. split_and!; [|done..].
now apply sim_set_potential_parent.
Qed.

Lemma inject_parents_fold_sim ds sk s1 :
  sim_core k sk s1 ->
  derived sk = derived s1 ->
  sim_core k (foldl (fun s d => inject_parent_ d s) sk ds)
             (foldl (fun s d => inject_parent_ d s) s1 ds) /\
  derived (foldl (fun s d => inject_parent_ d s) sk ds)
  = derived (foldl (fun s d => inject_parent_ d s) s1 ds).
Proof.
revert sk s1. induction ds as [|d ds IH]; intros sk s1 Hsim Hd; simpl; [done|].
destruct (inject_parent_sim d sk s1 Hsim) as (Hsim' & Hk' & H1').
apply IH; [done|congruence].
Qed.

Lemma inject_parents_sim sk s1 :
  sim_core k sk s1 ->
  derived sk = derived s1 ->
  sim_core k (inject_parents_ sk) (inject_parents_ s1) /\
  derived (inject_parents_ sk) = derived (inject_parents_ s1).
Proof.
unfold inject_parents. intros Hsim Hd. rewrite Hd.
now apply inject_parents_fold_sim.
Qed.

(** The loop over the resolved pipelines, from position [i] of the list
    whose first [itr] elements stay. *)
Lemma enqueue_resolved_sim itr n i sk s1 :
  (itr <= i)%nat ->
  sim_core k sk s1 ->
  take itr (derived sk) = take itr (derived s1) ->
  drop i (derived sk) = drop i (derived s1) ->
  (enqueue_resolved_ n i sk).1 = true /\
  (enqueue_resolved_ n i s1).1 = true /\
  sim_core k (enqueue_resolved_ n i sk).2 (enqueue_resolved_ n i s1).2 /\
  take itr (derived (enqueue_resolved_ n i sk).2)
  = take itr (derived (enqueue_resolved_ n i s1).2).
Proof.
revert i sk s1. induction n as [|n IH]; intros i sk s1 Hi Hsim Htake Hdrop;
  simpl; [done|].
assert (Hlook : derived sk !! i = derived s1 !! i).
{ rewrite <- (Nat.add_0_r i). rewrite <- !lookup_drop. now rewrite Hdrop. }
rewrite Hlook. destruct (derived s1 !! i) as [d|] eqn:Hd; [|done].
set (parent := basePipelineHandle (DeferredInfo.info d)).
set (tk := sk <| pipelines ::= touch parent |>).
set (t1 := s1 <| pipelines ::= touch parent |>).
assert (Ht : sim_core k tk t1) by now apply sim_touch_pipelines.
set (hk := default VK_NULL_HANDLE (pipelines tk !! parent)).
set (h1 := default VK_NULL_HANDLE (pipelines t1 !! parent)).
assert (Hh : same_nullness k hk h1) by apply (sim_pipelines_handles tk t1 Ht).
set (uk := tk <| derived ::= _ |>). set (u1 := t1 <| derived ::= _ |>).
assert (Hu : sim_core k uk u1) by now apply sim_set_derived.
pose proof (sim_enqueue (DeferredInfo.hash d) _ _ (DeferredInfo.pipeline d)
              (DeferredInfo.contributes_to_index d) uk u1 Hu
              (info_rel_parent hk h1 (DeferredInfo.info d) Hh)) as Hq.
pose proof (derived_enqueue (DeferredInfo.hash d)
              (with_basePipelineHandle hk (DeferredInfo.info d))
              (DeferredInfo.pipeline d) (DeferredInfo.contributes_to_index d) uk) as Hdk.
pose proof (derived_enqueue (DeferredInfo.hash d)
              (with_basePipelineHandle h1 (DeferredInfo.info d))
              (DeferredInfo.pipeline d) (DeferredInfo.contributes_to_index d) u1) as Hd1.
pose proof (enqueue_returns_true (DeferredInfo.hash d)
              (with_basePipelineHandle hk (DeferredInfo.info d))
              (DeferredInfo.pipeline d) (DeferredInfo.contributes_to_index d) uk) as Hokk.
pose proof (enqueue_returns_true (DeferredInfo.hash d)
              (with_basePipelineHandle h1 (DeferredInfo.info d))
              (DeferredInfo.pipeline d) (DeferredInfo.contributes_to_index d) u1) as Hok1.
simpl in *.
destruct (enqueue_pipeline _ _ _ _ uk) as [okk sk'],
         (enqueue_pipeline _ _ _ _ u1) as [ok1 s1']. simpl in *. subst okk ok1.
subst uk u1. rewrite derived_set in Hdk, Hd1. subst tk t1.
rewrite derived_set_pipelines in Hdk, Hd1.
apply IH; [lia|done|..]; rewrite Hdk, Hd1.
- rewrite !take_insert_ge by lia. done.
- rewrite !drop_insert_lt by lia.
  replace (S i) with (i + 1)%nat by lia. rewrite <- !drop_drop. now rewrite Hdrop.
Qed.

Lemma parent_is_enqueued_sim sk s1 d :
  sim_core k sk s1 ->
  parent_is_enqueued pipelines sk d = parent_is_enqueued pipelines s1 d.
Proof.
intros Hsim. unfold parent_is_enqueued. apply bool_decide_ext.
rewrite <- !elem_of_dom. now rewrite (sim_pipelines_dom sk s1 Hsim).
Qed.

Lemma resolve_turn_sim sk s1 :
  sim_core k sk s1 ->
  derived sk = derived s1 ->
  match resolve_turn_ dk sk, resolve_turn_ d1 s1 with
  | turn_done sk', turn_done s1'
  | turn_return_false sk', turn_return_false s1'
  | turn_again sk', turn_again s1' =>
      sim_core k sk' s1' /\ derived sk' = derived s1'
  | _, _ => False
  end.
Proof.
intros Hsim Hd. unfold resolve_turn. rewrite Hd.
destruct (derived s1) as [|d0 ds] eqn:Hds; [split; [done|congruence]|].
rewrite (unstable_remove_if_ext (parent_is_enqueued pipelines sk)
           (parent_is_enqueued pipelines s1))
  by (intros; now apply parent_is_enqueued_sim).
destruct (unstable_remove_if _ _ _ _) as [itr v].
rewrite !derived_set.
assert (Hv : sim_core k (sk <| derived := v |>) (s1 <| derived := v |>))
  by now apply sim_set_derived.
case_bool_decide; [now rewrite !derived_set|].
rewrite !derived_sync, !derived_set.
pose proof (sim_sync _ _ Hv) as Hsync.
assert (Hdsync : derived (sync_worker_threads dk (sk <| derived := v |>))
                 = derived (sync_worker_threads d1 (s1 <| derived := v |>)))
  by now rewrite !derived_sync, !derived_set.
destruct (enqueue_resolved_sim itr (length v - itr) itr _ _ (le_n itr) Hsync)
  as (Hokk & Hok1 & Hres & Htake); [now rewrite Hdsync..|].
destruct (enqueue_resolved _ _ _ _ _ (sync_worker_threads dk _)) as [okk sk'],
         (enqueue_resolved _ _ _ _ _ (sync_worker_threads d1 _)) as [ok1 s1'].
simpl in *. subst okk ok1. rewrite !derived_set. split; [|done].
now apply sim_set_derived.
Qed.

Lemma resolve_loop_sim fuel sk s1 :
  sim_core k sk s1 ->
  derived sk = derived s1 ->
  match resolve_loop_ dk fuel sk, resolve_loop_ d1 fuel s1 with
  | Some (bk, sk'), Some (b1, s1') =>
      bk = b1 /\ sim_core k sk' s1' /\ derived sk' = derived s1'
  | None, None => True
  | _, _ => False
  end.
Proof.
revert sk s1. induction fuel as [|fuel IH]; intros sk s1 Hsim Hd; simpl; [done|].
pose proof (resolve_turn_sim sk s1 Hsim Hd) as Hturn.
destruct (resolve_turn_ dk sk), (resolve_turn_ d1 s1); try done.
now apply IH.
Qed.

Lemma resolve_derived_pipelines_sim fuel sk s1 :
  sim_core k sk s1 ->
  derived sk = derived s1 ->
  match resolve_derived_pipelines derived potential_parent pipelines
          enqueue_pipeline dk fuel sk,
        resolve_derived_pipelines derived potential_parent pipelines
          enqueue_pipeline d1 fuel s1 with
  | Some (bk, sk'), Some (b1, s1') =>
      bk = b1 /\ sim_core k sk' s1' /\ derived sk' = derived s1'
  | None, None => True
  | _, _ => False
  end.
Proof.
intros Hsim Hd. unfold resolve_derived_pipelines.
destruct (inject_parents_sim sk s1 Hsim Hd). now apply resolve_loop_sim.
Qed.

End resolver_sim.

(** *** The two runs in lockstep: the two instances of the resolver *)

Lemma resolve_derived_graphics_pipelines_derived_compute device s :
  derived_compute (resolve_derived_graphics_pipelines device s).2 = derived_compute s.
Proof.
unfold resolve_derived_graphics_pipelines.
destruct (resolve_derived_pipelines _ _ _ _ _ _ _) as [r|] eqn:Hr; [|done].
simpl.
eapply (resolve_derived_pipelines_invariant derived_graphics
          potential_graphics_parent graphics_pipelines enqueue_graphics_pipeline
          device (fun s' => derived_compute s' = derived_compute s));
  try exact Hr; try done.
- intros s' Hs'. now rewrite derived_compute_sync.
- intros h ci p c s' <-. frame derived_compute.
Qed.

Lemma resolve_derived_compute_pipelines_derived_graphics device s :
  derived_graphics (resolve_derived_compute_pipelines device s).2 = derived_graphics s.
Proof.
unfold resolve_derived_compute_pipelines.
destruct (resolve_derived_pipelines _ _ _ _ _ _ _) as [r|] eqn:Hr; [|done].
simpl.
eapply (resolve_derived_pipelines_invariant derived_compute
          potential_compute_parent compute_pipelines enqueue_compute_pipeline
          device (fun s' => derived_graphics s' = derived_graphics s));
  try exact Hr; try done.
- intros s' Hs'. now rewrite derived_graphics_sync.
- intros h ci p c s' <-. frame derived_graphics.
Qed.

Lemma resolve_derived_graphics_pipelines_sim k dk d1 sk s1 :
  0 <= k ->
  all_creates_succeed dk -> all_creates_succeed d1 ->
  sim k sk s1 ->
  sim k (resolve_derived_graphics_pipelines dk sk).2
        (resolve_derived_graphics_pipelines d1 s1).2.
Proof.
intros Hk Hdk Hd1 Hsim.
assert (Hboth := Hsim). destruct Hsim as (Hsim & Hg & Hc).
assert (Hres :
  match resolve_derived_pipelines derived_graphics potential_graphics_parent
          graphics_pipelines enqueue_graphics_pipeline dk
          (resolve_fuel (derived_graphics s1)) sk,
        resolve_derived_pipelines derived_graphics potential_graphics_parent
          graphics_pipelines enqueue_graphics_pipeline d1
          (resolve_fuel (derived_graphics s1)) s1 with
  | Some (bk, sk'), Some (b1, s1') =>
      bk = b1 /\ sim_core k sk' s1' /\ derived_graphics sk' = derived_graphics s1'
  | None, None => True
  | _, _ => False
  end).
{ apply resolve_derived_pipelines_sim
    with (info_rel := fun ci ci' =>
            create_info_rel k (graphics_create_info ci) (graphics_create_info ci'));
    try done.
  - apply derived_graphics_sync.
  - apply derived_graphics_enqueue.
  - intros f g tk t1 []. constructor; simpl; done.
  - apply sim_potential_graphics_parent.
  - intros f tk t1 []. constructor; simpl; try done. congruence.
  - apply sim_graphics_pipelines.
  - apply sim_graphics_handles.
  - intros. now apply touch_graphics_pipelines_sim.
  - intros. now apply sync_worker_threads_sim_core.
  - intros. now apply enqueue_graphics_pipeline_sim. }
pose proof (resolve_derived_graphics_pipelines_derived_compute dk sk) as Hok.
pose proof (resolve_derived_graphics_pipelines_derived_compute d1 s1) as Ho1.
unfold resolve_derived_graphics_pipelines in *.
rewrite Hg in Hok |- *.
destruct (resolve_derived_pipelines _ _ _ _ dk _ sk) as [[bk sk']|],
         (resolve_derived_pipelines _ _ _ _ d1 _ s1) as [[b1 s1']|];
  try done; simpl in *.
destruct Hres as (_ & Hsim' & Hd').
unfold sim. split_and!; [done|congruence..].
Qed.

Lemma resolve_derived_compute_pipelines_sim k dk d1 sk s1 :
  0 <= k ->
  all_creates_succeed dk -> all_creates_succeed d1 ->
  sim k sk s1 ->
  sim k (resolve_derived_compute_pipelines dk sk).2
        (resolve_derived_compute_pipelines d1 s1).2.
Proof.
intros Hk Hdk Hd1 Hsim.
assert (Hboth := Hsim). destruct Hsim as (Hsim & Hg & Hc).
assert (Hres :
  match resolve_derived_pipelines derived_compute potential_compute_parent
          compute_pipelines enqueue_compute_pipeline dk
          (resolve_fuel (derived_compute s1)) sk,
        resolve_derived_pipelines derived_compute potential_compute_parent
          compute_pipelines enqueue_compute_pipeline d1
          (resolve_fuel (derived_compute s1)) s1 with
  | Some (bk, sk'), Some (b1, s1') =>
      bk = b1 /\ sim_core k sk' s1' /\ derived_compute sk' = derived_compute s1'
  | None, None => True
  | _, _ => False
  end).
{ apply resolve_derived_pipelines_sim
    with (info_rel := fun ci ci' =>
            create_info_rel k (compute_create_info ci) (compute_create_info ci'));
    try done.
  - apply derived_compute_sync.
  - apply derived_compute_enqueue.
  - intros f g tk t1 []. constructor; simpl; done.
  - apply sim_potential_compute_parent.
  - intros f tk t1 []. constructor; simpl; try done. congruence.
  - apply sim_compute_pipelines.
  - apply sim_compute_handles.
  - intros. now apply touch_compute_pipelines_sim.
  - intros. now apply sync_worker_threads_sim_core.
  - intros. now apply enqueue_compute_pipeline_sim. }
pose proof (resolve_derived_compute_pipelines_derived_graphics dk sk) as Hok.
pose proof (resolve_derived_compute_pipelines_derived_graphics d1 s1) as Ho1.
unfold resolve_derived_compute_pipelines in *.
rewrite Hc in Hok |- *.
destruct (resolve_derived_pipelines _ _ _ _ dk _ sk) as [[bk sk']|],
         (resolve_derived_pipelines _ _ _ _ d1 _ s1) as [[b1 s1']|];
  try done; simpl in *.
destruct Hres as (_ & Hsim' & Hd').
unfold sim. split_and!; [done|congruence..].
Qed.


(** *** The two runs in lockstep: the calls of the state replayer *)

Ltac sim_core_fields :=
  match goal with
  | H : sim_core _ _ _ |- sim_core _ _ _ =>
      destruct H; constructor; simpl; try done; try congruence
  end.

Ltac sim_fields :=
  unfold sim; simpl; split_and!; [sim_core_fields|done..].

Lemma vkCreate_sim k dk d1 out sk s1 :
  all_creates_succeed dk -> all_creates_succeed d1 ->
  sim k sk s1 ->
  (vkCreate dk out sk).1 = true /\ (vkCreate d1 out s1).1 = true /\
  sim k (vkCreate dk out sk).2 (vkCreate d1 out s1).2.
Proof.
intros Hdk Hd1 (Hsim & Hg & Hc).
destruct (vkCreate_success dk out sk Hdk) as (hk & _ & ->).
destruct (vkCreate_success d1 out s1 Hd1) as (h1 & _ & ->).
simpl. split_and!; try done. sim_fields.
Qed.

Ltac inline_create_sim :=
  intros Hdk Hd1 Hsim;
  match goal with
  | |- sim ?k (?f ?dk ?i ?o ?sk).2 (?f ?d1 ?i ?o ?s1).2 =>
      unfold f;
      destruct (vkCreate_sim k dk d1 (Some o) sk s1 Hdk Hd1 Hsim)
        as (Hokk & Hok1 & (Hsim' & Hg' & Hc'));
      destruct (vkCreate dk (Some o) sk) as [okk sk'],
               (vkCreate d1 (Some o) s1) as [ok1 s1'];
      simpl in *; subst okk ok1; simpl;
      split_and!; [sim_core_fields|done..]
  end.

Lemma enqueue_create_sampler_sim k dk d1 index sampler sk s1 :
  all_creates_succeed dk -> all_creates_succeed d1 ->
  sim k sk s1 ->
  sim k (enqueue_create_sampler dk index sampler sk).2
        (enqueue_create_sampler d1 index sampler s1).2.
Proof. inline_create_sim. Qed.

Lemma enqueue_create_descriptor_set_layout_sim k dk d1 index layout sk s1 :
  all_creates_succeed dk -> all_creates_succeed d1 ->
  sim k sk s1 ->
  sim k (enqueue_create_descriptor_set_layout dk index layout sk).2
        (enqueue_create_descriptor_set_layout d1 index layout s1).2.
Proof. inline_create_sim. Qed.

Lemma enqueue_create_pipeline_layout_sim k dk d1 index layout sk s1 :
  all_creates_succeed dk -> all_creates_succeed d1 ->
  sim k sk s1 ->
  sim k (enqueue_create_pipeline_layout dk index layout sk).2
        (enqueue_create_pipeline_layout d1 index layout s1).2.
Proof. inline_create_sim. Qed.

Lemma enqueue_create_render_pass_sim k dk d1 index render_pass sk s1 :
  all_creates_succeed dk -> all_creates_succeed d1 ->
  sim k sk s1 ->
  sim k (enqueue_create_render_pass dk index render_pass sk).2
        (enqueue_create_render_pass d1 index render_pass s1).2.
Proof. inline_create_sim. Qed.

Lemma enqueue_create_shader_module_sim k h ci m sk s1 :
  sim k sk s1 ->
  sim k (enqueue_create_shader_module h ci m sk).2
        (enqueue_create_shader_module h ci m s1).2.
Proof.
intros (Hsim & Hg & Hc). unfold enqueue_create_shader_module.
rewrite (sim_masked _ _ _ Hsim). case_bool_decide; simpl.
- split_and!; [sim_core_fields|done..].
- split_and!; [|done..].
  apply push_work_item_sim; [now apply touch_shader_modules_sim| |].
  + unfold work_item_rel. simpl. split_and!; done.
  + unfold entry_in_map. simpl. rewrite dom_touch. set_solver.
Qed.

Lemma enqueue_create_graphics_pipeline_sim_core k h ci p sk s1 :
  sim_core k sk s1 ->
  sim_core k (enqueue_create_graphics_pipeline h ci p sk).2
             (enqueue_create_graphics_pipeline h ci p s1).2.
Proof.
intros Hsim. unfold enqueue_create_graphics_pipeline. cbv zeta. cbn [snd].
rewrite (in_graphics_slice_sim k sk s1 Hsim).
destruct (has_flag _ VK_PIPELINE_CREATE_DERIVATIVE_BIT); cbn [negb];
  [sim_core_fields|].
destruct (in_graphics_slice s1).
- pose proof (graphics_work_item_sim k h ci ci p
                (contributes_to_index default_work_item) sk s1 Hsim
                (create_info_rel_graphics_refl k ci)) as Hw.
  destruct (graphics_work_item h ci p _ sk), (graphics_work_item h ci p _ s1).
  now apply graphics_pipeline_index_sim.
- destruct (has_flag _ _); sim_core_fields.
Qed.

Lemma enqueue_create_compute_pipeline_sim_core k h ci p sk s1 :
  sim_core k sk s1 ->
  sim_core k (enqueue_create_compute_pipeline h ci p sk).2
             (enqueue_create_compute_pipeline h ci p s1).2.
Proof.
intros Hsim. unfold enqueue_create_compute_pipeline. cbv zeta. cbn [snd].
rewrite (in_compute_slice_sim k sk s1 Hsim).
destruct (has_flag _ VK_PIPELINE_CREATE_DERIVATIVE_BIT); cbn [negb];
  [sim_core_fields|].
destruct (in_compute_slice s1).
- pose proof (compute_work_item_sim k h ci ci p
                (contributes_to_index default_work_item) sk s1 Hsim
                (create_info_rel_compute_refl k ci)) as Hw.
  destruct (compute_work_item h ci p _ sk), (compute_work_item h ci p _ s1).
  now apply compute_pipeline_index_sim.
- destruct (has_flag _ _); sim_core_fields.
Qed.

(** What the two enqueue functions do to the deferred lists. *)
Lemma enqueue_create_graphics_pipeline_derived_graphics h ci p s :
  derived_graphics (enqueue_create_graphics_pipeline h ci p s).2
  = if has_flag (flags ci) VK_PIPELINE_CREATE_DERIVATIVE_BIT
    then derived_graphics s ++ [DeferredInfo.mk ci h p true]
    else derived_graphics s.
Proof.
unfold enqueue_create_graphics_pipeline. cbv zeta. cbn [snd].
destruct (has_flag _ VK_PIPELINE_CREATE_DERIVATIVE_BIT); cbn [negb]; [done|].
frame derived_graphics.
Qed.

Lemma enqueue_create_graphics_pipeline_derived_compute h ci p s :
  derived_compute (enqueue_create_graphics_pipeline h ci p s).2 = derived_compute s.
Proof. frame derived_compute. Qed.

Lemma enqueue_create_compute_pipeline_derived_compute h ci p s :
  derived_compute (enqueue_create_compute_pipeline h ci p s).2
  = if has_flag (flags ci) VK_PIPELINE_CREATE_DERIVATIVE_BIT
    then derived_compute s ++ [DeferredInfo.mk ci h p true]
    else derived_compute s.
Proof.
unfold enqueue_create_compute_pipeline. cbv zeta. cbn [snd].
destruct (has_flag _ VK_PIPELINE_CREATE_DERIVATIVE_BIT); cbn [negb]; [done|].
frame derived_compute.
Qed.

Lemma enqueue_create_compute_pipeline_derived_graphics h ci p s :
  derived_graphics (enqueue_create_compute_pipeline h ci p s).2 = derived_graphics s.
Proof. frame derived_graphics. Qed.

Lemma enqueue_create_graphics_pipeline_sim k h ci p sk s1 :
  sim k sk s1 ->
  sim k (enqueue_create_graphics_pipeline h ci p sk).2
        (enqueue_create_graphics_pipeline h ci p s1).2.
Proof.
intros (Hsim & Hg & Hc). split_and!.
- now apply enqueue_create_graphics_pipeline_sim_core.
- rewrite !enqueue_create_graphics_pipeline_derived_graphics. now rewrite Hg.
- now rewrite !enqueue_create_graphics_pipeline_derived_compute.
Qed.

Lemma enqueue_create_compute_pipeline_sim k h ci p sk s1 :
  sim k sk s1 ->
  sim k (enqueue_create_compute_pipeline h ci p sk).2
        (enqueue_create_compute_pipeline h ci p s1).2.
Proof.
intros (Hsim & Hg & Hc). split_and!.
- now apply enqueue_create_compute_pipeline_sim_core.
- now rewrite !enqueue_create_compute_pipeline_derived_graphics.
- rewrite !enqueue_create_compute_pipeline_derived_compute. now rewrite Hc.
Qed.

Section two_runs.
Variable k : Z.
Variables dk d1 : VulkanDevice.
Hypothesis k_nonneg : 0 <= k.
Hypothesis dk_succeeds : all_creates_succeed dk.
Hypothesis d1_succeeds : all_creates_succeed d1.
Hypothesis same_init : init_device dk = init_device d1.

Lemma sink_call_sim c sk s1 :
  sim k sk s1 -> process_sim k (sink_call dk c sk) (sink_call d1 c s1).
Proof.
intros Hsim. destruct c; simpl.
- unfold set_application_info.
  rewrite (sim_device_was_init _ _ _ (proj1 Hsim)), same_init.
  destruct Hsim as (Hsim & Hg & Hc).
  destruct (device_was_init s1); simpl; [done|].
  destruct (init_device d1); simpl; [|split; [done|]]; sim_fields.
- now apply enqueue_create_sampler_sim.
- now apply enqueue_create_descriptor_set_layout_sim.
- now apply enqueue_create_pipeline_layout_sim.
- now apply enqueue_create_render_pass_sim.
- now apply enqueue_create_shader_module_sim.
- now apply enqueue_create_graphics_pipeline_sim.
- now apply enqueue_create_compute_pipeline_sim.
- now apply sync_worker_threads_sim.
Qed.

Lemma parse_sim calls sk s1 :
  sim k sk s1 -> process_sim k (parse dk calls sk) (parse d1 calls s1).
Proof.
revert sk s1. induction calls as [|c calls IH]; intros sk s1 Hsim; simpl; [done|].
pose proof (sink_call_sim c sk s1 Hsim) as Hc.
destruct (sink_call dk c sk), (sink_call d1 c s1); try done. now apply IH.
Qed.

Lemma play_entries_sim entries sk s1 :
  sim k sk s1 ->
  process_sim k (play_entries dk entries sk) (play_entries d1 entries s1).
Proof.
revert sk s1. induction entries as [|e entries IH]; intros sk s1 Hsim; simpl;
  [done|].
destruct e as [|calls]; [done|].
pose proof (parse_sim calls sk s1 Hsim) as Hp.
destruct (parse dk calls sk), (parse d1 calls s1); try done. now apply IH.
Qed.

Lemma after_tag_sim tag_ sk s1 :
  sim k sk s1 ->
  sim k (after_tag dk tag_ sk).1 (after_tag d1 tag_ s1).1 /\
  (after_tag dk tag_ sk).2 = (after_tag d1 tag_ s1).2.
Proof.
intros Hsim. unfold after_tag.
destruct Hsim as (Hsim & Hg & Hc). rewrite Hg, Hc.
assert (Hboth : sim k sk s1) by done.
case_bool_decide; simpl; [split; [now apply sync_worker_threads_sim|done]|].
destruct (_ && _); simpl;
  [split; [now apply resolve_derived_graphics_pipelines_sim|done]|].
destruct (_ && _); simpl;
  [split; [now apply resolve_derived_compute_pipelines_sim|done]|done].
Qed.

Lemma play_tag_sim db tag_ sk s1 :
  sim k sk s1 ->
  process_sim k (play_tag dk db tag_ sk).1 (play_tag d1 db tag_ s1).1 /\
  (play_tag dk db tag_ sk).2 = (play_tag d1 db tag_ s1).2.
Proof.
intros Hsim. unfold play_tag.
destruct (entries_for_resource_tag db tag_) as [entries|]; [|done].
pose proof (play_entries_sim entries sk s1 Hsim) as Hp.
destruct (play_entries dk entries sk) as [sk'|ck sk'],
         (play_entries d1 entries s1) as [s1'|c1 s1']; try done.
destruct (after_tag_sim tag_ sk' s1' Hp) as (Ha & He).
destruct (after_tag dk tag_ sk'), (after_tag d1 tag_ s1'). simpl in *.
now subst.
Qed.

Lemma play_tags_sim db tags sk s1 :
  sim k sk s1 ->
  process_sim k (play_tags dk db tags sk).1 (play_tags d1 db tags s1).1 /\
  (play_tags dk db tags sk).2 = (play_tags d1 db tags s1).2.
Proof.
revert sk s1. induction tags as [|tag_ tags IH]; intros sk s1 Hsim; simpl; [done|].
destruct (play_tag_sim db tag_ sk s1 Hsim) as (Hp & He).
destruct (play_tag dk db tag_ sk) as [[sk'|ck sk'] evk],
         (play_tag d1 db tag_ s1) as [[s1'|c1 s1'] ev1]; simpl in *; try done.
subst ev1. destruct (IH sk' s1' Hp) as (Hp' & He').
destruct (play_tags dk db tags sk'), (play_tags d1 db tags s1'). simpl in *.
now subst.
Qed.

(** The two runs end with the same exit code and the same events, in
    related states. *)
Lemma run_normal_process_sim db rk r1 :
  sim k rk r1 ->
  (run_normal_process dk db rk).1.1 = (run_normal_process d1 db r1).1.1 /\
  (run_normal_process dk db rk).2 = (run_normal_process d1 db r1).2 /\
  sim k (run_normal_process dk db rk).1.2 (run_normal_process d1 db r1).1.2.
Proof.
intros Hsim. unfold run_normal_process.
destruct (prepare db); [|done].
destruct (play_tags_sim db playback_order rk r1 Hsim) as (Hp & He).
destruct (play_tags dk db playback_order rk) as [[sk'|ck sk'] evk],
         (play_tags d1 db playback_order r1) as [[s1'|c1 s1'] ev1];
  simpl in *; try done.
- subst ev1. split_and!; try done.
  now apply tear_down_threads_sim, sync_worker_threads_sim.
- destruct Hp as [-> Hp]. now subst.
Qed.

End two_runs.

Lemma new_ThreadedReplayer_sim optsk opts1 cbk cb1 memk mem1 :
  0 <= Options.loop_count optsk ->
  Options.loop_count opts1 = 1 ->
  same_slices optsk opts1 ->
  sim (Options.loop_count optsk)
      (new_ThreadedReplayer optsk cbk memk) (new_ThreadedReplayer opts1 cb1 mem1).
Proof.
intros Hk H1 Hs. unfold sim. split_and!; [|done..].
constructor; simpl; try done; try (split; [|done]; now rewrite Z.mul_0_r).
Qed.

(** *** Claim C7 *)

Lemma sample_device_succeeds : all_creates_succeed Sample.device.
Proof.
intros n. exists (1000 + Z.of_N n). split; [reflexivity|].
unfold VK_NULL_HANDLE. lia.
Qed.

Lemma scaled_exact k ck c1 :
  scaled k ck c1 -> 0 <= k -> k * c1 < 2 ^ 32 -> ck = k * c1.
Proof. intros [-> Hc] Hk Hlt. apply u32_small. nia. Qed.




(** The sample archive with [loop_count = 3] and with [loop_count = 1]: the
    counters and the keys of the graphics map. *)
Example sample_loop_count_3 :
  let sk := (run_normal_process Sample.device Sample.archive (Sample.replayer 3)).1.2 in
  let s1 := (run_normal_process Sample.device Sample.archive (Sample.replayer 1)).1.2 in
  (shader_module_count sk, graphics_pipeline_count sk, compute_pipeline_count sk)
  = (3, 3, 3) /\
  (shader_module_count s1, graphics_pipeline_count s1, compute_pipeline_count s1)
  = (1, 1, 1) /\
  map_to_list (graphics_pipelines sk) = [(111, 1005); (222, 1008)] /\
  map_to_list (graphics_pipelines s1) = [(111, 1001); (222, 1002)].
Proof. vm_compute. split_and!; reflexivity. Qed.

(** * Further properties *)

(** ** Invariants of a run *)

Lemma resolve_derived_graphics_pipelines_invariant device
    (P : ThreadedReplayer -> Prop) s :
  (forall f s, P s -> P (s <| derived_graphics ::= f |>)) ->
  (forall f s, P s -> P (s <| potential_graphics_parent ::= f |>)) ->
  (forall k s, P s -> P (s <| graphics_pipelines ::= touch k |>)) ->
  (forall s, P s -> P (sync_worker_threads device s)) ->
  (forall h ci p c s, P s -> P (enqueue_graphics_pipeline h ci p c s).2) ->
  P s -> P (resolve_derived_graphics_pipelines device s).2.
Proof.
intros H1 H2 H3 H4 H5 Hs. unfold resolve_derived_graphics_pipelines.
destruct (resolve_derived_pipelines _ _ _ _ _ _ _) as [r|] eqn:Hr; [|done].
simpl.
eapply (resolve_derived_pipelines_invariant derived_graphics
          potential_graphics_parent graphics_pipelines enqueue_graphics_pipeline
          device P H1 H2 H3 H4 H5); [exact Hs|exact Hr].
Qed.

Lemma resolve_derived_compute_pipelines_invariant device
    (P : ThreadedReplayer -> Prop) s :
  (forall f s, P s -> P (s <| derived_compute ::= f |>)) ->
  (forall f s, P s -> P (s <| potential_compute_parent ::= f |>)) ->
  (forall k s, P s -> P (s <| compute_pipelines ::= touch k |>)) ->
  (forall s, P s -> P (sync_worker_threads device s)) ->
  (forall h ci p c s, P s -> P (enqueue_compute_pipeline h ci p c s).2) ->
  P s -> P (resolve_derived_compute_pipelines device s).2.
Proof.
intros H1 H2 H3 H4 H5 Hs. unfold resolve_derived_compute_pipelines.
destruct (resolve_derived_pipelines _ _ _ _ _ _ _) as [r|] eqn:Hr; [|done].
simpl.
eapply (resolve_derived_pipelines_invariant derived_compute
          potential_compute_parent compute_pipelines enqueue_compute_pipeline
          device P H1 H2 H3 H4 H5); [exact Hs|exact Hr].
Qed.

Section run_invariant.
Variable device : VulkanDevice.
Variable P : ThreadedReplayer -> Prop.
Hypothesis P_sink_call : forall c s, P s -> P (process_state (sink_call device c s)).
Hypothesis P_sync : forall s, P s -> P (sync_worker_threads device s).
Hypothesis P_resolve_graphics :
  forall s, P s -> P (resolve_derived_graphics_pipelines device s).2.
Hypothesis P_resolve_compute :
  forall s, P s -> P (resolve_derived_compute_pipelines device s).2.
Hypothesis P_tear_down : forall s, P s -> P (tear_down_threads s).

Lemma parse_invariant calls s : P s -> P (process_state (parse device calls s)).
Proof.
revert s. induction calls as [|c calls IH]; intros s Hs; simpl; [done|].
pose proof (P_sink_call c s Hs) as Hc.
destruct (sink_call device c s); simpl in *; [now apply IH|done].
Qed.

Lemma play_entries_invariant entries s :
  P s -> P (process_state (play_entries device entries s)).
Proof.
revert s. induction entries as [|e entries IH]; intros s Hs; simpl; [done|].
destruct e as [|calls]; [done|].
pose proof (parse_invariant calls s Hs) as Hp.
destruct (parse device calls s); simpl in *; [now apply IH|done].
Qed.

Lemma after_tag_invariant tag_ s : P s -> P (after_tag device tag_ s).1.
Proof.
intros Hs. unfold after_tag.
case_bool_decide; simpl; [now apply P_sync|].
destruct (_ && _); simpl; [now apply P_resolve_graphics|].
destruct (_ && _); simpl; [now apply P_resolve_compute|done].
Qed.

Lemma play_tag_invariant db tag_ s :
  P s -> P (process_state (play_tag device db tag_ s).1).
Proof.
intros Hs. unfold play_tag.
destruct (entries_for_resource_tag db tag_) as [entries|]; [|done].
pose proof (play_entries_invariant entries s Hs) as Hp.
destruct (play_entries device entries s) as [s'|code s']; simpl in *; [|done].
pose proof (after_tag_invariant tag_ s' Hp) as Ha.
now destruct (after_tag device tag_ s').
Qed.

Lemma play_tags_invariant db tags s :
  P s -> P (process_state (play_tags device db tags s).1).
Proof.
revert s. induction tags as [|tag_ tags IH]; intros s Hs; simpl; [done|].
pose proof (play_tag_invariant db tag_ s Hs) as Ht.
destruct (play_tag device db tag_ s) as [[s'|code s'] evs]; simpl in *; [|done].
pose proof (IH s' Ht) as Hrest.
now destruct (play_tags device db tags s').
Qed.

Lemma run_normal_process_invariant db s :
  P s -> P (run_normal_process device db s).1.2.
Proof.
intros Hs. unfold run_normal_process. destruct (prepare db); [|done].
pose proof (play_tags_invariant db playback_order s Hs) as Ht.
destruct (play_tags device db playback_order s) as [[s'|code s'] evs];
  simpl in *; [|done].
now apply P_tear_down, P_sync.
Qed.

(** A run that returns [EXIT_SUCCESS] ends with the last barrier and the
    tear-down. *)
Lemma run_normal_process_success db s :
  (run_normal_process device db s).1.1 = EXIT_SUCCESS ->
  exists s', (P s -> P s') /\
    (run_normal_process device db s).1.2
    = tear_down_threads (sync_worker_threads device s').
Proof.
unfold run_normal_process. destruct (prepare db); [|done].
pose proof (play_tags_invariant db playback_order s) as Ht.
pose proof (play_tags_events device db playback_order s playback_order_NoDup)
  as [resolve Hev].
destruct (play_tags device db playback_order s) as [[s'|code s'] evs];
  simpl in *.
- intros _. exists s'. auto.
- destruct Hev as [_ ->]. done.
Qed.

End run_invariant.

(** ** The accounting of the work queue *)

Lemma u32_add_l a b : u32 (u32 a + b) = u32 (a + b).
Proof. unfold u32. apply Zplus_mod_idemp_l. Qed.

Lemma u32_range x : 0 <= u32 x < 2 ^ 32.
Proof. unfold u32. apply Z.mod_pos_bound. lia. Qed.

Lemma push_work_item_accounted w s :
  queue_accounted s -> queue_accounted (push_work_item w s).
Proof.
intros [Hc Hq]. unfold queue_accounted, push_work_item. simpl.
split; [done|]. rewrite Hq, length_app. simpl. unfold incr, fetch_add.
rewrite u32_add_l. f_equal. lia.
Qed.

Lemma process_work_item_queued_count device w s :
  queued_count (process_work_item device w s) = queued_count s.
Proof. frame queued_count. Qed.

Lemma process_work_item_completed_count device w s :
  completed_count (process_work_item device w s) = completed_count s.
Proof. frame completed_count. Qed.

Lemma worker_step_accounted device s s' :
  queue_accounted s -> worker_step device s = Some s' ->
  queue_accounted s' /\ queued_count s' = queued_count s.
Proof.
intros [Hc Hq]. unfold worker_step.
destruct (pipeline_work_queue s) as [|w rest] eqn:Hqueue; [done|].
intros [= <-]. unfold queue_accounted. simpl.
rewrite process_work_item_queued_count, process_work_item_completed_count,
  process_work_item_queue. simpl.
split_and!; [apply u32_range|apply u32_range| |done].
rewrite Hq. simpl length. unfold incr, fetch_add. rewrite u32_add_l. f_equal. lia.
Qed.

Lemma worker_run_accounted device n s :
  queue_accounted s ->
  queue_accounted (worker_run device n s) /\
  queued_count (worker_run device n s) = queued_count s.
Proof.
revert s. induction n as [|n IH]; intros s Hs; simpl; [done|].
destruct (worker_step device s) as [s'|] eqn:Hstep; [|done].
destruct (worker_step_accounted device s s' Hs Hstep) as [Hs' Hq].
destruct (IH s' Hs') as [IH1 IH2]. split; [done|congruence].
Qed.

Lemma sync_worker_threads_accounted device s :
  queue_accounted s -> queue_accounted (sync_worker_threads device s).
Proof. intros Hs. now apply worker_run_accounted. Qed.

Lemma enqueue_graphics_pipeline_accounted h ci p c s :
  queue_accounted s -> queue_accounted (enqueue_graphics_pipeline h ci p c s).2.
Proof.
intros Hs. unfold enqueue_graphics_pipeline, graphics_work_item. simpl.
destruct (negb c || in_graphics_slice s); [|destruct c; exact Hs].
destruct (valid_handles ci);
  match goal with
  | |- context [push_work_item ?w ?s0] =>
      pose proof (push_work_item_accounted w s0 Hs) as Hp
  end; destruct c; exact Hp.
Qed.

Lemma enqueue_compute_pipeline_accounted h ci p c s :
  queue_accounted s -> queue_accounted (enqueue_compute_pipeline h ci p c s).2.
Proof.
intros Hs. unfold enqueue_compute_pipeline, compute_work_item. simpl.
destruct (negb c || in_compute_slice s); [|destruct c; exact Hs].
case_bool_decide;
  match goal with
  | |- context [push_work_item ?w ?s0] =>
      pose proof (push_work_item_accounted w s0 Hs) as Hp
  end; destruct c; exact Hp.
Qed.

Lemma enqueue_create_graphics_pipeline_accounted h ci p s :
  queue_accounted s -> queue_accounted (enqueue_create_graphics_pipeline h ci p s).2.
Proof.
intros Hs. unfold enqueue_create_graphics_pipeline, graphics_work_item.
cbv zeta. cbn [snd].
destruct (has_flag _ VK_PIPELINE_CREATE_DERIVATIVE_BIT); cbn [negb]; [exact Hs|].
destruct (in_graphics_slice s).
- destruct (valid_handles ci);
    match goal with
    | |- context [push_work_item ?w ?s0] =>
        exact (push_work_item_accounted w s0 Hs)
    end.
- destruct (has_flag _ _); exact Hs.
Qed.

Lemma enqueue_create_compute_pipeline_accounted h ci p s :
  queue_accounted s -> queue_accounted (enqueue_create_compute_pipeline h ci p s).2.
Proof.
intros Hs. unfold enqueue_create_compute_pipeline, compute_work_item.
cbv zeta. cbn [snd].
destruct (has_flag _ VK_PIPELINE_CREATE_DERIVATIVE_BIT); cbn [negb]; [exact Hs|].
destruct (in_compute_slice s).
- case_bool_decide;
    match goal with
    | |- context [push_work_item ?w ?s0] =>
        exact (push_work_item_accounted w s0 Hs)
    end.
- destruct (has_flag _ _); exact Hs.
Qed.

Lemma vkCreate_accounted device out s :
  queue_accounted s -> queue_accounted (vkCreate device out s).2.
Proof.
intros Hs. unfold vkCreate.
destruct (create_result device (device_calls s)) as [h|[h|]]; exact Hs.
Qed.

Lemma sink_call_accounted device c s :
  queue_accounted s -> queue_accounted (process_state (sink_call device c s)).
Proof.
intros Hs. destruct c; simpl.
- unfold set_application_info. destruct (device_was_init s); [done|].
  destruct (init_device device); exact Hs.
- unfold enqueue_create_sampler.
  pose proof (vkCreate_accounted device (Some sampler) s Hs) as Hv.
  destruct (vkCreate device (Some sampler) s) as [[] s']; exact Hv.
- unfold enqueue_create_descriptor_set_layout.
  pose proof (vkCreate_accounted device (Some layout) s Hs) as Hv.
  destruct (vkCreate device (Some layout) s) as [[] s']; exact Hv.
- unfold enqueue_create_pipeline_layout.
  pose proof (vkCreate_accounted device (Some layout) s Hs) as Hv.
  destruct (vkCreate device (Some layout) s) as [[] s']; exact Hv.
- unfold enqueue_create_render_pass.
  pose proof (vkCreate_accounted device (Some render_pass) s Hs) as Hv.
  destruct (vkCreate device (Some render_pass) s) as [[] s']; exact Hv.
- unfold enqueue_create_shader_module. case_bool_decide; simpl; [exact Hs|].
  match goal with
  | |- context [push_work_item ?w ?s0] => exact (push_work_item_accounted w s0 Hs)
  end.
- now apply enqueue_create_graphics_pipeline_accounted.
- now apply enqueue_create_compute_pipeline_accounted.
- now apply sync_worker_threads_accounted.
Qed.

Lemma resolve_derived_graphics_pipelines_accounted device s :
  queue_accounted s ->
  queue_accounted (resolve_derived_graphics_pipelines device s).2.
Proof.
apply resolve_derived_graphics_pipelines_invariant; try (intros; assumption).
- apply sync_worker_threads_accounted.
- intros. now apply enqueue_graphics_pipeline_accounted.
Qed.

Lemma resolve_derived_compute_pipelines_accounted device s :
  queue_accounted s ->
  queue_accounted (resolve_derived_compute_pipelines device s).2.
Proof.
apply resolve_derived_compute_pipelines_invariant; try (intros; assumption).
- apply sync_worker_threads_accounted.
- intros. now apply enqueue_compute_pipeline_accounted.
Qed.

Lemma tear_down_threads_accounted s :
  queue_accounted s -> queue_accounted (tear_down_threads s).
Proof. intros Hs. unfold tear_down_threads. destruct (shutting_down s); exact Hs. Qed.

Lemma tear_down_threads_queue s :
  pipeline_work_queue (tear_down_threads s) = pipeline_work_queue s /\
  completed_count (tear_down_threads s) = completed_count s /\
  queued_count (tear_down_threads s) = queued_count s.
Proof. unfold tear_down_threads. now destruct (shutting_down s). Qed.

Lemma queue_accounted_empty s :
  queue_accounted s -> pipeline_work_queue s = [] ->
  completed_count s = queued_count s.
Proof.
intros [Hc Hq] Hempty. rewrite Hq, Hempty. simpl.
rewrite Z.add_0_r. symmetry. now apply u32_small.
Qed.


